(** * electrum-locale: the translation proofreader, diff extraction and
    classification orchestration

    A shallow embedding of [llm_proofreader/llm_proofreader.py]:
    the PO entry scanner ([_unescape_po], [_extract_po_string_lines],
    [_extract_pairs_from_lines]), the diff extractor ([parse_po_diff]) and
    the classification layer ([call_openai_async],
    [classify_translation_async], [scan_diff_async]), the file and
    directory scans ([parse_po_file], [scan_po_file_async],
    [scan_locale_directory_async]) and the reports ([get_report_path],
    [report_exists], [write_locale_report], [write_summary_report]).

    Conventions.
    - A Python [str] is a [string]; a character is a code point below 256
      (Latin-1), and the character classes of [str.isspace], [str.lower]
      and the regex class [\w] are the Unicode ones on that range.
    - A Python exception is a value: functions that index a list, look a key
      up or loop return [res A], which is [Ok a], [Raise e] or [OutOfFuel]
      (a [while] loop is a fixpoint on a fuel argument; the callers pass a
      fuel that the theorems show to be enough).
    - A [list] that the code indexes is read with stdpp's [!!]; out of range
      the code raises [IndexError] and so does [index].
    - The output directory is an existing flat directory of files, a map
      from file names to contents; the texts of the reports are only
      copied, joined, compared and ordered.
    - The libraries the code calls (unidiff, polib, the clock, the
      classifier behind the HTTP endpoint) are arguments of the functions
      that use them. *)

From Stdlib Require Import Ascii String.
From stdpp Require Import base option list strings gmap sorting pretty.

Local Open Scope stdpp_scope.

(** ** Characters *)

Definition LF : ascii := "010"%char.
Definition TAB : ascii := "009"%char.
Definition DQUOTE : ascii := "034"%char.
Definition BACKSLASH : ascii := "092"%char.
Definition SLASH : ascii := "047"%char.

(** [dq] is the one-character string holding a double quote, and
    [quoted s] is [s] between double quotes. *)
Definition dq : string := String DQUOTE "".
Definition quoted (s : string) : string := dq +:+ s +:+ dq.

(** ** Exceptions and results *)

Inductive exn : Set :=
  | IndexError
  | KeyError
  | AssertionError
  | RuntimeError
  | ClientError
  | ValueError
  | UnidiffParseError.

Inductive res (A : Type) : Type :=
  | Ok (a : A)
  | Raise (e : exn)
  | OutOfFuel.
Arguments Ok {A} a.
Arguments Raise {A} e.
Arguments OutOfFuel {A}.

Definition res_bind {A B : Type} (f : A → res B) (m : res A) : res B :=
  match m with
  | Ok a => f a
  | Raise e => Raise e
  | OutOfFuel => OutOfFuel
  end.

#[global] Instance res_mret : MRet res := @Ok.
#[global] Instance res_mbind : MBind res := @res_bind.

(** Unfolds the binds of [res] and nothing else. *)
Ltac res_simpl := cbn [mbind res_mbind res_bind mret res_mret].

(** [l[i]] for [0 <= i]: [IndexError] out of range. *)
Definition index {A : Type} (l : list A) (i : nat) : res A :=
  match l !! i with
  | Some x => Ok x
  | None => Raise IndexError
  end.

(** [d[k]] on a dict kept as an association list: [KeyError] when absent. *)
Fixpoint getitem (d : list (string * string)) (k : string) : res string :=
  match d with
  | [] => Raise KeyError
  | (k', v) :: d' => if String.eqb k' k then Ok v else getitem d' k
  end.

(** ** String primitives of the Python source *)

(** [s.startswith(p)] *)
Fixpoint startswith (s p : string) {struct p} : bool :=
  match p, s with
  | EmptyString, _ => true
  | String a p', String b s' => Ascii.eqb a b && startswith s' p'
  | String _ _, EmptyString => false
  end.

(** [str.join] on the empty separator. *)
Fixpoint join (parts : list string) : string :=
  match parts with
  | [] => ""
  | p :: ps => p +:+ join ps
  end.

(** [s.lstrip(chars)] and [s.rstrip(chars)], the set of characters given
    as a predicate. *)
Fixpoint lstrip (P : ascii → bool) (s : string) : string :=
  match s with
  | EmptyString => ""
  | String c r => if P c then lstrip P r else s
  end.

Fixpoint rstrip (P : ascii → bool) (s : string) : string :=
  match s with
  | EmptyString => ""
  | String c r =>
      match rstrip P r with
      | EmptyString => if P c then "" else String c ""
      | r' => String c r'
      end
  end.

(** [str.isspace] on one character (code points below 256). *)
Definition isspace (c : ascii) : bool :=
  let n := nat_of_ascii c in
  ((9 <=? n) && (n <=? 13)) || ((28 <=? n) && (n <=? 32))
  || (n =? 133) || (n =? 160).

(** [s.strip()] *)
Definition strip (s : string) : string := rstrip isspace (lstrip isspace s).

(** [str.lower] on one character (code points below 256): the ASCII
    capitals and the Latin-1 capitals U+00C0..U+00DE without U+00D7. *)
Definition lower_char (c : ascii) : ascii :=
  let n := nat_of_ascii c in
  if ((65 <=? n) && (n <=? 90))
     || ((192 <=? n) && (n <=? 222) && negb (n =? 215))
  then ascii_of_nat (n + 32) else c.

(** [s.lower()] *)
Fixpoint lower (s : string) : string :=
  match s with
  | EmptyString => ""
  | String c r => String (lower_char c) (lower r)
  end.

(** ** The regular expressions of the source

    Each pattern of the source is written out as the function the [re]
    engine computes for it. *)

Module re.

(** [.] without [DOTALL]: any character but a newline. *)
Definition dot (c : ascii) : bool := negb (Ascii.eqb c LF).

(** [\w] on code points below 256: letters, digits (with the superscript
    digits and the vulgar fractions, which [isalnum] accepts) and the
    underscore. *)
Definition word (c : ascii) : bool :=
  let n := nat_of_ascii c in
  ((48 <=? n) && (n <=? 57)) || ((65 <=? n) && (n <=? 90))
  || ((97 <=? n) && (n <=? 122)) || (n =? 95)
  || (n =? 170) || (n =? 178) || (n =? 179) || (n =? 181) || (n =? 185)
  || (n =? 186) || ((188 <=? n) && (n <=? 190))
  || ((192 <=? n) && (n <=? 214)) || ((216 <=? n) && (n <=? 246))
  || ((248 <=? n) && (n <=? 255)).

(** The group and the closing quote of a pattern, greedy, on the text
    after an opening quote: the longest newline-free [g] with
    [s = g ++ dq ++ _]. *)
Fixpoint greedy_to_quote (s : string) : option string :=
  match s with
  | EmptyString => None
  | String c r =>
      if dot c then
        match greedy_to_quote r with
        | Some g => Some (String c g)
        | None => if Ascii.eqb c DQUOTE then Some "" else None
        end
      else None
  end.

(** [re.search] with the pattern quote, group of [.*], quote: the group
    of the leftmost match. *)
Fixpoint search_quoted (s : string) : option string :=
  match s with
  | EmptyString => None
  | String c r =>
      if Ascii.eqb c DQUOTE then
        match greedy_to_quote r with
        | Some g => Some g
        | None => search_quoted r
        end
      else search_quoted r
  end.

(** The same followed by [$], on the text after the opening quote: [$]
    is the end of the string or the place before a final newline. *)
Fixpoint greedy_to_quote_eol (s : string) : option string :=
  match s with
  | EmptyString => None
  | String c r =>
      if dot c then
        match greedy_to_quote_eol r with
        | Some g => Some (String c g)
        | None =>
            if Ascii.eqb c DQUOTE
               && (String.eqb r "" || String.eqb r (String LF ""))
            then Some "" else None
        end
      else None
  end.

(** [re.match] with the pattern [^], quote, group of [.*], quote, [$]:
    the group when the line is entirely a quoted string. *)
Definition match_quoted_line (s : string) : option string :=
  match s with
  | EmptyString => None
  | String c r => if Ascii.eqb c DQUOTE then greedy_to_quote_eol r else None
  end.

(** [s] without the prefix [p], when it has it. *)
Fixpoint literal (p s : string) {struct p} : option string :=
  match p, s with
  | EmptyString, _ => Some s
  | String a p', String b s' => if Ascii.eqb a b then literal p' s' else None
  | String _ _, EmptyString => None
  end.

(** [[^/]+], greedy: the longest slash-free prefix and what follows. *)
Fixpoint not_slash_run (s : string) : string * string :=
  match s with
  | EmptyString => ("", "")
  | String c r =>
      if Ascii.eqb c SLASH then ("", s)
      else let '(g, t) := not_slash_run r in (String c g, t)
  end.

(** [\b] after a word character: the end of the string or a character
    that is not a word character. *)
Definition boundary_after_word (s : string) : bool :=
  match s with
  | EmptyString => true
  | String c _ => negb (word c)
  end.

(** [locale/([^/]+)/electrum\.po\b] anchored at the start of [s]. The
    class [[^/]] stops at the first slash and the pattern goes on with a
    slash, so giving characters back never helps. *)
Definition match_locale_here (s : string) : option string :=
  r ← literal "locale/" s;
  let '(g, t) := not_slash_run r in
  match g with
  | EmptyString => None
  | _ =>
      u ← literal "/electrum.po" t;
      if boundary_after_word u then Some g else None
  end.

(** [re.search(r'locale/([^/]+)/electrum\.po\b', s)]: group 1 of the
    leftmost match. *)
Fixpoint search_locale (s : string) : option string :=
  match match_locale_here s with
  | Some g => Some g
  | None =>
      match s with
      | EmptyString => None
      | String _ r => search_locale r
      end
  end.

End re.

(** ** [_unescape_po] *)

(** The dict [_PO_ESCAPES]. *)
Definition _PO_ESCAPES : list (string * string) :=
  [ (String BACKSLASH (String BACKSLASH ""), String BACKSLASH "");
    (String BACKSLASH "n", String LF "");
    (String BACKSLASH "t", String TAB "");
    (String BACKSLASH dq, dq) ].

(** The class of [_PO_ESCAPE_RE]: backslash, n, t, double quote. *)
Definition escape_class (c : ascii) : bool :=
  Ascii.eqb c BACKSLASH || Ascii.eqb c "n"%char || Ascii.eqb c "t"%char
  || Ascii.eqb c DQUOTE.

(** [_PO_ESCAPE_RE.sub(lambda m: _PO_ESCAPES[m.group()], s)]: [sub] scans
    from the left; where the pattern (a backslash and a character of the
    class) matches, the replacement is looked up and the scan goes on after
    the match, elsewhere the character is copied. *)
Fixpoint _unescape_po (s : string) : res string :=
  match s with
  | EmptyString => Ok ""
  | String a s' =>
      match s' with
      | String c r =>
          if Ascii.eqb a BACKSLASH && escape_class c then
            v ← getitem _PO_ESCAPES (String a (String c ""));
            t ← _unescape_po r;
            Ok (v +:+ t)
          else
            t ← _unescape_po s';
            Ok (String a t)
      | EmptyString => Ok (String a "")
      end
  end.

(** ** [_extract_po_string_lines] *)

(** The loop that collects the continuation lines:
    [while i < len(lines)], a line that is entirely a quoted string is
    appended to [parts] and the cursor advances, any other line breaks. *)
Fixpoint continuation_loop (fuel : nat) (lines : list string)
    (parts : list string) (i : nat) : res (list string * nat) :=
  match fuel with
  | O => OutOfFuel
  | S fuel' =>
      if bool_decide (i < length lines) then
        line ← index lines i;
        match re.match_quoted_line line with
        | Some g => continuation_loop fuel' lines (parts ++ [g]) (i + 1)
        | None => Ok (parts, i)
        end
      else Ok (parts, i)
  end.

(** Returns [(value, next_line_index)]. The loop advances the cursor at
    each turn, so [length lines] turns are enough. *)
Definition _extract_po_string_lines (lines : list string) (start : nat)
    : res (string * nat) :=
  line ← index lines start;
  match re.search_quoted line with
  | None => Ok ("", start + 1)
  | Some g =>
      '(parts, i) ← continuation_loop (length lines) lines [g] (start + 1);
      v ← _unescape_po (join parts);
      Ok (v, i)
  end.

(** ** [_extract_pairs_from_lines] *)

(** The two keywords, each with its opening quote. *)
Definition msgid_kw : string := "msgid " +:+ dq.
Definition msgstr_kw : string := "msgstr " +:+ dq.

(** [i < len(lines) and lines[i].startswith(kw)] *)
Definition line_startswith (lines : list string) (i : nat) (kw : string)
    : res bool :=
  if bool_decide (i < length lines) then
    line ← index lines i;
    Ok (startswith line kw)
  else Ok false.

(** The loop that looks for the value marker:
    [while i < len(lines) and not lines[i].startswith(msgstr_kw)
           and not lines[i].startswith(msgid_kw): i += 1]. *)
Fixpoint skip_loop (fuel : nat) (lines : list string) (i : nat) : res nat :=
  match fuel with
  | O => OutOfFuel
  | S fuel' =>
      if bool_decide (i < length lines) then
        l1 ← index lines i;
        if negb (startswith l1 msgstr_kw) then
          l2 ← index lines i;
          if negb (startswith l2 msgid_kw) then skip_loop fuel' lines (i + 1)
          else Ok i
        else Ok i
      else Ok i
  end.

(** The value of the entry whose key ended before line [i]: the branch
    [if i < len(lines) and lines[i].startswith(msgstr_kw)] and its [else]. *)
Definition extract_msgstr (lines : list string) (i : nat)
    : res (string * nat) :=
  b ← line_startswith lines i msgstr_kw;
  if b : bool then _extract_po_string_lines lines i
  else
    i' ← skip_loop (S (length lines)) lines i;
    b' ← line_startswith lines i' msgstr_kw;
    if b' : bool then _extract_po_string_lines lines i'
    else Ok ("", i').

(** The main loop, [pairs] and the cursor [i] being its state. *)
Fixpoint pairs_loop (fuel : nat) (lines : list string)
    (pairs : list (string * string)) (i : nat)
    : res (list (string * string)) :=
  match fuel with
  | O => OutOfFuel
  | S fuel' =>
      if bool_decide (i < length lines) then
        line ← index lines i;
        if startswith line msgid_kw then
          '(msgid, i1) ← _extract_po_string_lines lines i;
          '(msgstr, i2) ← extract_msgstr lines i1;
          if String.eqb msgid "" then pairs_loop fuel' lines pairs i2
          else pairs_loop fuel' lines (pairs ++ [(msgid, msgstr)]) i2
        else pairs_loop fuel' lines pairs (i + 1)
      else Ok pairs
  end.

(** The cursor advances at each turn of the main loop, so
    [S (length lines)] turns are enough. *)
Definition _extract_pairs_from_lines (lines : list string)
    : res (list (string * string)) :=
  pairs_loop (S (length lines)) lines [] 0.

(** ** [parse_po_diff] *)

(** The objects of the [unidiff] package, by the attributes the source
    reads: a [PatchSet] iterates over patched files, a patched file has a
    [path] and iterates over hunks, a hunk iterates over lines, and a line
    has a [line_type] and a [value]. *)
Inductive LineType : Set :=
  | LINE_TYPE_ADDED
  | LINE_TYPE_REMOVED
  | LINE_TYPE_CONTEXT
  | LINE_TYPE_EMPTY
  | LINE_TYPE_NO_NEWLINE.

#[global] Instance LineType_eq_dec : EqDecision LineType.
Proof. solve_decision. Defined.

Record Line : Set := mkLine { line_type : LineType; value : string }.

Definition is_added (line : Line) : bool :=
  bool_decide (line_type line = LINE_TYPE_ADDED).
Definition is_removed (line : Line) : bool :=
  bool_decide (line_type line = LINE_TYPE_REMOVED).

Definition Hunk : Set := list Line.

Record PatchedFile : Set := mkPatchedFile { path : string; hunks : list Hunk }.

(** A [for] loop whose body may raise: the state is threaded through the
    items in order. *)
Fixpoint for_each {A S : Type} (body : S → A → res S) (l : list A) (s : S)
    : res S :=
  match l with
  | [] => Ok s
  | x :: l' => s' ← body s x; for_each body l' s'
  end.

(** The inner loop [for line in hunk]: [(plus_lines, minus_lines)]. *)
Definition hunk_sides (hunk : Hunk) : list string * list string :=
  foldl (λ '(plus_lines, minus_lines) line,
           let content := rstrip (Ascii.eqb LF) (value line) in
           if is_added line then (plus_lines ++ [content], minus_lines)
           else if is_removed line then (plus_lines, minus_lines ++ [content])
           else (plus_lines ++ [content], minus_lines ++ [content]))
        ([], []) hunk.

(** The dict [old_lookup]: a later pair overwrites an earlier one. *)
Definition build_old_lookup (old_pairs : list (string * string))
    : gmap string string :=
  foldl (λ old_lookup '(msgid, msgstr), <[msgid := msgstr]> old_lookup)
        ∅ old_pairs.

(** [old_lookup.get(msgid, empty)] *)
Definition lookup_get (old_lookup : gmap string string) (msgid : string)
    : string :=
  default "" (old_lookup !! msgid).

(** A result tuple [(locale, msgid, msgstr)]. *)
Definition Change : Set := string * string * string.

(** The loop [for msgid, msgstr in new_pairs]. *)
Definition emit_changes (current_locale : string)
    (old_lookup : gmap string string) (new_pairs : list (string * string))
    (results : list Change) : list Change :=
  foldl (λ results '(msgid, msgstr),
           if String.eqb msgstr "" then results
           else
             let old_msgstr := lookup_get old_lookup msgid in
             if negb (String.eqb msgstr old_msgstr)
             then results ++ [(current_locale, msgid, msgstr)]
             else results)
        results new_pairs.

(** The body of [for hunk in patched_file]. *)
Definition hunk_body (current_locale : string) (results : list Change)
    (hunk : Hunk) : res (list Change) :=
  let '(plus_lines, minus_lines) := hunk_sides hunk in
  new_pairs ← _extract_pairs_from_lines plus_lines;
  old_pairs ← _extract_pairs_from_lines minus_lines;
  Ok (emit_changes current_locale (build_old_lookup old_pairs) new_pairs
        results).

(** The body of [for patched_file in patch_set]. *)
Definition file_body (results : list Change) (patched_file : PatchedFile)
    : res (list Change) :=
  match re.search_locale (path patched_file) with
  | None => Ok results
  | Some current_locale =>
      for_each (hunk_body current_locale) (hunks patched_file) results
  end.

(** [parse_po_diff]; [PatchSet] is the parser of the [unidiff] package,
    which may raise on a text that is not a unified diff. *)
Definition parse_po_diff (PatchSet : string → res (list PatchedFile))
    (diff_text : string) : res (list Change) :=
  if String.eqb (strip diff_text) "" then Ok []
  else
    patch_set ← PatchSet diff_text;
    for_each file_body patch_set [].

(** ** The classifier call: [call_openai_async] and
    [classify_translation_async] *)

Inductive Classification : Set := Genuine | Spam.

#[global] Instance Classification_eq_dec : EqDecision Classification.
Proof. solve_decision. Defined.

(** What one [session.post] gives the loop of [call_openai_async]: the
    request fails (connection error, timeout of 60 seconds), or a response
    arrives with its status and, when its body is JSON that has it, the
    string at [choices/0/message/content]. *)
Inductive Reply : Set :=
  | RequestFailed
  | Response (status : nat) (content : option string).

(** [needle in s] *)
Fixpoint contains (s needle : string) : bool :=
  startswith s needle
  || match s with
     | EmptyString => false
     | String _ r => contains r needle
     end.

(** The body of the [try] of [call_openai_async] on one reply: the
    normalised payload it returns, or the exception that the [except]
    clause catches. The [assert] is executed (the interpreter runs without
    [-O]). *)
Definition try_body (r : Reply) : res string :=
  match r with
  | RequestFailed => Raise ClientError
  | Response status content =>
      if negb (status =? 200) then Raise RuntimeError
      else
        match content with
        | None => Raise KeyError
        | Some raw =>
            let response := lower (strip raw) in
            if String.eqb response "genuine" || String.eqb response "spam"
            then Ok response
            else Raise AssertionError
        end
  end.

(** The end of [classify_translation_async], on the payload that
    [call_openai_async] returned. *)
Definition classification_of (response : string) : Classification :=
  if contains response "genuine" then Genuine else Spam.

(** [call_openai_async] as one coroutine on its own, [replies k] being the
    reply to its request [k] (from 0): the loop [while True] from request
    [k] on, each turn one [try]; it returns the payload and the sleeps it
    made, in order. [fuel] bounds the requests. *)
Fixpoint call_openai_async {duration : Type} (retry_delay : duration)
    (replies : nat → Reply) (fuel : nat) (k : nat)
    : res (string * list duration) :=
  match fuel with
  | O => OutOfFuel
  | S fuel' =>
      match try_body (replies k) with
      | Ok response => Ok (response, [])
      | _ =>
          '(response, sleeps) ←
            call_openai_async retry_delay replies fuel' (k + 1);
          Ok (response, retry_delay :: sleeps)
      end
  end.

(** [classify_translation_async] with a semaphore that is free. *)
Definition classify_translation_async {duration : Type}
    (retry_delay : duration) (replies : nat → Reply) (fuel : nat)
    : res Classification :=
  '(response, _) ← call_openai_async retry_delay replies fuel 0;
  Ok (classification_of response).

(** ** The event loop: [asyncio.gather] over the [_check] coroutines

    Each record has one task, the coroutine [_check] with
    [classify_translation_async] and [call_openai_async] inside it; a task
    is at one of its suspension points, and a turn of the loop runs one task
    from its suspension point to the next: the loop of [call_openai_async]
    is cut at its two [await]s, [Posting k] before the reply to request [k]
    and [Sleeping k] in the sleep that follows its failure. The semaphore is
    [asyncio.Semaphore] as CPython has it in [asyncio/locks.py]: the counter
    [_value] and the deque [_waiters] of the futures of the tasks that
    wait. *)
Inductive TaskState : Set :=
  | Created
      (* scheduled by [gather], not yet run *)
  | Waiting
      (* in [semaphore.acquire()], its future pending in the deque *)
  | Woken
      (* its future has a result: the permit is its own, it has not yet
         resumed *)
  | Posting (k : nat)
      (* inside [async with semaphore], awaiting the reply to request [k] *)
  | Sleeping (k : nat)
      (* inside [async with semaphore], in [asyncio.sleep(retry_delay)]
         after request [k] failed *)
  | Returned (c : Classification).

#[global] Instance TaskState_eq_dec : EqDecision TaskState.
Proof. solve_decision. Defined.

(** The effects of a run, in order: requests sent, sleeps, and the two
    events of the semaphore's queue. *)
Inductive Event (duration : Type) : Type :=
  | EvPost (i k : nat)
  | EvSleep (i : nat) (d : duration)
  | EvQueued (i : nat)
  | EvWoken (i : nat).
Arguments EvPost {duration} i k.
Arguments EvSleep {duration} i d.
Arguments EvQueued {duration} i.
Arguments EvWoken {duration} i.

(** The state of the loop: the semaphore ([_value] and the deque
    [_waiters], a waiter being named by its task), the tasks in the order of
    the records, and the effects so far. *)
Record LoopState (duration : Type) : Type := mkLoopState {
  sem_value : nat;
  sem_waiters : list nat;
  tasks : list TaskState;
  log : list (Event duration)
}.
Arguments mkLoopState {duration} _ _ _ _.
Arguments sem_value {duration} _.
Arguments sem_waiters {duration} _.
Arguments tasks {duration} _.
Arguments log {duration} _.

(** [asyncio.Semaphore(value)] *)
Definition new_semaphore (value : Z) : res nat :=
  if bool_decide (value < 0)%Z then Raise ValueError else Ok (Z.to_nat value).

(** [deque.remove(x)]: the first occurrence. *)
Fixpoint deque_remove (x : nat) (d : list nat) : list nat :=
  match d with
  | [] => []
  | y :: d' => if bool_decide (x = y) then d' else y :: deque_remove x d'
  end.

(** The first waiter whose future is not done. *)
Fixpoint first_pending (ts : list TaskState) (waiters : list nat)
    : option nat :=
  match waiters with
  | [] => None
  | j :: waiters' =>
      match ts !! j with
      | Some Waiting => Some j
      | _ => first_pending ts waiters'
      end
  end.

Section EventLoop.

Context {duration : Type}.
Variable retry_delay : duration.
(** [classifier i k]: the reply to request [k] (from 0) for record [i]. *)
Variable classifier : nat → nat → Reply.

Abbreviation State := (LoopState duration).

(** [Semaphore.locked]: no future is ever cancelled here, so a waiter in
    the deque is a waiter that is not cancelled. *)
Definition locked (σ : State) : bool :=
  (sem_value σ =? 0) || negb (bool_decide (sem_waiters σ = [])).

(** [Semaphore._wake_up_next]: the first pending waiter takes one unit
    of the counter and its future gets its result. *)
Definition _wake_up_next (σ : State) : State :=
  match first_pending (tasks σ) (sem_waiters σ) with
  | None => σ
  | Some j =>
      mkLoopState (sem_value σ - 1) (sem_waiters σ)
        (<[j := Woken]> (tasks σ)) (log σ ++ [EvWoken j])
  end.

(** [Semaphore.release] *)
Definition release (σ : State) : State :=
  _wake_up_next
    (mkLoopState (sem_value σ + 1) (sem_waiters σ) (tasks σ) (log σ)).

Definition set_task (i : nat) (t : TaskState) (σ : State) : State :=
  mkLoopState (sem_value σ) (sem_waiters σ) (<[i := t]> (tasks σ)) (log σ).

Definition emit (e : Event duration) (σ : State) : State :=
  mkLoopState (sem_value σ) (sem_waiters σ) (tasks σ) (log σ ++ [e]).

(** Task [i] runs from its suspension point to the next one; [None] when
    it cannot run (it waits on a pending future, or it has returned). *)
Definition step_task (σ : State) (i : nat) : option State :=
  match tasks σ !! i with
  | Some Created =>
      (* up to [await self.acquire()] and, on the fast path, to the first
         [session.post] *)
      if locked σ then
        Some (emit (EvQueued i)
                (mkLoopState (sem_value σ) (sem_waiters σ ++ [i])
                   (<[i := Waiting]> (tasks σ)) (log σ)))
      else
        Some (emit (EvPost i 0)
                (mkLoopState (sem_value σ - 1) (sem_waiters σ)
                   (<[i := Posting 0]> (tasks σ)) (log σ)))
  | Some Waiting => None
  | Some Woken =>
      (* the rest of [acquire]: the future leaves the deque, and a counter
         still positive wakes the next waiter; then the first
         [session.post] *)
      let σ1 := mkLoopState (sem_value σ) (deque_remove i (sem_waiters σ))
                  (tasks σ) (log σ) in
      let σ2 := if 0 <? sem_value σ1 then _wake_up_next σ1 else σ1 in
      Some (emit (EvPost i 0) (set_task i (Posting 0) σ2))
  | Some (Posting k) =>
      match try_body (classifier i k) with
      | Ok response =>
          (* [return response], then [__aexit__] releases, then the
             classification is returned *)
          Some (set_task i (Returned (classification_of response))
                  (release σ))
      | Raise _ =>
          (* [except Exception]: [await asyncio.sleep(retry_delay)] *)
          Some (emit (EvSleep i retry_delay) (set_task i (Sleeping k) σ))
      | OutOfFuel => None
      end
  | Some (Sleeping k) =>
      (* [while True]: the next [session.post] *)
      Some (emit (EvPost i (k + 1)) (set_task i (Posting (k + 1)) σ))
  | Some (Returned _) => None
  | None => None
  end.

(** One turn of the loop: some task that can run runs. *)
Definition step (σ σ' : State) : Prop := ∃ i, step_task σ i = Some σ'.

(** Which ready task runs next depends on when replies and timers
    arrive: [schedule σ] lists the tasks in the order in which the loop
    would run them in the state [σ] (the log is part of the state, so the
    order may depend on the whole history). *)
Variable schedule : State → list nat.

(** [run_until_complete]: at each turn the first task of the schedule
    that can run, runs. When no task can run and some task has not
    returned, the loop waits forever. *)
Fixpoint first_ready (σ : State) (candidates : list nat) : option State :=
  match candidates with
  | [] => None
  | i :: candidates' =>
      match step_task σ i with
      | Some σ' => Some σ'
      | None => first_ready σ candidates'
      end
  end.

Definition is_returned (t : TaskState) : bool :=
  match t with Returned _ => true | _ => false end.

Fixpoint event_loop (fuel : nat) (σ : State) : res State :=
  match fuel with
  | O => OutOfFuel
  | S fuel' =>
      if forallb is_returned (tasks σ) then Ok σ
      else
        match first_ready σ (schedule σ) with
        | Some σ' => event_loop fuel' σ'
        | None => OutOfFuel
        end
  end.

(** The state when [gather] has scheduled one task per record. *)
Definition gather_init (value : nat) (n : nat) : State :=
  mkLoopState value [] (replicate n Created) [].

(** What [_check] returns for a record whose task has returned. *)
Definition check_result (record : Change) (t : TaskState)
    : option (string * (string * string)) :=
  match t, record with
  | Returned Spam, (locale, msgid, msgstr) => Some (locale, (msgid, msgstr))
  | _, _ => None
  end.

(** The loop [for r in results] that fills [by_locale]
    ([setdefault] and [append]). *)
Definition group_by_locale
    (results : list (option (string * (string * string))))
    : gmap string (list (string * string)) :=
  foldl (λ by_locale r,
           match r with
           | Some (locale, entry) =>
               <[locale := default [] (by_locale !! locale) ++ [entry]]>
                 by_locale
           | None => by_locale
           end)
        ∅ results.

(** [scan_diff_async] with its semaphore at [value]: the results of
    [gather], one per record and in the order of the records, and the
    dict it returns. [fuel] bounds the turns of the event loop. *)
Definition scan_diff_async (fuel : nat)
    (PatchSet : string → res (list PatchedFile)) (value : nat)
    (diff_text : string)
    : res (list (option (string * (string * string)))
           * gmap string (list (string * string))) :=
  changed ← parse_po_diff PatchSet diff_text;
  match changed with
  | [] => Ok ([], ∅)
  | _ =>
      σ ← event_loop fuel (gather_init value (length changed));
      let results := zip_with check_result changed (tasks σ) in
      Ok (results, group_by_locale results)
  end.

(** [run_diff_check_async]: [(total_checked, total_spam, spam_entries)];
    [concurrency] is what [get_concurrency] read. *)
Definition run_diff_check_async (fuel : nat)
    (PatchSet : string → res (list PatchedFile)) (concurrency : Z)
    (diff_text : string)
    : res (nat * nat * gmap string (list (string * string))) :=
  value ← new_semaphore concurrency;
  '(_, spam_by_locale) ← scan_diff_async fuel PatchSet value diff_text;
  let total_spam :=
    map_fold (λ _ v acc, length v + acc) 0 spam_by_locale in
  changed ← parse_po_diff PatchSet diff_text;
  Ok (length changed, total_spam, spam_by_locale).

End EventLoop.

(** ** The unescaping as the specification words it

    One pass from the left: at an escape sequence (a backslash and one of
    backslash, n, t, double quote) the literal character is produced and
    the pass goes on after the two characters; any other character is
    copied. *)
Inductive escape_pair : ascii → ascii → Prop :=
  | escape_backslash : escape_pair BACKSLASH BACKSLASH
  | escape_newline : escape_pair "n"%char LF
  | escape_tab : escape_pair "t"%char TAB
  | escape_quote : escape_pair DQUOTE DQUOTE.

Inductive one_pass : string → string → Prop :=
  | one_pass_end : one_pass "" ""
  | one_pass_escape c c' r t :
      escape_pair c c' → one_pass r t →
      one_pass (String BACKSLASH (String c r)) (String c' t)
  | one_pass_copy a r t :
      (∀ c c' r', escape_pair c c' → String a r ≠ String BACKSLASH (String c r')) →
      one_pass r t →
      one_pass (String a r) (String a t).

(** The key lines of a line sequence: the lines that open an entry. *)
Definition is_key_line (line : string) : bool := startswith line msgid_kw.
Definition is_value_line (line : string) : bool := startswith line msgstr_kw.
Definition key_lines (lines : list string) : list string :=
  List.filter is_key_line lines.

(** ** The diff extractor, loop by loop, as lists

    What each loop of [parse_po_diff] adds to [results]; the lemmas below
    prove that the loops compute these. *)

(** The pairs of a line sequence ([_extract_pairs_from_lines] never
    raises, see [pairs_of_Ok]). *)
Definition pairs_of (lines : list string) : list (string * string) :=
  match _extract_pairs_from_lines lines with
  | Ok pairs => pairs
  | _ => []
  end.

(** The entry [(msgid, msgstr)] of the post-image is a change against
    [old_lookup]: its value is not empty and is not the old value. *)
Definition is_change (old_lookup : gmap string string)
    (entry : string * string) : Prop :=
  entry.2 ≠ "" ∧ entry.2 ≠ lookup_get old_lookup entry.1.

#[global] Instance is_change_dec old_lookup entry :
  Decision (is_change old_lookup entry).
Proof. unfold is_change. apply _. Defined.

Definition hunk_changes (current_locale : string) (hunk : Hunk)
    : list Change :=
  let old_lookup := build_old_lookup (pairs_of (hunk_sides hunk).2) in
  (λ entry, (current_locale, entry.1, entry.2))
    <$> filter (is_change old_lookup) (pairs_of (hunk_sides hunk).1).

Definition file_changes (patched_file : PatchedFile) : list Change :=
  match re.search_locale (path patched_file) with
  | None => []
  | Some current_locale =>
      concat (hunk_changes current_locale <$> hunks patched_file)
  end.

Definition patch_changes (patch_set : list PatchedFile) : list Change :=
  concat (file_changes <$> patch_set).

(** ** A worked example: the diff of [test_new_translation_added] *)

(** The lines of a text, each with its newline. *)
Definition unlines (ls : list string) : string :=
  join ((λ l, l +:+ String LF "") <$> ls).

Definition wallet_diff : string :=
  unlines
    [ "diff --git a/locale/de_DE/electrum.po b/locale/de_DE/electrum.po";
      "--- a/locale/de_DE/electrum.po";
      "+++ b/locale/de_DE/electrum.po";
      "@@ -10,3 +10,3 @@";
      " #: electrum/gui/qt/main_window.py:100";
      " msgid " +:+ quoted "Wallet";
      "-msgstr " +:+ quoted "";
      "+msgstr " +:+ quoted "Geldbeutel" ].

(** What [unidiff] makes of it: one file, one hunk, four lines, each value
    the line without its first character and with its newline. *)
Definition wallet_patch_set : list PatchedFile :=
  [ mkPatchedFile "locale/de_DE/electrum.po"
      [ [ mkLine LINE_TYPE_CONTEXT
            (unlines ["#: electrum/gui/qt/main_window.py:100"]);
          mkLine LINE_TYPE_CONTEXT (unlines ["msgid " +:+ quoted "Wallet"]);
          mkLine LINE_TYPE_REMOVED (unlines ["msgstr " +:+ quoted ""]);
          mkLine LINE_TYPE_ADDED (unlines ["msgstr " +:+ quoted "Geldbeutel"])
        ] ] ].

(** A parser that knows this one diff. *)
Definition wallet_PatchSet (diff_text : string) : res (list PatchedFile) :=
  if String.eqb diff_text wallet_diff then Ok wallet_patch_set
  else Raise UnidiffParseError.

(** No value-marker line from line [j] up to the next key line or the end
    of the input: [e] is that key line or the end. *)
Definition no_value_before_next_key (lines : list string) (j : nat) : Prop :=
  ∃ e, j ≤ e ≤ length lines
       ∧ (e = length lines
          ∨ ∃ line, lines !! e = Some line ∧ is_key_line line = true)
       ∧ ∀ q line, j ≤ q < e → lines !! q = Some line →
                   is_value_line line = false.

(** [line.value.rstrip] of the newline: the content of a line of a hunk. *)
Definition content_of (line : Line) : string :=
  rstrip (Ascii.eqb LF) (value line).

(** ** The form of an eligible path, as the specification words it *)

Fixpoint no_slash (s : string) : bool :=
  match s with
  | EmptyString => true
  | String c r => negb (Ascii.eqb c SLASH) && no_slash r
  end.

(** [rest] starts with locale/, the segment [seg], /electrum.po, and the
    final o is at a word boundary; [seg] has no slash. *)
Definition locale_form_at (rest seg : string) : Prop :=
  ∃ post,
    rest = "locale/" +:+ seg +:+ "/electrum.po" +:+ post
    ∧ no_slash seg = true
    ∧ re.boundary_after_word post = true.

(** The path has the form somewhere, not only at its start. *)
Definition locale_form (file_path seg : string) : Prop :=
  ∃ pre rest, file_path = pre +:+ rest ∧ locale_form_at rest seg.

(** The leftmost place of the form with a segment that is not empty. *)
Definition leftmost_locale (file_path seg : string) : Prop :=
  ∃ pre rest,
    file_path = pre +:+ rest
    ∧ seg ≠ "" ∧ locale_form_at rest seg
    ∧ ∀ pre' rest' seg',
        file_path = pre' +:+ rest' → String.length pre' < String.length pre →
        seg' ≠ "" → ¬ locale_form_at rest' seg'.

(** ** Measures and invariants of the event loop *)

(** A task that owns a permit of the semaphore: woken, or inside
    [async with semaphore]. *)
Definition is_holder (t : TaskState) : bool :=
  match t with
  | Woken | Posting _ | Sleeping _ => true
  | _ => false
  end.

(** A task whose classifier invocation is outstanding: it is inside
    [async with semaphore], its request sent or about to be sent again. *)
Definition is_outstanding (t : TaskState) : bool :=
  match t with
  | Posting _ | Sleeping _ => true
  | _ => false
  end.

Definition count_tasks (P : TaskState → bool) (ts : list TaskState) : nat :=
  length (List.filter P ts).

(** The waiters of the deque whose future is pending, in the order of the
    deque. *)
Definition is_waiting (ts : list TaskState) (w : nat) : bool :=
  bool_decide (ts !! w = Some Waiting).
Definition pending (ts : list TaskState) (waiters : list nat) : list nat :=
  List.filter (is_waiting ts) waiters.

(** The tasks that were queued, and the tasks that were woken, each in the
    order of the log. *)
Definition queued_of {duration : Type} (l : list (Event duration))
    : list nat :=
  omap (λ e, match e with EvQueued i => Some i | _ => None end) l.
Definition woken_of {duration : Type} (l : list (Event duration))
    : list nat :=
  omap (λ e, match e with EvWoken i => Some i | _ => None end) l.

(** The requests and the sleeps of task [i] in a log. *)
Definition posts_of {duration : Type} (i : nat) (l : list (Event duration))
    : list nat :=
  omap (λ e, match e with
             | EvPost j k => if bool_decide (j = i) then Some k else None
             | _ => None
             end) l.
Definition sleeps_of {duration : Type} (i : nat) (l : list (Event duration))
    : list duration :=
  omap (λ e, match e with
             | EvSleep j d => if bool_decide (j = i) then Some d else None
             | _ => None
             end) l.

(** What holds of the semaphore and its queue in every state of a run with
    [K] permits and [n] records: the permits are the counter and the
    holders, the deque holds the tasks that wait or are woken, once each, and
    the tasks queued so far are the tasks woken so far followed by the
    pending waiters. *)
Record queue_inv {duration : Type} (K n : nat) (σ : LoopState duration)
    : Prop := mk_queue_inv {
  inv_length : length (tasks σ) = n;
  inv_permits : sem_value σ + count_tasks is_holder (tasks σ) = K;
  inv_nodup : NoDup (sem_waiters σ);
  inv_waiters :
    ∀ t, t ∈ sem_waiters σ
         ↔ tasks σ !! t = Some Waiting ∨ tasks σ !! t = Some Woken;
  inv_fifo :
    queued_of (log σ)
    = woken_of (log σ) ++ pending (tasks σ) (sem_waiters σ)
}.

(** A positive counter with a pending waiter is a passing state: some woken
    task has not resumed yet, and it will wake the waiter. *)
Definition wake_ready {duration : Type} (σ : LoopState duration) : Prop :=
  0 < sem_value σ → (∃ t, tasks σ !! t = Some Waiting) →
  ∃ t, tasks σ !! t = Some Woken.

Definition loop_inv {duration : Type} (K n : nat) (σ : LoopState duration)
    : Prop :=
  queue_inv K n σ ∧ wake_ready σ.

(** The classifier fails on the first [N i] requests for record [i] and
    succeeds on the next one. *)
Definition succeeds_after (classifier : nat → nat → Reply) (N : nat → nat)
    (i : nat) : Prop :=
  (∀ k, k < N i → ∃ e, try_body (classifier i k) = Raise e)
  ∧ ∃ response, try_body (classifier i (N i)) = Ok response.

(** The classification of record [i] then: that of the payload of request
    [N i]. *)
Definition verdict_of (classifier : nat → nat → Reply) (N : nat → nat)
    (i : nat) : Classification :=
  match try_body (classifier i (N i)) with
  | Ok response => classification_of response
  | _ => Spam
  end.

(** The turns that task [i] may still take. *)
Definition remaining (N : nat → nat) (i : nat) (t : TaskState) : nat :=
  match t with
  | Created => 2 * N i + 3
  | Waiting | Woken => 2 * N i + 2
  | Posting k => 2 * (N i - k) + 1
  | Sleeping k => 2 * (N i - k)
  | Returned _ => 0
  end.

Definition turns_left (N : nat → nat) (ts : list TaskState) : nat :=
  sum_list (imap (remaining N) ts).

(** What holds of the tasks when the classifier succeeds after [N]
    failures: the attempts stay within [N], a returned task has the verdict,
    and the log has the requests and sleeps of the attempts made. *)
Record retry_inv {duration : Type} (retry_delay : duration)
    (classifier : nat → nat → Reply) (N : nat → nat)
    (σ : LoopState duration) : Prop := mk_retry_inv {
  inv_task :
    ∀ i t, tasks σ !! i = Some t →
      match t with
      | Created | Waiting | Woken =>
          posts_of i (log σ) = [] ∧ sleeps_of i (log σ) = []
      | Posting k =>
          k ≤ N i ∧ posts_of i (log σ) = seq 0 (S k)
          ∧ sleeps_of i (log σ) = replicate k retry_delay
      | Sleeping k =>
          k < N i ∧ posts_of i (log σ) = seq 0 (S k)
          ∧ sleeps_of i (log σ) = replicate (S k) retry_delay
      | Returned c =>
          c = verdict_of classifier N i
          ∧ posts_of i (log σ) = seq 0 (S (N i))
          ∧ sleeps_of i (log σ) = replicate (N i) retry_delay
      end
}.

(** The turns of the tasks [turns], in this order, from the state [σ]:
    [None] when one of them cannot run. *)
Fixpoint run_turns {duration : Type} (retry_delay : duration)
    (classifier : nat → nat → Reply) (turns : list nat)
    (σ : LoopState duration) : option (LoopState duration) :=
  match turns with
  | [] => Some σ
  | i :: turns' =>
      σ' ← step_task retry_delay classifier σ i;
      run_turns retry_delay classifier turns' σ'
  end.

(** What a turn of a task does to the task: its state before and after,
    and the effects. *)
Inductive task_move {duration : Type} (retry_delay : duration)
    (classifier : nat → nat → Reply) (i : nat)
    : TaskState → TaskState → list (Event duration) → Prop :=
  | move_queue :
      task_move retry_delay classifier i Created Waiting [EvQueued i]
  | move_enter :
      task_move retry_delay classifier i Created (Posting 0) [EvPost i 0]
  | move_resume :
      task_move retry_delay classifier i Woken (Posting 0) [EvPost i 0]
  | move_return k response :
      try_body (classifier i k) = Ok response →
      task_move retry_delay classifier i (Posting k)
        (Returned (classification_of response)) []
  | move_fail k e :
      try_body (classifier i k) = Raise e →
      task_move retry_delay classifier i (Posting k) (Sleeping k)
        [EvSleep i retry_delay]
  | move_retry k :
      task_move retry_delay classifier i (Sleeping k) (Posting (k + 1))
        [EvPost i (k + 1)].

(** What a turn does to the waiter it wakes, if any. *)
Definition wake_tasks (w : option nat) (ts : list TaskState)
    : list TaskState :=
  match w with
  | Some j => <[j:=Woken]> ts
  | None => ts
  end.
Definition wake_events {duration : Type} (w : option nat)
    : list (Event duration) :=
  match w with
  | Some j => [EvWoken j]
  | None => []
  end.

(** ** A worked run: three records and one permit *)

(** A classifier that answers spam at once. *)
Definition spam_classifier (i k : nat) : Reply :=
  Response 200 (Some "spam").

(** Tasks 0, 1 and 2 start, then task 0 gets its reply: task 0 has
    returned, task 1 is woken and task 2 waits. *)
Definition three_records_state : LoopState unit :=
  Eval vm_compute in
    default (gather_init 1 3)
      (run_turns tt spam_classifier [0; 1; 2; 0] (gather_init 1 3)).

(** A task that can run: it neither waits on a pending future nor has
    returned. *)
Definition can_run (t : TaskState) : bool :=
  match t with
  | Created | Woken | Posting _ | Sleeping _ => true
  | Waiting | Returned _ => false
  end.

(** ** A worked run: the wallet diff, a classifier that fails once *)

(** The first request fails, the second is answered with Spam between
    blanks. *)
Definition flaky_classifier (i k : nat) : Reply :=
  match k with
  | 0 => RequestFailed
  | _ => Response 200 (Some " Spam ")
  end.

(** The tasks in the order of their numbers. *)
Definition in_order {duration : Type} (σ : LoopState duration) : list nat :=
  seq 0 (length (tasks σ)).

(** ** The quoted patterns, in words

    [no_newline g]: the dot matches every character of [g];
    [no_quote_on_line s]: no double quote before the first newline of [s],
    so a greedy group that ends before [s] cannot be longer. *)
Fixpoint no_newline (s : string) : bool :=
  match s with
  | EmptyString => true
  | String c r => re.dot c && no_newline r
  end.

Fixpoint no_quote_on_line (s : string) : bool :=
  match s with
  | EmptyString => true
  | String c r =>
      if re.dot c then negb (Ascii.eqb c DQUOTE) && no_quote_on_line r
      else true
  end.

Fixpoint no_quote (s : string) : bool :=
  match s with
  | EmptyString => true
  | String c r => negb (Ascii.eqb c DQUOTE) && no_quote r
  end.

(** ** PO strings as a PO file writes them

    The docstring of [_unescape_po]: PO files store string values with
    C-style escape sequences, a backslash followed by n, t, a double quote
    or a backslash, for a newline, a tab, a double quote and a backslash.
    [escape_po] writes a value that way; nothing in the source computes it,
    it is what the source reads. *)
Definition escape_char (c : ascii) : string :=
  if Ascii.eqb c BACKSLASH then String BACKSLASH (String BACKSLASH "")
  else if Ascii.eqb c LF then String BACKSLASH "n"
  else if Ascii.eqb c TAB then String BACKSLASH "t"
  else if Ascii.eqb c DQUOTE then String BACKSLASH dq
  else String c "".

Fixpoint escape_po (s : string) : string :=
  match s with
  | EmptyString => ""
  | String c r => escape_char c +:+ escape_po r
  end.

(** A value in chunks, the first on the keyword line and each of the
    others on a continuation line of its own; the chunks of an entry, key
    and value; the lines of a sequence of entries. *)
Definition po_value_lines (kw : string) (chunks : string * list string)
    : list string :=
  (kw +:+ escape_po chunks.1 +:+ dq)
  :: ((λ c, quoted (escape_po c)) <$> chunks.2).

Definition po_entry_lines
    (entry : (string * list string) * (string * list string)) : list string :=
  po_value_lines msgid_kw entry.1 ++ po_value_lines msgstr_kw entry.2.

Definition po_print
    (entries : list ((string * list string) * (string * list string)))
    : list string :=
  concat (po_entry_lines <$> entries).

(** The value that the chunks spell, and the pair of an entry. *)
Definition chunks_value (chunks : string * list string) : string :=
  join (chunks.1 :: chunks.2).

Definition entry_pair
    (entry : (string * list string) * (string * list string))
    : string * string :=
  (chunks_value entry.1, chunks_value entry.2).

(** The line after a value, if any, is not a continuation line. *)
Definition head_not_quoted (rest : list string) : Prop :=
  ∀ line, rest !! 0 = Some line → re.match_quoted_line line = None.

(** An escape sequence occurs in [s]: a backslash followed by a character
    of the class of [_PO_ESCAPE_RE]. *)
Definition has_escape (s : string) : Prop :=
  ∃ pre c post,
    s = pre +:+ String BACKSLASH (String c post) ∧ escape_class c = true.

(** ** Runs of the event loop: a schedule with contention, starvation,
    the entries of a locale *)

(** A schedule that first lets the tasks start, in order. *)
Definition starts_first {duration : Type} (σ : LoopState duration)
    : list nat :=
  filter (λ i, tasks σ !! i = Some Created) (in_order σ) ++ in_order σ.

(** The three records and one permit again, to the end: the state in which
    the event loop ends. *)
Definition three_records_done : LoopState unit :=
  Eval vm_compute in
    match event_loop tt spam_classifier starts_first 9 (gather_init 1 3) with
    | Ok σ => σ
    | _ => gather_init 1 3
    end.

(** What holds in every state of a run whose semaphore has no permit:
    the counter stays at zero, a task has not started or waits, and the log
    has only the events of tasks that queue. *)
Record starved {duration : Type} (σ : LoopState duration) : Prop :=
  mk_starved {
  starved_value : sem_value σ = 0;
  starved_tasks : ∀ i t, tasks σ !! i = Some t → t = Created ∨ t = Waiting;
  starved_log : ∀ e, e ∈ log σ → ∃ i, e = EvQueued i
}.

(** The spam entries of a locale among the results of [gather], in
    order. *)
Definition spam_of (locale : string)
    (results : list (option (string * (string * string))))
    : list (string * string) :=
  omap (λ r, match r with
             | Some (l, entry) =>
                 if bool_decide (l = locale) then Some entry else None
             | None => None
             end) results.

(** The spam entries of a locale as the records and their verdicts give
    them: the key and value of each record of the locale whose verdict is
    Spam, in the order of the records; [verdict i] is the verdict of
    record [i]. *)
Definition spam_records (verdict : nat → Classification) (locale : string)
    (changed : list Change) : list (string * string) :=
  omap (λ '(i, (l, msgid, msgstr)),
          if bool_decide (l = locale ∧ verdict i = Spam)
          then Some (msgid, msgstr) else None)
       (imap pair changed).

(** ** [parse_po_file] and [scan_po_file_async] *)

(** An entry of a PO file of the [polib] package, by the attributes the
    source reads. *)
Record POEntry : Set := mkPOEntry { msgid : string; msgstr : string }.

(** [parse_po_file]; [pofile] is the parser of the [polib] package, which
    may raise on a file that it cannot read. *)
Definition parse_po_file (pofile : string → res (list POEntry))
    (filepath : string) : res (list (string * string)) :=
  pofile filepath ≫= λ po : list POEntry,
  Ok ((λ entry, (msgid entry, msgstr entry))
        <$> filter (λ entry, msgid entry ≠ "") po).

(** The dict that [_check] returns for a spam entry of a file. *)
Record SpamEntry : Set := mkSpamEntry {
  locale : string;
  original_str : string;
  translation : string
}.

(** What [_check] of [scan_po_file_async] returns for an entry whose task
    has returned. *)
Definition check_file_result (locale_name : string)
    (entry : string * string) (t : TaskState) : option SpamEntry :=
  match t, entry with
  | Returned Spam, (mid, mst) => Some (mkSpamEntry locale_name mid mst)
  | _, _ => None
  end.

Section FileScan.

Context {duration : Type}.
Variable retry_delay : duration.
Variable classifier : nat → nat → Reply.
Variable schedule : LoopState duration → list nat.

(** [scan_po_file_async] with the counter of the shared semaphore at
    [value]: the spam entries in the order of the file, and the counter of
    the semaphore when [gather] has ended. *)
Definition scan_po_file_async (fuel : nat)
    (pofile : string → res (list POEntry)) (value : nat)
    (po_file locale_name : string) : res (list SpamEntry * nat) :=
  entries ← parse_po_file pofile po_file;
  let translated := filter (λ entry, entry.2 ≠ "") entries in
  σ ← event_loop retry_delay classifier schedule fuel
        (gather_init value (length translated));
  let results := zip_with (check_file_result locale_name) translated (tasks σ) in
  Ok (omap id results, sem_value σ).

End FileScan.

(** ** A worked scan: a PO file with a header, two translated entries and
    an untranslated one *)
Definition sample_po : list POEntry :=
  [ mkPOEntry "" "Content-Type: text/plain";
    mkPOEntry "Wallet" "Geldbeutel";
    mkPOEntry "Send" "";
    mkPOEntry "Receive" "Empfangen" ].

Definition sample_pofile (filepath : string) : res (list POEntry) :=
  if String.eqb filepath "locale/de_DE/electrum.po" then Ok sample_po
  else Raise ValueError.

(** The first entry sent is answered with Spam after one failure, the
    others with Genuine at once. *)
Definition mixed_classifier (i k : nat) : Reply :=
  match i with
  | 0 => flaky_classifier i k
  | _ => Response 200 (Some "Genuine")
  end.

(** ** The reports: [get_report_path], [report_exists],
    [write_locale_report] and [write_summary_report]

    The output directory is a finite map from the names of its files to
    their contents; it exists and holds files only. A report is kept as the
    dict that [json.dump] wrote and that [json.load] returns: a JSON object
    with the keys that the source writes, its entries being dicts with
    string values, each in the order of its keys. The texts of this layer
    are only copied, joined, compared and ordered. *)

(** [s.endswith(p)]: [p] is [s] or the end of what follows the first
    character of [s]. *)
Fixpoint endswith (s p : string) : bool :=
  String.eqb s p
  || match s with
     | EmptyString => false
     | String _ r => endswith r p
     end.

(** [s * n] *)
Fixpoint str_mul (s : string) (n : nat) : string :=
  match n with
  | O => ""
  | S n' => s +:+ str_mul s n'
  end.

(** The order of [sorted] on strings. *)
Definition str_le (s t : string) : Prop := Is_true (String.leb s t).

(** The dict of a spam entry, as [json.dump] writes it. *)
Definition entry_dict (entry : SpamEntry) : list (string * string) :=
  [ ("locale", locale entry);
    ("original_str", original_str entry);
    ("translation", translation entry) ].

Record Report : Set := mkReport {
  report_generated : string;
  report_locale : option string;
  report_total_spam : nat;
  report_entries : option (list (list (string * string)))
}.

Inductive File : Set :=
  | JsonFile (data : Report)
  | TextFile (content : string).

Abbreviation Directory := (gmap string File).

(** [get_report_path]: the name of the file in the output directory. *)
Definition get_report_path (locale_name : string) : string :=
  "vandalism_report_" +:+ locale_name +:+ ".json".

(** [report_exists] *)
Definition report_exists (output_dir : Directory) (locale_name : string)
    : bool :=
  bool_decide (is_Some (output_dir !! get_report_path locale_name)).

(** [write_locale_report]; [now] is what [datetime.now().isoformat()]
    gives. *)
Definition write_locale_report (now : string) (spam_entries : list SpamEntry)
    (output_dir : Directory) (locale_name : string) : Directory :=
  <[get_report_path locale_name :=
      JsonFile (mkReport now (Some locale_name) (length spam_entries)
                  (Some (entry_dict <$> spam_entries)))]> output_dir.

(** [output_path.glob] with the pattern of the reports, sorted: the files
    whose name starts with vandalism_report_ and ends with .json, in the
    order of their names. *)
Definition is_report_name (name : string) : bool :=
  match re.literal "vandalism_report_" name with
  | Some rest => endswith rest ".json"
  | None => false
  end.

Definition glob_reports (output_dir : Directory) : list (string * File) :=
  merge_sort (λ f g, str_le f.1 g.1)
    (filter (λ f, is_report_name f.1 = true) (map_to_list output_dir)).

(** [json.load(f)] and [data.get] of the entries, the empty list when
    the key is missing; a file that is not JSON raises [JSONDecodeError],
    which is a [ValueError]. *)
Definition load_entries (f : File) : res (list (list (string * string))) :=
  match f with
  | JsonFile data => Ok (default [] (report_entries data))
  | TextFile _ => Raise ValueError
  end.

(** The loop that groups the entries by locale. *)
Definition group_entries (all_entries : list (list (string * string)))
    : res (gmap string (list (list (string * string)))) :=
  for_each (λ by_locale entry,
              loc ← getitem entry "locale";
              Ok (<[loc := default [] (by_locale !! loc) ++ [entry]]>
                    by_locale))
    all_entries ∅.

(** What the loop over the entries of a locale writes. *)
Definition entry_text (text : string) (entry : list (string * string))
    : res string :=
  original ← getitem entry "original_str";
  translated ← getitem entry "translation";
  Ok (text +:+ "Original: " +:+ original +:+ String LF ""
        +:+ "Translation: " +:+ translated +:+ String LF ""
        +:+ String LF "").

(** What the loop over the sorted locales writes. *)
Definition locale_text
    (by_locale : gmap string (list (list (string * string))))
    (text : string) (loc : string) : res string :=
  let entries := default [] (by_locale !! loc) in
  for_each entry_text entries
    (text +:+ String LF "" +:+ str_mul "─" 40 +:+ String LF ""
       +:+ "LOCALE: " +:+ loc +:+ " (" +:+ pretty (length entries)
       +:+ " entries)" +:+ String LF ""
       +:+ str_mul "─" 40 +:+ String LF "" +:+ String LF "").

(** [write_summary_report]; [now_txt] and [now_json] are what the two
    calls of [datetime.now().isoformat()] give. *)
Definition write_summary_report (now_txt now_json : string)
    (output_dir : Directory) : res Directory :=
  all_entries ←
    for_each (λ all_entries report_file,
                entries ← load_entries report_file.2;
                Ok (all_entries ++ entries))
      (glob_reports output_dir) [];
  let header :=
    str_mul "=" 80 +:+ String LF ""
    +:+ "VANDALISM DETECTION SUMMARY REPORT" +:+ String LF ""
    +:+ "Generated: " +:+ now_txt +:+ String LF ""
    +:+ "Total spam entries detected: " +:+ pretty (length all_entries)
    +:+ String LF ""
    +:+ str_mul "=" 80 +:+ String LF "" +:+ String LF "" in
  by_locale ← group_entries all_entries;
  text ← for_each (locale_text by_locale)
            (merge_sort str_le (elements (dom by_locale))) header;
  Ok (<["vandalism_report_summary.json" :=
          JsonFile (mkReport now_json None (length all_entries)
                      (Some all_entries))]>
        (<["vandalism_report_summary.txt" := TextFile text]> output_dir)).

(** ** A worked output directory: the reports of two locales *)
Definition sample_dir : Directory :=
  write_locale_report "2026-01-02T00:00:00"
    [mkSpamEntry "fr_FR" "Send" "http://x.example"]
    (write_locale_report "2026-01-01T00:00:00"
       [mkSpamEntry "de_DE" "Wallet" "Geldbeutel";
        mkSpamEntry "de_DE" "Receive" "Kaufen Sie jetzt"] ∅ "de_DE")
    "fr_FR".

(** ** The summary text, section by section

    What a reader of vandalism_report_summary.txt sees for the entries
    [all_entries]: the head with the time and the number of the entries,
    then, locale after locale, a heading with the locale and the number of
    its entries, and the entries of the locale in the order they have in
    [all_entries], each with its original and its translation. *)
Definition entry_field (entry : list (string * string)) (key : string)
    : string :=
  match getitem entry key with
  | Ok v => v
  | _ => ""
  end.

Definition entry_locale (entry : list (string * string)) : option string :=
  match getitem entry "locale" with
  | Ok loc => Some loc
  | _ => None
  end.

Definition entries_of_locale (all_entries : list (list (string * string)))
    (loc : string) : list (list (string * string)) :=
  filter (λ entry, entry_locale entry = Some loc) all_entries.

Definition entry_section (entry : list (string * string)) : string :=
  "Original: " +:+ entry_field entry "original_str" +:+ String LF ""
  +:+ "Translation: " +:+ entry_field entry "translation" +:+ String LF ""
  +:+ String LF "".

Definition locale_heading (loc : string) (n : nat) : string :=
  String LF "" +:+ str_mul "─" 40 +:+ String LF ""
  +:+ "LOCALE: " +:+ loc +:+ " (" +:+ pretty n +:+ " entries)"
  +:+ String LF ""
  +:+ str_mul "─" 40 +:+ String LF "" +:+ String LF "".

Definition locale_section (all_entries : list (list (string * string)))
    (loc : string) : string :=
  locale_heading loc (length (entries_of_locale all_entries loc))
  +:+ join (entry_section <$> entries_of_locale all_entries loc).

Definition summary_head (now_txt : string) (n : nat) : string :=
  str_mul "=" 80 +:+ String LF ""
  +:+ "VANDALISM DETECTION SUMMARY REPORT" +:+ String LF ""
  +:+ "Generated: " +:+ now_txt +:+ String LF ""
  +:+ "Total spam entries detected: " +:+ pretty n +:+ String LF ""
  +:+ str_mul "=" 80 +:+ String LF "" +:+ String LF "".

Definition summary_text (now_txt : string)
    (all_entries : list (list (string * string))) (locales : list string)
    : string :=
  summary_head now_txt (length all_entries)
  +:+ join (locale_section all_entries <$> locales).

(** ** The reports, counted and well formed *)

(** The number of entries that a file adds to the summary. *)
Definition entries_count (f : File) : nat :=
  match f with
  | JsonFile data => length (default [] (report_entries data))
  | TextFile _ => 0
  end.

(** The entries of the report files of a directory, counted. *)
Definition reports_total (output_dir : Directory) : nat :=
  sum_list_with (λ f, entries_count f.2)
    (filter (λ f, is_report_name f.1 = true) (map_to_list output_dir)).

(** The entries that a report file holds. *)
Definition file_entries (f : string * File) : list (list (string * string)) :=
  match f.2 with
  | JsonFile data => default [] (report_entries data)
  | TextFile _ => []
  end.

Definition is_json (f : File) : Prop :=
  match f with JsonFile _ => True | TextFile _ => False end.

#[global] Instance is_json_dec (f : File) : Decision (is_json f).
Proof. destruct f; apply _. Defined.

(** The dict [entry] has the key [k]. *)
Definition has_key (entry : list (string * string)) (k : string) : Prop :=
  ∃ v, getitem entry k = Ok v.

(** The report files of a directory are JSON and their entries have the
    keys that [write_summary_report] reads. *)
Definition reports_well_formed (output_dir : Directory) : Prop :=
  ∀ name f, output_dir !! name = Some f → is_report_name name = true →
    is_json f
    ∧ ∀ entry, entry ∈ file_entries (name, f) →
        has_key entry "locale" ∧ has_key entry "original_str"
        ∧ has_key entry "translation".

(** ** [scan_locale_directory_async] *)

(** A PO file that [rglob] found, by what the source reads of it: the
    name of its directory and its path as a string. *)
Record PoFile : Set := mkPoFile { parent_name : string; po_path : string }.

(** The dict [stats]. *)
Record Stats : Set := mkStats {
  scanned : nat;
  skipped : nat;
  total_spam : nat
}.

(** The loop that fills the dict [locales]. *)
Definition group_po_files (po_files : list PoFile)
    : gmap string (list PoFile) :=
  foldl (λ locales po_file,
           let locale_name := parent_name po_file in
           <[locale_name := default [] (locales !! locale_name) ++ [po_file]]>
             locales)
        ∅ po_files.

Section DirectoryScan.

Context {duration : Type}.
Variable retry_delay : duration.
(** [classifier po_file i k]: the reply to request [k] for entry [i] of the
    file. *)
Variable classifier : string → nat → nat → Reply.
Variable schedule : LoopState duration → list nat.
Variable pofile : string → res (list POEntry).
(** [now locale_name]: what [datetime.now().isoformat()] gives when the
    report of the locale is written. *)
Variable now : string → string.

(** The loop over the files of a locale; the state is [locale_spam] and
    the counter of the shared semaphore. *)
Definition locale_files_body (fuel : nat) (locale_name : string)
    (state : list SpamEntry * nat) (po_file : PoFile)
    : res (list SpamEntry * nat) :=
  '(spam_entries, value) ←
    scan_po_file_async retry_delay (classifier (po_path po_file)) schedule
      fuel pofile state.2 (po_path po_file) locale_name;
  Ok (state.1 ++ spam_entries, value).

(** The loop over the sorted locales; the state is [stats], the output
    directory and the counter of the semaphore. *)
Definition locale_body (fuel : nat) (force : bool)
    (locales : gmap string (list PoFile))
    (state : Stats * Directory * nat) (locale_name : string)
    : res (Stats * Directory * nat) :=
  let '(stats, output_dir, value) := state in
  if negb force && report_exists output_dir locale_name then
    Ok (mkStats (scanned stats) (skipped stats + 1) (total_spam stats),
        output_dir, value)
  else
    '(locale_spam, value') ←
      for_each (locale_files_body fuel locale_name)
        (default [] (locales !! locale_name)) ([], value);
    Ok (mkStats (scanned stats + 1) (skipped stats)
          (total_spam stats + length locale_spam),
        write_locale_report (now locale_name) locale_spam output_dir
          locale_name,
        value').

(** [scan_locale_directory_async]; [po_files] is what
    [sorted(locale_path.rglob(...))] gives and [concurrency] what
    [get_concurrency] read. It returns [stats] and the output directory as
    it leaves it. *)
Definition scan_locale_directory_async (fuel : nat) (po_files : list PoFile)
    (concurrency : Z) (output_dir : Directory) (force : bool)
    : res (Stats * Directory) :=
  value ← new_semaphore concurrency;
  let locales := group_po_files po_files in
  '(stats, output_dir', _) ←
    for_each (locale_body fuel force locales)
      (merge_sort str_le (elements (dom locales)))
      (mkStats 0 0 0, output_dir, value);
  Ok (stats, output_dir').

End DirectoryScan.

(** The report of a locale is left as it is: it exists and the scan is
    not forced. *)
Definition is_skipped (force : bool) (output_dir : Directory)
    (locale_name : string) : bool :=
  negb force && report_exists output_dir locale_name.

(** The number of spam entries that the report of a locale states. *)
Definition written_total (output_dir : Directory) (locale_name : string)
    : nat :=
  match output_dir !! get_report_path locale_name with
  | Some (JsonFile data) => report_total_spam data
  | _ => 0
  end.

(** ** A worked output directory: two locale reports, the summary written
    once and written again *)
Definition sample_summary1 : Directory :=
  Eval vm_compute in
    match write_summary_report "2026-01-03T00:00:00" "2026-01-03T00:00:01"
            sample_dir with
    | Ok output_dir => output_dir
    | _ => ∅
    end.

Definition sample_summary2 : Directory :=
  Eval vm_compute in
    match write_summary_report "2026-01-04T00:00:00" "2026-01-04T00:00:01"
            sample_summary1 with
    | Ok output_dir => output_dir
    | _ => ∅
    end.

(** ** A worked scan of a locale directory: two locales, the report of
    one of them already there *)
Definition sample_po_files : list PoFile :=
  [ mkPoFile "de_DE" "locale/de_DE/electrum.po";
    mkPoFile "fr_FR" "locale/fr_FR/electrum.po" ].

Definition sample_reports : Directory :=
  write_locale_report "2026-01-02T00:00:00"
    [mkSpamEntry "fr_FR" "Send" "http://x.example"] ∅ "fr_FR".

Definition sample_now (locale_name : string) : string :=
  "2026-01-03T00:00:00".

Definition sample_scan : Stats * Directory :=
  Eval vm_compute in
    match scan_locale_directory_async tt (λ _, mixed_classifier) starts_first
            sample_pofile sample_now 9 sample_po_files 2 sample_reports false
    with
    | Ok result => result
    | _ => (mkStats 0 0 0, ∅)
    end.

(** The line sequence is empty or begins with a key line. *)
Definition head_is_key (lines : list string) : Prop :=
  ∀ line, lines !! 0 = Some line → startswith line msgid_kw = true.

(** ** The worked scan, run as [main] runs it, twice: the scan and the
    summary, and both again *)
Definition sample_run1 : Directory :=
  Eval vm_compute in
    match write_summary_report "2026-01-03T00:01:00" "2026-01-03T00:01:01"
            sample_scan.2 with
    | Ok output_dir => output_dir
    | _ => ∅
    end.

Definition sample_rescan : Stats * Directory :=
  Eval vm_compute in
    match scan_locale_directory_async tt (λ _, mixed_classifier) starts_first
            sample_pofile sample_now 9 sample_po_files 2 sample_run1 false
    with
    | Ok result => result
    | _ => (mkStats 0 0 0, ∅)
    end.

Definition sample_run2 : Directory :=
  Eval vm_compute in
    match write_summary_report "2026-01-04T00:01:00" "2026-01-04T00:01:01"
            sample_rescan.2 with
    | Ok output_dir => output_dir
    | _ => ∅
    end.

(** ** A worked example: a hunk that has a key twice

    Two entries with the key Send, told apart by a [msgctxt] line, which
    the scanner passes over, and between them a comment that changes:
    every line of both entries is a context line of the hunk. *)
Definition repeated_key_diff : string :=
  unlines
    [ "diff --git a/locale/de_DE/electrum.po b/locale/de_DE/electrum.po";
      "--- a/locale/de_DE/electrum.po";
      "+++ b/locale/de_DE/electrum.po";
      "@@ -10,7 +10,7 @@";
      " msgctxt " +:+ quoted "verb";
      " msgid " +:+ quoted "Send";
      " msgstr " +:+ quoted "Senden";
      "-#: electrum/gui/qt/send_tab.py:100";
      "+#: electrum/gui/qt/send_tab.py:120";
      " msgctxt " +:+ quoted "button";
      " msgid " +:+ quoted "Send";
      " msgstr " +:+ quoted "Abschicken" ].

Definition repeated_key_hunk : Hunk :=
  [ mkLine LINE_TYPE_CONTEXT (unlines ["msgctxt " +:+ quoted "verb"]);
    mkLine LINE_TYPE_CONTEXT (unlines ["msgid " +:+ quoted "Send"]);
    mkLine LINE_TYPE_CONTEXT (unlines ["msgstr " +:+ quoted "Senden"]);
    mkLine LINE_TYPE_REMOVED (unlines ["#: electrum/gui/qt/send_tab.py:100"]);
    mkLine LINE_TYPE_ADDED (unlines ["#: electrum/gui/qt/send_tab.py:120"]);
    mkLine LINE_TYPE_CONTEXT (unlines ["msgctxt " +:+ quoted "button"]);
    mkLine LINE_TYPE_CONTEXT (unlines ["msgid " +:+ quoted "Send"]);
    mkLine LINE_TYPE_CONTEXT (unlines ["msgstr " +:+ quoted "Abschicken"]) ].

(** A parser that knows this one diff. *)
Definition repeated_key_PatchSet (diff_text : string)
    : res (list PatchedFile) :=
  if String.eqb diff_text repeated_key_diff
  then Ok [mkPatchedFile "locale/de_DE/electrum.po" [repeated_key_hunk]]
  else Raise UnidiffParseError.

(** The value of the last entry with the key [msgid] among [pairs]. *)
Definition last_value (pairs : list (string * string)) (msgid : string)
    : option string :=
  last (omap (λ p, if bool_decide (p.1 = msgid) then Some p.2 else None)
          pairs).

(** * Properties *)

(** ** The result monad *)

Lemma bind_Ok {A B : Type} (m : res A) (f : A → res B) (b : B) :
  (m ≫= f) = Ok b ↔ ∃ a, m = Ok a ∧ f a = Ok b.
Proof.
  destruct m as [a| |]; simpl; split.
  - intros H. by exists a.
  - by intros (a' & [= ->] & H).
  - discriminate.
  - by intros (a' & [=] & _).
  - discriminate.
  - by intros (a' & [=] & _).
Qed.

Lemma index_Ok {A : Type} (l : list A) (i : nat) (x : A) :
  index l i = Ok x ↔ l !! i = Some x.
Proof. unfold index. destruct (l !! i); split; congruence. Qed.

Lemma index_lt {A : Type} (l : list A) (i : nat) :
  i < length l → ∃ x, l !! i = Some x ∧ index l i = Ok x.
Proof.
  intros Hi. destruct (lookup_lt_is_Some_2 l i Hi) as [x Hx].
  exists x. split; [done|]. by apply index_Ok.
Qed.

(** ** Strings *)

Lemma app_String (c : ascii) (s t : string) :
  String c s +:+ t = String c (s +:+ t).
Proof. reflexivity. Qed.

Lemma app_empty_l (s : string) : "" +:+ s = s.
Proof. reflexivity. Qed.

Lemma app_empty_r (s : string) : s +:+ "" = s.
Proof. induction s as [|c s IH]; [done|]. by rewrite app_String, IH. Qed.

Lemma app_assoc_str (s t u : string) : (s +:+ t) +:+ u = s +:+ (t +:+ u).
Proof. induction s as [|c s IH]; [done|]. by rewrite !app_String, IH. Qed.

Lemma string_eqb_true (s t : string) : String.eqb s t = true ↔ s = t.
Proof. apply String.eqb_eq. Qed.

Lemma string_eqb_false (s t : string) : String.eqb s t = false ↔ s ≠ t.
Proof. apply String.eqb_neq. Qed.

Lemma startswith_spec (s p : string) :
  startswith s p = true ↔ ∃ r, s = p +:+ r.
Proof.
  revert s. induction p as [|a p IH]; intros s; simpl.
  - split; [intros _; by exists s|done].
  - destruct s as [|b s].
    + split; [done|]. by intros (r & [=]).
    + rewrite andb_true_iff, Ascii.eqb_eq, IH. split.
      * intros (-> & r & ->). by exists r.
      * intros (r & [= -> ->]). eauto.
Qed.

Arguments startswith : simpl never.

(** ** [_unescape_po] is the one pass of the specification *)

Lemma escape_class_spec (c : ascii) :
  escape_class c = true ↔ ∃ c', escape_pair c c'.
Proof.
  unfold escape_class. rewrite !orb_true_iff, !Ascii.eqb_eq. split.
  - intros [[[-> | ->] | ->] | ->]; eexists; constructor.
  - intros (c' & H). destruct H; auto.
Qed.

Lemma getitem_escape (c c' : ascii) :
  escape_pair c c' →
  getitem _PO_ESCAPES (String BACKSLASH (String c "")) = Ok (String c' "").
Proof. by destruct 1. Qed.

Lemma escape_pair_fun (c c1 c2 : ascii) :
  escape_pair c c1 → escape_pair c c2 → c1 = c2.
Proof. destruct 1; inversion 1; done. Qed.

Lemma _unescape_po_one_pass_len (n : nat) (s : string) :
  String.length s ≤ n → ∃ t, _unescape_po s = Ok t ∧ one_pass s t.
Proof.
  revert s. induction n as [|n IH]; intros s Hn.
  - destruct s; [|simpl in Hn; lia]. exists "". split; [done|constructor].
  - destruct s as [|a [|c r]].
    + exists "". split; [done|constructor].
    + exists (String a ""). split; [done|].
      apply one_pass_copy; [|constructor]. by intros c c' r' _ [=].
    + simpl in Hn.
      destruct (Ascii.eqb a BACKSLASH && escape_class c) eqn:E.
      * apply andb_true_iff in E as [Ea Ec]. apply Ascii.eqb_eq in Ea as ->.
        apply escape_class_spec in Ec as [c' Hc].
        destruct (IH r) as (t & Ht & Hp); [lia|].
        exists (String c' t). split; [|by constructor].
        change (_unescape_po (String BACKSLASH (String c r))) with
          (if Ascii.eqb BACKSLASH BACKSLASH && escape_class c then
             getitem _PO_ESCAPES (String BACKSLASH (String c "")) ≫= λ v,
             _unescape_po r ≫= λ t, Ok (v +:+ t)
           else _unescape_po (String c r) ≫= λ t, Ok (String BACKSLASH t)).
        rewrite (proj2 (escape_class_spec c)) by eauto.
        rewrite (getitem_escape c c' Hc), Ht. done.
      * destruct (IH (String c r)) as (t & Ht & Hp); [simpl; lia|].
        exists (String a t). split.
        -- change (_unescape_po (String a (String c r))) with
             (if Ascii.eqb a BACKSLASH && escape_class c then
                getitem _PO_ESCAPES (String a (String c "")) ≫= λ v,
                _unescape_po r ≫= λ t, Ok (v +:+ t)
              else _unescape_po (String c r) ≫= λ t, Ok (String a t)).
           by rewrite E, Ht.
        -- apply one_pass_copy; [|done].
           intros c0 c0' r' Hc0 [= -> -> ->].
           rewrite (proj2 (escape_class_spec c0)) in E by eauto.
           by rewrite Ascii.eqb_refl in E.
Qed.

Lemma _unescape_po_one_pass (s : string) :
  ∃ t, _unescape_po s = Ok t ∧ one_pass s t.
Proof. by apply (_unescape_po_one_pass_len (String.length s)). Qed.

Lemma one_pass_fun (s t1 t2 : string) :
  one_pass s t1 → one_pass s t2 → t1 = t2.
Proof.
  intros H1. revert t2.
  induction H1 as [|c c' r t Hc H1 IH|a r t Hn H1 IH]; intros t2 H2.
  - by inversion H2.
  - inversion H2 as [|c0 c0' r0 t0 Hc0 H0|a0 r0 t0 Hn0 H0]; subst.
    + f_equal; [by eapply escape_pair_fun|by apply IH].
    + by destruct (Hn0 c c' r Hc).
  - inversion H2 as [|c0 c0' r0 t0 Hc0 H0|a0 r0 t0 Hn0 H0]; subst.
    + by destruct (Hn c0 c0' r0 Hc0).
    + f_equal. by apply IH.
Qed.

(** C6. [_unescape_po] never raises and computes exactly the one
    left-to-right pass that replaces the four escape sequences
    (backslash-backslash, backslash-n, backslash-t, backslash-quote) by
    backslash, newline, tab and double quote; an escaped backslash followed
    by the letter n gives a backslash and the letter n, not a newline. *)
Theorem unescape_po_single_pass :
  (∀ s t : string, _unescape_po s = Ok t ↔ one_pass s t)
  ∧ _unescape_po (String BACKSLASH (String BACKSLASH "n"))
    = Ok (String BACKSLASH "n")
  ∧ _unescape_po (String BACKSLASH (String BACKSLASH "n"))
    ≠ Ok (String BACKSLASH (String LF "")).
Proof.
  split; [|split; [reflexivity|discriminate]].
  intros s t. destruct (_unescape_po_one_pass s) as (t' & Ht & Hp). split.
  - intros H. rewrite Ht in H. by injection H as <-.
  - intros H. by rewrite (one_pass_fun _ _ _ H Hp).
Qed.

(** ** The quoted patterns match what their words say *)

Lemma greedy_to_quote_None (r : string) :
  re.greedy_to_quote r = None → no_quote_on_line r = true.
Proof.
  induction r as [|c r IH]; [done|]. simpl.
  destruct (re.dot c); [|done].
  destruct (re.greedy_to_quote r); [done|].
  destruct (Ascii.eqb c DQUOTE); [done|]. intros _. by rewrite IH.
Qed.

Lemma quote_on_line (g post : string) :
  no_newline g = true → no_quote_on_line (g +:+ dq +:+ post) = false.
Proof.
  induction g as [|c g IH]; [done|]. simpl. rewrite ?app_String. simpl.
  intros [Hc Hg]%andb_true_iff. rewrite Hc, (IH Hg). apply andb_false_r.
Qed.

Lemma greedy_to_quote_spec (r g : string) :
  re.greedy_to_quote r = Some g
  ↔ ∃ post, r = g +:+ dq +:+ post
            ∧ no_newline g = true ∧ no_quote_on_line post = true.
Proof.
  revert g. induction r as [|c r IH]; intros g.
  - split; [done|]. intros (post & H & _). by destruct g.
  - simpl. destruct (re.dot c) eqn:Hdot.
    + destruct (re.greedy_to_quote r) as [g'|] eqn:Hg.
      * destruct (proj1 (IH g') eq_refl) as (post' & -> & Hn' & Hq').
        split.
        -- intros [= <-]. exists post'. simpl. by rewrite Hdot, Hn'.
        -- intros (post & H & Hn & Hq). destruct g as [|c0 g0].
           ++ injection H as -> H.
              change (g' +:+ dq +:+ post' = post) in H. subst post.
              by rewrite quote_on_line in Hq.
           ++ cbn in H. injection H as <- H. simpl in Hn.
              apply andb_true_iff in Hn as [_ Hn].
              assert (Some g' = Some g0) as [= ->]; [|done].
              apply IH. exists post. by rewrite H.
      * destruct (Ascii.eqb c DQUOTE) eqn:Hc.
        -- apply Ascii.eqb_eq in Hc as ->. split.
           ++ intros [= <-]. exists r. split; [done|]. split; [done|].
              by apply greedy_to_quote_None.
           ++ intros (post & H & Hn & Hq). destruct g as [|c0 g0]; [done|].
              cbn in H. injection H as <- ->. simpl in Hn.
              assert (None = Some g0) as H'; [|done].
              apply IH. by exists post.
        -- split; [done|]. intros (post & H & Hn & Hq).
           destruct g as [|c0 g0].
           ++ cbn in H. injection H as -> _.
              by rewrite Ascii.eqb_refl in Hc.
           ++ cbn in H. injection H as <- ->. simpl in Hn.
              apply andb_true_iff in Hn as [_ Hn].
              assert (None = Some g0) as H'; [|done].
              apply IH. by exists post.
    + split; [done|]. intros (post & H & Hn & Hq). destruct g as [|c0 g0].
      * cbn in H. by injection H as -> _.
      * cbn in H. injection H as <- _. simpl in Hn.
        by rewrite Hdot in Hn.
Qed.

(** What [re.search] finds is a quoted group of the line, greedy. *)
Lemma search_quoted_sound (s g : string) :
  re.search_quoted s = Some g →
  ∃ pre post,
    s = pre +:+ dq +:+ g +:+ dq +:+ post
    ∧ no_newline g = true ∧ no_quote_on_line post = true.
Proof.
  induction s as [|c s IH]; [done|]. simpl.
  assert (re.search_quoted s = Some g →
          ∃ pre post, String c s = pre +:+ dq +:+ g +:+ dq +:+ post
                      ∧ no_newline g = true ∧ no_quote_on_line post = true)
    as Hrec.
  { intros H. destruct (IH H) as (pre & post & -> & Hn & Hq).
    by exists (String c pre), post. }
  destruct (Ascii.eqb c DQUOTE) eqn:Hc; [|done].
  destruct (re.greedy_to_quote s) as [g'|] eqn:Hg; [|done].
  intros [= ->]. apply Ascii.eqb_eq in Hc as ->.
  apply greedy_to_quote_spec in Hg as (post & -> & Hn & Hq).
  by exists "", post.
Qed.

(** On a line whose first quote opens the group, that group is found. *)
Lemma search_quoted_first_quote (pre g post : string) :
  no_quote pre = true → no_newline g = true →
  no_quote_on_line post = true →
  re.search_quoted (pre +:+ dq +:+ g +:+ dq +:+ post) = Some g.
Proof.
  intros Hpre Hg Hpost. induction pre as [|c pre IH].
  - rewrite app_empty_l. simpl.
    by rewrite (proj2 (greedy_to_quote_spec _ g)) by eauto.
  - simpl in Hpre. apply andb_true_iff in Hpre as [Hc Hpre].
    rewrite app_String. simpl. apply negb_true_iff in Hc. rewrite Hc.
    by apply IH.
Qed.

Lemma greedy_to_quote_eol_spec (r g : string) :
  re.greedy_to_quote_eol r = Some g
  ↔ no_newline g = true
    ∧ (r = g +:+ dq ∨ r = g +:+ dq +:+ String LF "").
Proof.
  revert g. induction r as [|c r IH]; intros g.
  - split; [done|]. intros [_ [H|H]]; by destruct g.
  - simpl. destruct (re.dot c) eqn:Hdot.
    + destruct (re.greedy_to_quote_eol r) as [g'|] eqn:Hg.
      * destruct (proj1 (IH g') eq_refl) as (Hn' & Hr'). split.
        -- intros [= <-]. simpl. rewrite Hdot, Hn'. split; [done|].
           destruct Hr' as [->| ->]; [by left|by right].
        -- intros (Hn & Hr). destruct g as [|c0 g0].
           ++ exfalso. destruct Hr as [H|H]; cbn in H;
                injection H as -> ->; by destruct Hr' as [H'|H'], g'.
           ++ simpl in Hn. apply andb_true_iff in Hn as [_ Hn].
              assert (Some g' = Some g0) as [= ->].
              { apply IH. split; [done|].
                destruct Hr as [H|H]; cbn in H;
                  injection H as _ ->; [by left|by right]. }
              destruct Hr as [H|H]; cbn in H;
                by injection H as ->.
      * destruct (Ascii.eqb c DQUOTE
                  && (String.eqb r "" || String.eqb r (String LF ""))) eqn:Hc.
        -- apply andb_true_iff in Hc as [Hc Hr].
           apply Ascii.eqb_eq in Hc as ->. apply orb_true_iff in Hr.
           split.
           ++ intros [= <-]. split; [done|].
              destruct Hr as [->%string_eqb_true| ->%string_eqb_true];
                [by left|by right].
           ++ intros (Hn & Hr'). destruct g as [|c0 g0]; [done|]. exfalso.
              simpl in Hn. apply andb_true_iff in Hn as [_ Hn].
              assert (None = Some g0) as H'; [|done].
              apply IH. split; [done|].
              destruct Hr' as [H|H]; cbn in H;
                injection H as _ ->; [by left|by right].
        -- split; [done|]. intros (Hn & Hr). exfalso.
           destruct g as [|c0 g0].
           ++ destruct Hr as [H|H]; cbn in H;
                injection H as -> ->; simpl in Hc; done.
           ++ simpl in Hn. apply andb_true_iff in Hn as [_ Hn].
              assert (None = Some g0) as H'; [|done].
              apply IH. split; [done|].
              destruct Hr as [H|H]; cbn in H;
                injection H as _ ->; [by left|by right].
    + split; [done|]. intros (Hn & Hr). exfalso. destruct g as [|c0 g0].
      * destruct Hr as [H|H]; cbn in H; by injection H as ->.
      * simpl in Hn. destruct Hr as [H|H]; cbn in H;
          injection H as <- _; by rewrite Hdot in Hn.
Qed.

(** A continuation line is a quoted group with no newline in it, alone on
    its line, a final newline apart. *)
Lemma match_quoted_line_spec (s g : string) :
  re.match_quoted_line s = Some g
  ↔ no_newline g = true
    ∧ (s = dq +:+ g +:+ dq ∨ s = dq +:+ g +:+ dq +:+ String LF "").
Proof.
  destruct s as [|c r].
  - split; [done|]. by intros [_ [H|H]].
  - unfold re.match_quoted_line. destruct (Ascii.eqb c DQUOTE) eqn:Hc.
    + apply Ascii.eqb_eq in Hc as ->. rewrite greedy_to_quote_eol_spec.
      split; intros [Hn [H|H]]; (split; [done|]).
      * left. by rewrite H.
      * right. by rewrite H.
      * left. by injection H as ->.
      * right. by injection H as ->.
    + apply Ascii.eqb_neq in Hc. split; [done|].
      intros [_ [H|H]]; injection H as -> _; done.
Qed.

(** ** The scanner: the loops end, in range, without raising *)

Lemma quoted_line_not_keyword (line : string) :
  is_Some (re.match_quoted_line line) →
  startswith line msgid_kw = false ∧ startswith line msgstr_kw = false.
Proof.
  intros [g Hg]. destruct line as [|c r]; [done|].
  unfold re.match_quoted_line in Hg.
  destruct (Ascii.eqb c DQUOTE) eqn:E; [|done].
  apply Ascii.eqb_eq in E as ->. done.
Qed.

Lemma msgstr_line_not_msgid (line : string) :
  startswith line msgstr_kw = true → startswith line msgid_kw = false.
Proof.
  intros H. apply startswith_spec in H as [r ->]. done.
Qed.

Lemma continuation_loop_Ok (fuel : nat) (lines parts : list string) (i : nat) :
  i ≤ length lines → length lines - i < fuel →
  ∃ parts' j,
    continuation_loop fuel lines parts i = Ok (parts', j)
    ∧ i ≤ j ≤ length lines
    ∧ (∀ q line, i ≤ q < j → lines !! q = Some line →
         is_Some (re.match_quoted_line line))
    ∧ (∀ line, lines !! j = Some line → re.match_quoted_line line = None).
Proof.
  revert parts i. induction fuel as [|fuel IH]; intros parts i Hi Hf; [lia|].
  simpl. case_bool_decide as Hlt.
  - destruct (index_lt lines i Hlt) as (line & Hl & Hx). rewrite Hx. simpl.
    destruct (re.match_quoted_line line) as [g|] eqn:E.
    + destruct (IH (parts ++ [g]) (i + 1)) as (parts' & j & Hr & Hj & Hq & Hn);
        [lia..|].
      exists parts', j. split; [done|]. split; [lia|]. split; [|done].
      intros q l Hq' Hl'. destruct (decide (q = i)) as [->|Hne].
      * rewrite Hl in Hl'. injection Hl' as <-. by rewrite E.
      * apply (Hq q); [lia|done].
    + exists parts, i. split; [done|]. split; [lia|]. split; [intros; lia|].
      intros l Hl'. rewrite Hl in Hl'. by injection Hl' as <-.
  - exists parts, i. split; [done|]. split; [lia|]. split; [intros; lia|].
    intros l Hl'. apply lookup_lt_Some in Hl'. lia.
Qed.

Lemma skip_loop_Ok (fuel : nat) (lines : list string) (i : nat) :
  i ≤ length lines → length lines - i < fuel →
  ∃ j,
    skip_loop fuel lines i = Ok j
    ∧ i ≤ j ≤ length lines
    ∧ (∀ q line, i ≤ q < j → lines !! q = Some line →
         startswith line msgstr_kw = false ∧ startswith line msgid_kw = false)
    ∧ (∀ line, lines !! j = Some line →
         startswith line msgstr_kw = true ∨ startswith line msgid_kw = true).
Proof.
  revert i. induction fuel as [|fuel IH]; intros i Hi Hf; [lia|].
  simpl. case_bool_decide as Hlt.
  - destruct (index_lt lines i Hlt) as (line & Hl & Hx). rewrite Hx. simpl.
    destruct (startswith line msgstr_kw) eqn:E1; simpl.
    + exists i. split; [done|]. split; [lia|]. split; [intros; lia|].
      intros l Hl'. rewrite Hl in Hl'. injection Hl' as <-. by left.
    + destruct (startswith line msgid_kw) eqn:E2; simpl.
      * exists i. split; [done|]. split; [lia|]. split; [intros; lia|].
        intros l Hl'. rewrite Hl in Hl'. injection Hl' as <-. by right.
      * destruct (IH (i + 1)) as (j & Hr & Hj & Hq & Hn); [lia..|].
        exists j. split; [done|]. split; [lia|]. split; [|done].
        intros q l Hq' Hl'. destruct (decide (q = i)) as [->|Hne].
        -- rewrite Hl in Hl'. by injection Hl' as <-.
        -- apply (Hq q); [lia|done].
  - exists i. split; [done|]. split; [lia|]. split; [intros; lia|].
    intros l Hl'. apply lookup_lt_Some in Hl'. lia.
Qed.

Lemma _extract_po_string_lines_Ok (lines : list string) (start : nat) :
  start < length lines →
  ∃ v j,
    _extract_po_string_lines lines start = Ok (v, j)
    ∧ start < j ≤ length lines
    ∧ (∀ q line, start < q < j → lines !! q = Some line →
         is_Some (re.match_quoted_line line)).
Proof.
  intros Hs. unfold _extract_po_string_lines.
  destruct (index_lt lines start Hs) as (line & Hl & Hx). rewrite Hx. res_simpl.
  destruct (re.search_quoted line) as [g|].
  - destruct (continuation_loop_Ok (length lines) lines [g] (start + 1))
      as (parts & j & Hr & Hj & Hq & _); [lia..|].
    rewrite Hr. res_simpl.
    destruct (_unescape_po_one_pass (join parts)) as (v & Hv & _).
    rewrite Hv. res_simpl. exists v, j. split; [done|]. split; [lia|].
    intros q l Hq' Hl'. apply (Hq q); [lia|done].
  - exists "", (start + 1). split; [done|]. split; [lia|]. intros; lia.
Qed.

Lemma line_startswith_Ok (lines : list string) (i : nat) (kw : string) :
  ∃ b : bool,
    line_startswith lines i kw = Ok b
    ∧ (b = true ↔ ∃ line, lines !! i = Some line ∧ startswith line kw = true).
Proof.
  unfold line_startswith. case_bool_decide as Hlt.
  - destruct (index_lt lines i Hlt) as (line & Hl & Hx). rewrite Hx. res_simpl.
    eexists. split; [done|]. split.
    + intros H. by exists line.
    + intros (l & Hl' & H). rewrite Hl in Hl'. by injection Hl' as <-.
  - exists false. split; [done|]. split; [done|].
    intros (l & Hl' & _). apply lookup_lt_Some in Hl'. lia.
Qed.

Lemma extract_msgstr_Ok (lines : list string) (i : nat) :
  i ≤ length lines →
  ∃ v j,
    extract_msgstr lines i = Ok (v, j)
    ∧ i ≤ j ≤ length lines
    ∧ (∀ q line, i ≤ q < j → lines !! q = Some line →
         startswith line msgid_kw = false).
Proof.
  intros Hi. unfold extract_msgstr.
  destruct (line_startswith_Ok lines i msgstr_kw) as (b & Hb & Hbt).
  rewrite Hb. res_simpl. destruct b.
  - destruct (proj1 Hbt eq_refl) as (line & Hl & Hkw).
    pose proof (lookup_lt_Some _ _ _ Hl) as Hlt.
    destruct (_extract_po_string_lines_Ok lines i Hlt) as (v & j & Hr & Hj & Hq).
    exists v, j. split; [done|]. split; [lia|].
    intros q l Hq' Hl'. destruct (decide (q = i)) as [->|Hne].
    + rewrite Hl in Hl'. injection Hl' as <-. by apply msgstr_line_not_msgid.
    + apply quoted_line_not_keyword. apply (Hq q); [lia|done].
  - destruct (skip_loop_Ok (S (length lines)) lines i) as (i' & Hr & Hi' & Hq & _);
      [lia..|].
    rewrite Hr. res_simpl.
    destruct (line_startswith_Ok lines i' msgstr_kw) as (b' & Hb' & Hbt').
    rewrite Hb'. res_simpl. destruct b'.
    + destruct (proj1 Hbt' eq_refl) as (line & Hl & Hkw).
      pose proof (lookup_lt_Some _ _ _ Hl) as Hlt.
      destruct (_extract_po_string_lines_Ok lines i' Hlt)
        as (v & j & Hr' & Hj & Hq2).
      exists v, j. split; [done|]. split; [lia|].
      intros q l Hq' Hl'. destruct (decide (q < i')) as [Hlt'|Hge].
      * apply (Hq q); [lia|done].
      * destruct (decide (q = i')) as [->|Hne].
        -- rewrite Hl in Hl'. injection Hl' as <-.
           by apply msgstr_line_not_msgid.
        -- apply quoted_line_not_keyword. apply (Hq2 q); [lia|done].
    + exists "", i'. split; [done|]. split; [lia|].
      intros q l Hq' Hl'. apply (Hq q); [lia|done].
Qed.

Lemma key_lines_drop_le (lines : list string) (n : nat) :
  length (key_lines (drop n lines)) ≤ length (key_lines lines).
Proof.
  revert n. induction lines as [|l lines IH]; intros [|n]; simpl; try lia.
  specialize (IH n). unfold key_lines in *. destruct (is_key_line l); simpl; lia.
Qed.

Lemma key_lines_drop_mono (lines : list string) (i j : nat) :
  i ≤ j →
  length (key_lines (drop j lines)) ≤ length (key_lines (drop i lines)).
Proof.
  intros Hij. replace j with (i + (j - i)) by lia. rewrite <- drop_drop.
  apply key_lines_drop_le.
Qed.

Lemma key_lines_drop_key (lines : list string) (i : nat) (line : string) :
  lines !! i = Some line → is_key_line line = true →
  length (key_lines (drop i lines)) = S (length (key_lines (drop (S i) lines))).
Proof.
  intros Hl Hk. rewrite (drop_S _ _ _ Hl). unfold key_lines. simpl.
  by rewrite Hk.
Qed.

Lemma pairs_loop_Ok (fuel : nat) (lines : list string)
    (pairs : list (string * string)) (i : nat) :
  i ≤ length lines → length lines - i < fuel →
  ∃ new,
    pairs_loop fuel lines pairs i = Ok (pairs ++ new)
    ∧ Forall (λ p, p.1 ≠ "") new
    ∧ length new ≤ length (key_lines (drop i lines)).
Proof.
  revert pairs i. induction fuel as [|fuel IH]; intros pairs i Hi Hf; [lia|].
  simpl. case_bool_decide as Hlt.
  - destruct (index_lt lines i Hlt) as (line & Hl & Hx). rewrite Hx. res_simpl.
    destruct (startswith line msgid_kw) eqn:Hk.
    + destruct (_extract_po_string_lines_Ok lines i Hlt)
        as (msgid & i1 & Hr1 & Hi1 & _).
      rewrite Hr1. res_simpl.
      destruct (extract_msgstr_Ok lines i1) as (msgstr & i2 & Hr2 & Hi2 & _);
        [lia|].
      rewrite Hr2. res_simpl.
      pose proof (key_lines_drop_key lines i line Hl Hk) as Hc.
      pose proof (key_lines_drop_mono lines (S i) i2 ltac:(lia)) as Hm.
      destruct (String.eqb msgid "") eqn:He.
      * destruct (IH pairs i2) as (new & Hr & Hall & Hlen); [lia..|].
        exists new. split; [done|]. split; [done|]. lia.
      * destruct (IH (pairs ++ [(msgid, msgstr)]) i2) as (new & Hr & Hall & Hlen);
          [lia..|].
        exists ((msgid, msgstr) :: new). split.
        -- rewrite Hr. by rewrite <- app_assoc.
        -- split; [|simpl; lia]. constructor; [|done].
           simpl. by apply string_eqb_false.
    + destruct (IH pairs (i + 1)) as (new & Hr & Hall & Hlen); [lia..|].
      exists new. split; [done|]. split; [done|].
      pose proof (key_lines_drop_mono lines i (i + 1) ltac:(lia)). lia.
  - exists []. split; [by rewrite app_nil_r|]. split; [constructor|simpl; lia].
Qed.

(** C8. The scanner never raises and always returns: for every finite
    sequence of strings [_extract_pairs_from_lines] returns a list, with at
    most one pair per key line, so malformed or truncated input gives fewer
    or no pairs and never an error; and [_extract_po_string_lines] at an
    index in range returns a value and a next index, which lies after the
    start and within the sequence. *)
Theorem scanner_never_raises :
  (∀ lines : list string,
     ∃ pairs, _extract_pairs_from_lines lines = Ok pairs
              ∧ length pairs ≤ length (key_lines lines))
  ∧ (∀ (lines : list string) (start : nat),
       start < length lines →
       ∃ v next, _extract_po_string_lines lines start = Ok (v, next)
                 ∧ start < next ≤ length lines).
Proof.
  split.
  - intros lines.
    destruct (pairs_loop_Ok (S (length lines)) lines [] 0)
      as (new & Hr & _ & Hlen); [lia..|].
    exists new. split; [done|]. by rewrite drop_0 in Hlen.
  - intros lines start Hs.
    destruct (_extract_po_string_lines_Ok lines start Hs) as (v & j & Hr & Hj & _).
    by exists v, j.
Qed.

Lemma scanner_never_raises_witness :
  ∃ v next,
    _extract_po_string_lines
      [msgstr_kw +:+ dq; quoted "First "; quoted "Second"; ""] 0
    = Ok (v, next)
    ∧ 0 < next ≤ 4.
Proof.
  apply (proj2 scanner_never_raises
           [msgstr_kw +:+ dq; quoted "First "; quoted "Second"; ""] 0).
  simpl. lia.
Defined.

(** ** The offline tests of the repository

    The cases of [TestUnescapePo], [TestExtractPoStringLines] and
    [TestExtractPairsFromLines] of [test_llm_proofreader.py], run on the
    model. *)

Example test_newline :
  _unescape_po ("hello" +:+ String BACKSLASH "nworld")
  = Ok ("hello" +:+ String LF "world").
Proof. reflexivity. Qed.

Example test_tab :
  _unescape_po ("hello" +:+ String BACKSLASH "tworld")
  = Ok ("hello" +:+ String TAB "world").
Proof. reflexivity. Qed.

Example test_quote :
  _unescape_po
    ("say " +:+ String BACKSLASH dq +:+ "hello" +:+ String BACKSLASH dq)
  = Ok ("say " +:+ quoted "hello").
Proof. reflexivity. Qed.

Example test_backslash :
  _unescape_po ("path" +:+ String BACKSLASH (String BACKSLASH "file"))
  = Ok ("path" +:+ String BACKSLASH "file").
Proof. reflexivity. Qed.

Example test_no_escapes : _unescape_po "plain text" = Ok "plain text".
Proof. reflexivity. Qed.

Example test_single_line :
  _extract_po_string_lines
    ["msgid " +:+ quoted "Hello"; "msgstr " +:+ quoted "World"] 0
  = Ok ("Hello", 1).
Proof. reflexivity. Qed.

Example test_multi_line :
  _extract_po_string_lines
    ["msgstr " +:+ quoted ""; quoted "First "; quoted "Second"; ""] 0
  = Ok ("First Second", 3).
Proof. reflexivity. Qed.

Example test_continuation_stops_at_non_quoted :
  _extract_po_string_lines
    ["msgid " +:+ quoted "Test"; "#: comment"; "msgstr " +:+ quoted "Value"] 0
  = Ok ("Test", 1).
Proof. reflexivity. Qed.

Example test_simple_pair :
  _extract_pairs_from_lines
    ["msgid " +:+ quoted "Hello"; "msgstr " +:+ quoted "Hola"]
  = Ok [("Hello", "Hola")].
Proof. reflexivity. Qed.

Example test_multiple_pairs :
  _extract_pairs_from_lines
    ["msgid " +:+ quoted "One"; "msgstr " +:+ quoted "Uno"; "";
     "msgid " +:+ quoted "Two"; "msgstr " +:+ quoted "Dos"]
  = Ok [("One", "Uno"); ("Two", "Dos")].
Proof. reflexivity. Qed.

Example test_empty_msgid_skipped :
  _extract_pairs_from_lines
    ["msgid " +:+ quoted ""; "msgstr " +:+ quoted "Header content"; "";
     "msgid " +:+ quoted "Real"; "msgstr " +:+ quoted "Actual"]
  = Ok [("Real", "Actual")].
Proof. reflexivity. Qed.

(** The leftmost match of the quoted pattern is greedy up to the last quote
    of the line, and a line break ends what the dot matches. *)
Example search_quoted_greedy :
  re.search_quoted ("a" +:+ quoted "b" +:+ "c" +:+ quoted "d" +:+ "e")
  = Some ("b" +:+ dq +:+ "c" +:+ dq +:+ "d")
  ∧ re.search_quoted
      ("a" +:+ dq +:+ "b" +:+ String LF "c" +:+ quoted "d" +:+ "e")
    = Some "d"
  ∧ re.match_quoted_line (quoted "a" +:+ String LF "") = Some "a"
  ∧ re.match_quoted_line (dq +:+ "a" +:+ String LF dq) = None.
Proof. repeat split. Qed.

(** ** The diff extractor: what the loops compute *)

Lemma pairs_of_Ok (lines : list string) :
  _extract_pairs_from_lines lines = Ok (pairs_of lines).
Proof.
  unfold pairs_of.
  destruct (pairs_loop_Ok (S (length lines)) lines [] 0) as (new & Hr & _);
    [lia..|].
  unfold _extract_pairs_from_lines. by rewrite Hr.
Qed.

Lemma pairs_of_keys (lines : list string) :
  Forall (λ p, p.1 ≠ "") (pairs_of lines).
Proof.
  unfold pairs_of.
  destruct (pairs_loop_Ok (S (length lines)) lines [] 0) as (new & Hr & Hall & _);
    [lia..|].
  unfold _extract_pairs_from_lines. by rewrite Hr.
Qed.

Lemma emit_changes_spec (current_locale : string)
    (old_lookup : gmap string string) (new_pairs : list (string * string))
    (results : list Change) :
  emit_changes current_locale old_lookup new_pairs results
  = results ++ ((λ entry, (current_locale, entry.1, entry.2))
                  <$> filter (is_change old_lookup) new_pairs).
Proof.
  unfold emit_changes. revert results.
  induction new_pairs as [|[msgid msgstr] new_pairs IH]; intros results.
  - by rewrite app_nil_r.
  - simpl. rewrite IH. clear IH.
    destruct (String.eqb msgstr "") eqn:E1.
    + apply string_eqb_true in E1 as ->.
      rewrite filter_cons_False; [done|]. by intros [H _].
    + apply string_eqb_false in E1.
      destruct (String.eqb msgstr (lookup_get old_lookup msgid)) eqn:E2; simpl.
      * apply string_eqb_true in E2.
        rewrite filter_cons_False; [done|]. by intros [_ H].
      * apply string_eqb_false in E2.
        rewrite filter_cons_True by done.
        by rewrite <- app_assoc.
Qed.

Lemma hunk_body_spec (current_locale : string) (results : list Change)
    (hunk : Hunk) :
  hunk_body current_locale results hunk
  = Ok (results ++ hunk_changes current_locale hunk).
Proof.
  unfold hunk_body, hunk_changes.
  destruct (hunk_sides hunk) as [plus_lines minus_lines]. simpl.
  rewrite !pairs_of_Ok. res_simpl. by rewrite emit_changes_spec.
Qed.

Lemma for_each_hunk_body (current_locale : string) (hs : list Hunk)
    (results : list Change) :
  for_each (hunk_body current_locale) hs results
  = Ok (results ++ concat (hunk_changes current_locale <$> hs)).
Proof.
  revert results. induction hs as [|h hs IH]; intros results; simpl.
  - by rewrite app_nil_r.
  - rewrite hunk_body_spec. res_simpl. rewrite IH. by rewrite <- app_assoc.
Qed.

Lemma file_body_spec (results : list Change) (patched_file : PatchedFile) :
  file_body results patched_file = Ok (results ++ file_changes patched_file).
Proof.
  unfold file_body, file_changes.
  destruct (re.search_locale (path patched_file)).
  - apply for_each_hunk_body.
  - by rewrite app_nil_r.
Qed.

Lemma for_each_file_body (patch_set : list PatchedFile)
    (results : list Change) :
  for_each file_body patch_set results
  = Ok (results ++ patch_changes patch_set).
Proof.
  unfold patch_changes. revert results.
  induction patch_set as [|f fs IH]; intros results; simpl.
  - by rewrite app_nil_r.
  - rewrite file_body_spec. res_simpl. rewrite IH. by rewrite <- app_assoc.
Qed.

Lemma parse_po_diff_spec (PatchSet : string → res (list PatchedFile))
    (diff_text : string) :
  parse_po_diff PatchSet diff_text
  = if String.eqb (strip diff_text) "" then Ok []
    else patch_set ← PatchSet diff_text; Ok (patch_changes patch_set).
Proof.
  unfold parse_po_diff. destruct (String.eqb (strip diff_text) ""); [done|].
  destruct (PatchSet diff_text) as [ps| |]; [|done..].
  res_simpl. by rewrite for_each_file_body.
Qed.

Lemma parse_po_diff_Ok (PatchSet : string → res (list PatchedFile))
    (diff_text : string) (results : list Change) :
  parse_po_diff PatchSet diff_text = Ok results →
  (strip diff_text = "" ∧ results = [])
  ∨ (strip diff_text ≠ ""
     ∧ ∃ patch_set, PatchSet diff_text = Ok patch_set
                    ∧ results = patch_changes patch_set).
Proof.
  rewrite parse_po_diff_spec.
  destruct (String.eqb (strip diff_text) "") eqn:E.
  - intros [= <-]. left. by apply string_eqb_true in E.
  - apply string_eqb_false in E.
    destruct (PatchSet diff_text) as [ps| |]; [|done..].
    intros [= <-]. right. eauto.
Qed.

Lemma elem_of_concat {A : Type} (x : A) (ls : list (list A)) :
  x ∈ concat ls ↔ ∃ l, x ∈ l ∧ l ∈ ls.
Proof.
  induction ls as [|l ls IH]; simpl.
  - split; [by intros ?%elem_of_nil|]. by intros (l & _ & ?%elem_of_nil).
  - rewrite elem_of_app, IH. split.
    + intros [H|(l' & H & Hl')]; [exists l|exists l'];
        (split; [done|]); [left|by right].
    + intros (l' & H & Hl'). apply elem_of_cons in Hl' as [->|Hl'];
        [by left|right; eauto].
Qed.

Lemma elem_of_patch_changes (patch_set : list PatchedFile) (c : Change) :
  c ∈ patch_changes patch_set ↔
  ∃ patched_file hunk,
    patched_file ∈ patch_set ∧ hunk ∈ hunks patched_file
    ∧ re.search_locale (path patched_file) = Some c.1.1
    ∧ (c.1.2, c.2) ∈ pairs_of (hunk_sides hunk).1
    ∧ is_change (build_old_lookup (pairs_of (hunk_sides hunk).2)) (c.1.2, c.2).
Proof.
  unfold patch_changes. rewrite elem_of_concat. split.
  - intros (l & Hc & Hl). apply list_elem_of_fmap in Hl as (f & -> & Hf).
    unfold file_changes in Hc.
    destruct (re.search_locale (path f)) as [loc|] eqn:Hloc;
      [|by apply elem_of_nil in Hc].
    apply elem_of_concat in Hc as (l & Hc & Hl).
    apply list_elem_of_fmap in Hl as (h & -> & Hh).
    unfold hunk_changes in Hc.
    apply list_elem_of_fmap in Hc as ([k v] & -> & He).
    apply list_elem_of_filter in He as [Hch He]. simpl in *.
    exists f, h. by rewrite Hloc.
  - intros (f & h & Hf & Hh & Hloc & He & Hch).
    exists (file_changes f). split; [|apply list_elem_of_fmap; eauto].
    unfold file_changes. rewrite Hloc.
    apply elem_of_concat. exists (hunk_changes c.1.1 h).
    split; [|apply list_elem_of_fmap; eauto].
    unfold hunk_changes. apply list_elem_of_fmap.
    exists (c.1.2, c.2). split; [by destruct c as [[? ?] ?]|].
    by apply list_elem_of_filter.
Qed.

Lemma build_old_lookup_absent (old_pairs : list (string * string))
    (msgid : string) :
  msgid ∉ old_pairs.*1 → lookup_get (build_old_lookup old_pairs) msgid = "".
Proof.
  unfold lookup_get, build_old_lookup.
  assert (∀ m : gmap string string, m !! msgid = None →
            msgid ∉ old_pairs.*1 →
            foldl (λ d '(k, v), <[k := v]> d) m old_pairs !! msgid = None)
    as H.
  { induction old_pairs as [|[k v] ps IH]; intros m Hm Hn; [done|].
    simpl in *. apply not_elem_of_cons in Hn as [Hne Hn].
    apply IH; [|done]. by rewrite lookup_insert_ne. }
  intros Hn. by rewrite H.
Qed.

Lemma lookup_build_old_lookup (old_pairs : list (string * string))
    (msgid : string) :
  build_old_lookup old_pairs !! msgid = last_value old_pairs msgid.
Proof.
  unfold last_value.
  induction old_pairs as [|[k v] ps IH] using rev_ind; [done|].
  unfold build_old_lookup in *. rewrite foldl_app, omap_app. simpl.
  case_bool_decide as Hk; simpl in Hk.
  - subst k. by rewrite lookup_insert_eq, last_snoc.
  - by rewrite lookup_insert_ne, app_nil_r.
Qed.




(** C7. An entry whose key is the empty string (the header of a PO file)
    is never in the output of [_extract_pairs_from_lines], and so no tuple
    that [parse_po_diff] returns has an empty key. *)
Theorem header_entry_excluded :
  (∀ lines : list string,
     ∃ pairs, _extract_pairs_from_lines lines = Ok pairs
              ∧ ∀ key value, (key, value) ∈ pairs → key ≠ "")
  ∧ (∀ (PatchSet : string → res (list PatchedFile)) (diff_text : string)
       (results : list Change),
       parse_po_diff PatchSet diff_text = Ok results →
       ∀ locale key value, (locale, key, value) ∈ results → key ≠ "").
Proof.
  split.
  - intros lines. exists (pairs_of lines). split; [apply pairs_of_Ok|].
    intros key value Hin.
    by apply (proj1 (Forall_forall _ _) (pairs_of_keys lines) (key, value)).
  - intros PatchSet diff_text results Hr locale key value Hin.
    apply parse_po_diff_Ok in Hr as [[_ ->]|(_ & ps & Hps & ->)];
      [by apply elem_of_nil in Hin|].
    apply elem_of_patch_changes in Hin as (f & h & _ & _ & _ & He & _).
    by apply (proj1 (Forall_forall _ _) (pairs_of_keys (hunk_sides h).1)
                (key, value)).
Qed.

Lemma header_entry_excluded_witness : "Wallet" ≠ "".
Proof.
  apply (proj2 header_entry_excluded wallet_PatchSet wallet_diff
           [("de_DE", "Wallet", "Geldbeutel")]
           ltac:(vm_compute; reflexivity) "de_DE" "Wallet" "Geldbeutel").
  apply list_elem_of_here.
Defined.

(** ** The scanner: every key line opens an entry *)

Lemma pairs_loop_visits (fuel : nat) (lines : list string)
    (pairs : list (string * string)) (i p : nat) (line key value : string)
    (j j' : nat) :
  i ≤ p → lines !! p = Some line → is_key_line line = true →
  length lines - i < fuel →
  _extract_po_string_lines lines p = Ok (key, j) →
  extract_msgstr lines j = Ok (value, j') →
  key ≠ "" →
  ∃ pairs', pairs_loop fuel lines pairs i = Ok pairs' ∧ (key, value) ∈ pairs'.
Proof.
  intros Hip Hp Hkey Hf Hk Hv Hne. revert pairs i Hip Hf.
  pose proof (lookup_lt_Some _ _ _ Hp) as Hplt.
  induction fuel as [|fuel IH]; intros pairs i Hip Hf; [lia|].
  simpl. rewrite bool_decide_eq_true_2 by lia.
  destruct (index_lt lines i ltac:(lia)) as (l & Hl & Hx). rewrite Hx. res_simpl.
  destruct (startswith l msgid_kw) eqn:Hlk.
  - destruct (_extract_po_string_lines_Ok lines i ltac:(lia))
      as (msgid & i1 & Hr1 & Hi1 & Hq1).
    destruct (extract_msgstr_Ok lines i1 ltac:(lia))
      as (msgstr & i2 & Hr2 & Hi2 & Hq2).
    destruct (decide (i = p)) as [->|Hne'].
    + rewrite Hk. res_simpl. rewrite Hv. res_simpl.
      rewrite (proj2 (string_eqb_false key "") Hne).
      assert (j ≤ length lines ∧ j' ≤ length lines) as [? ?].
      { rewrite Hk in Hr1. injection Hr1 as -> ->.
        rewrite Hv in Hr2. injection Hr2 as -> ->. lia. }
      assert (p < j ∧ j ≤ j') as [? ?].
      { rewrite Hk in Hr1. injection Hr1 as -> ->.
        rewrite Hv in Hr2. injection Hr2 as -> ->. lia. }
      destruct (pairs_loop_Ok fuel lines (pairs ++ [(key, value)]) j')
        as (new & Hr & _); [lia..|].
      exists ((pairs ++ [(key, value)]) ++ new). split; [done|].
      rewrite !elem_of_app. left. right. apply list_elem_of_here.
    + rewrite Hr1. res_simpl. rewrite Hr2. res_simpl.
      assert (i2 ≤ p) as Hi2p.
      { destruct (decide (i2 ≤ p)) as [|Hgt]; [done|]. exfalso.
        destruct (decide (p < i1)) as [Hlt|Hge].
        - destruct (quoted_line_not_keyword line) as [Hc _].
          { apply (Hq1 p); [lia|done]. }
          unfold is_key_line in Hkey. congruence.
        - pose proof (Hq2 p line ltac:(lia) Hp) as Hc.
          unfold is_key_line in Hkey. congruence. }
      destruct (String.eqb msgid ""); apply IH; lia.
  - assert (i ≠ p) as Hne'.
    { intros ->. rewrite Hp in Hl. injection Hl as <-.
      unfold is_key_line in Hkey. congruence. }
    apply IH; lia.
Qed.

Lemma extract_msgstr_no_value (lines : list string) (j : nat) :
  no_value_before_next_key lines j →
  ∃ j', extract_msgstr lines j = Ok ("", j').
Proof.
  intros (e & He & Hend & Hnone). unfold extract_msgstr.
  assert (∀ i line, j ≤ i ≤ e → lines !! i = Some line →
            startswith line msgstr_kw = false) as Hno.
  { intros i line Hi Hl. destruct (decide (i < e)) as [Hlt|Hge].
    - apply (Hnone i line); [lia|done].
    - assert (i = e) as -> by lia.
      destruct Hend as [->|(l & Hl' & Hk)].
      + apply lookup_lt_Some in Hl. lia.
      + rewrite Hl in Hl'. injection Hl' as <-.
        destruct (startswith line msgstr_kw) eqn:E; [|done].
        apply msgstr_line_not_msgid in E. unfold is_key_line in Hk. congruence. }
  destruct (line_startswith_Ok lines j msgstr_kw) as (b & Hb & Hbt).
  rewrite Hb. res_simpl. destruct b.
  { destruct (proj1 Hbt eq_refl) as (line & Hl & Hkw).
    rewrite (Hno j line) in Hkw; [done|lia|done]. }
  destruct (skip_loop_Ok (S (length lines)) lines j) as (i' & Hr & Hi' & Hq & Hstop);
    [lia..|].
  rewrite Hr. res_simpl.
  assert (i' ≤ e) as Hie.
  { destruct (decide (i' ≤ e)) as [|Hgt]; [done|]. exfalso.
    destruct Hend as [->|(l & Hl & Hk)]; [lia|].
    destruct (Hq e l ltac:(lia) Hl) as [_ Hc].
    unfold is_key_line in Hk. congruence. }
  destruct (line_startswith_Ok lines i' msgstr_kw) as (b' & Hb' & Hbt').
  rewrite Hb'. res_simpl. destruct b'; [|by exists i'].
  destruct (proj1 Hbt' eq_refl) as (line & Hl & Hkw).
  rewrite (Hno i' line) in Hkw; [done|lia|done].
Qed.

(** C5, as the code has it. A key line that is followed by no
    value-marker line before the next key line or the end of the input is
    not skipped: when its key is not empty, the output has an entry for the
    key, with the empty value. *)
Theorem entry_without_value_has_empty_value (lines : list string) (p : nat)
    (line key : string) (j : nat) :
  lines !! p = Some line →
  is_key_line line = true →
  _extract_po_string_lines lines p = Ok (key, j) →
  key ≠ "" →
  no_value_before_next_key lines j →
  ∃ pairs, _extract_pairs_from_lines lines = Ok pairs ∧ (key, "") ∈ pairs.
Proof.
  intros Hp Hkey Hk Hne Hnv.
  destruct (extract_msgstr_no_value lines j Hnv) as (j' & Hv).
  apply (pairs_loop_visits (S (length lines)) lines [] 0 p line key "" j j');
    try done; lia.
Qed.

(** C5 as stated fails on the one-line input that opens the entry Wallet
    and ends: no value line follows the key line, and the output has the
    entry, with the empty value. *)
Lemma entry_without_value_is_not_skipped :
  [msgid_kw +:+ "Wallet" +:+ dq] !! 0 = Some (msgid_kw +:+ "Wallet" +:+ dq)
  ∧ is_key_line (msgid_kw +:+ "Wallet" +:+ dq) = true
  ∧ _extract_po_string_lines [msgid_kw +:+ "Wallet" +:+ dq] 0
    = Ok ("Wallet", 1)
  ∧ no_value_before_next_key [msgid_kw +:+ "Wallet" +:+ dq] 1
  ∧ _extract_pairs_from_lines [msgid_kw +:+ "Wallet" +:+ dq]
    = Ok [("Wallet", "")]
  ∧ "Wallet" ∈ [("Wallet", "")].*1.
Proof.
  repeat split.
  - exists 1. simpl. split; [lia|]. split; [by left|]. intros; lia.
  - apply list_elem_of_here.
Qed.

Lemma entry_without_value_has_empty_value_witness :
  ∃ pairs,
    _extract_pairs_from_lines
      [msgid_kw +:+ "Wallet" +:+ dq; "#: main_window.py:100";
       msgid_kw +:+ "Send" +:+ dq; msgstr_kw +:+ "Senden" +:+ dq]
    = Ok pairs
    ∧ ("Wallet", "") ∈ pairs.
Proof.
  apply (entry_without_value_has_empty_value _ 0
           (msgid_kw +:+ "Wallet" +:+ dq) "Wallet" 1).
  - reflexivity.
  - reflexivity.
  - reflexivity.
  - discriminate.
  - exists 2. simpl. split; [lia|]. split.
    + right. by exists (msgid_kw +:+ "Send" +:+ dq).
    + intros q l Hq Hl. assert (q = 1) as -> by lia.
      simpl in Hl. by injection Hl as <-.
Defined.

(** ** The two sides of a hunk *)

Lemma hunk_sides_foldl (hunk : Hunk) (plus_lines minus_lines : list string) :
  foldl (λ '(plus_lines, minus_lines) line,
           let content := rstrip (Ascii.eqb LF) (value line) in
           if is_added line then (plus_lines ++ [content], minus_lines)
           else if is_removed line then (plus_lines, minus_lines ++ [content])
           else (plus_lines ++ [content], minus_lines ++ [content]))
        (plus_lines, minus_lines) hunk
  = (plus_lines ++ (hunk_sides hunk).1, minus_lines ++ (hunk_sides hunk).2).
Proof.
  unfold hunk_sides. revert plus_lines minus_lines.
  induction hunk as [|l h IH]; intros plus_lines minus_lines; simpl.
  - by rewrite !app_nil_r.
  - set (c := rstrip (Ascii.eqb LF) (value l)).
    destruct (is_added l); [|destruct (is_removed l)].
    + rewrite (IH (plus_lines ++ [c]) minus_lines), (IH [c] []).
      simpl. by rewrite <- app_assoc.
    + rewrite (IH plus_lines (minus_lines ++ [c])), (IH [] [c]).
      simpl. by rewrite <- app_assoc.
    + rewrite (IH (plus_lines ++ [c]) (minus_lines ++ [c])),
        (IH [c] [c]).
      simpl. by rewrite <- !app_assoc.
Qed.

Lemma hunk_sides_app (h1 h2 : Hunk) :
  hunk_sides (h1 ++ h2)
  = ((hunk_sides h1).1 ++ (hunk_sides h2).1,
     (hunk_sides h1).2 ++ (hunk_sides h2).2).
Proof.
  unfold hunk_sides at 1. rewrite foldl_app.
  fold (hunk_sides h1). destruct (hunk_sides h1) as [p m].
  apply hunk_sides_foldl.
Qed.

Lemma hunk_sides_contents (hunk : Hunk) (s : string) :
  s ∈ (hunk_sides hunk).1 ∨ s ∈ (hunk_sides hunk).2 →
  ∃ line, line ∈ hunk ∧ s = content_of line.
Proof.
  induction hunk as [|l h IH].
  - intros [H|H]; by apply elem_of_nil in H.
  - change (l :: h) with ([l] ++ h). rewrite hunk_sides_app. simpl.
    rewrite !elem_of_app. intros H.
    assert (s ∈ (hunk_sides [l]).1 ∨ s ∈ (hunk_sides [l]).2
            ∨ (s ∈ (hunk_sides h).1 ∨ s ∈ (hunk_sides h).2)) as [H1|[H1|H1]]
      by tauto.
    + exists l. split; [apply list_elem_of_here|].
      unfold hunk_sides in H1. simpl in H1.
      destruct (is_added l); [|destruct (is_removed l)]; simpl in H1;
        try (by apply elem_of_nil in H1);
        by apply list_elem_of_singleton in H1.
    + exists l. split; [apply list_elem_of_here|].
      unfold hunk_sides in H1. simpl in H1.
      destruct (is_added l); [|destruct (is_removed l)]; simpl in H1;
        try (by apply elem_of_nil in H1);
        by apply list_elem_of_singleton in H1.
    + destruct (IH H1) as (line & Hin & ->). exists line.
      split; [by apply list_elem_of_further|done].
Qed.

(** ** An entry at the end of a line sequence *)

Lemma index_app_at {A : Type} (l1 l2 : list A) (i : nat) :
  index (l1 ++ l2) (length l1 + i) = index l2 i.
Proof. unfold index. by rewrite lookup_app_r, Nat.add_comm, Nat.add_sub by lia. Qed.

Lemma extract_key_before_last (P : list string) (a b g key : string) :
  re.search_quoted a = Some g →
  re.match_quoted_line b = None →
  _unescape_po g = Ok key →
  _extract_po_string_lines (P ++ [a; b]) (length P)
  = Ok (key, length P + 1).
Proof.
  intros Ha Hb Hg. unfold _extract_po_string_lines.
  rewrite <- (Nat.add_0_r (length P)) at 1. rewrite index_app_at.
  change (index [a; b] 0) with (Ok a). res_simpl. rewrite Ha.
  rewrite length_app. change (length [a; b]) with 2.
  replace (length P + 2) with (S (S (length P))) by lia.
  cbn [continuation_loop]. rewrite length_app.
  rewrite bool_decide_eq_true_2 by (simpl; lia).
  rewrite index_app_at. change (index [a; b] 1) with (Ok b). res_simpl.
  rewrite Hb. res_simpl. cbn [join]. rewrite app_empty_r, Hg. done.
Qed.

Lemma extract_value_at_last (P : list string) (a b g value : string) :
  startswith b msgstr_kw = true →
  re.search_quoted b = Some g →
  _unescape_po g = Ok value →
  extract_msgstr (P ++ [a; b]) (length P + 1)
  = Ok (value, length P + 2).
Proof.
  intros Hkw Hb Hg. unfold extract_msgstr, line_startswith.
  rewrite length_app. rewrite bool_decide_eq_true_2 by (simpl; lia).
  rewrite index_app_at. change (index [a; b] 1) with (Ok b). res_simpl.
  rewrite Hkw. unfold _extract_po_string_lines.
  rewrite index_app_at. change (index [a; b] 1) with (Ok b). res_simpl.
  rewrite Hb. rewrite length_app. change (length [a; b]) with 2.
  replace (length P + 2) with (S (S (length P))) at 1 by lia.
  cbn [continuation_loop]. rewrite length_app.
  rewrite bool_decide_eq_false_2 by (simpl; lia). res_simpl.
  cbn [join]. rewrite app_empty_r, Hg. res_simpl.
  do 2 f_equal. lia.
Qed.

Lemma key_lines_single (P : list string) (a b : string) :
  (∀ s, s ∈ P → is_key_line s = false) →
  is_key_line b = false →
  length (key_lines (P ++ [a; b])) ≤ 1.
Proof.
  intros HP Hb. unfold key_lines. rewrite List.filter_app, length_app.
  assert (List.filter is_key_line P = []) as ->.
  { induction P as [|s P IH]; [done|]. simpl.
    rewrite (HP s) by apply list_elem_of_here.
    apply IH. intros s' Hs'. apply HP. by apply list_elem_of_further. }
  simpl. rewrite Hb. destruct (is_key_line a); simpl; lia.
Qed.

Lemma pairs_of_single_entry (P : list string) (a b g g' key value : string) :
  (∀ s, s ∈ P → is_key_line s = false) →
  is_key_line a = true →
  re.search_quoted a = Some g → _unescape_po g = Ok key → key ≠ "" →
  startswith b msgstr_kw = true →
  re.search_quoted b = Some g' → _unescape_po g' = Ok value →
  pairs_of (P ++ [a; b]) = [(key, value)].
Proof.
  intros HP Ha Hg Hkey Hne Hb Hg' Hvalue.
  assert (re.match_quoted_line b = None) as Hbq.
  { destruct (re.match_quoted_line b) eqn:E; [|done].
    destruct (quoted_line_not_keyword b) as [_ Hc]; [by rewrite E|]. congruence. }
  pose proof (extract_key_before_last P a b g key Hg Hbq Hkey) as H1.
  pose proof (extract_value_at_last P a b g' value Hb Hg' Hvalue) as H2.
  destruct (pairs_loop_Ok (S (length (P ++ [a; b]))) (P ++ [a; b]) [] 0)
    as (new & Hr & _ & Hlen); [lia..|].
  rewrite drop_0 in Hlen.
  pose proof (key_lines_single P a b HP (msgstr_line_not_msgid b Hb)) as Hone.
  destruct (pairs_loop_visits (S (length (P ++ [a; b]))) (P ++ [a; b]) [] 0
              (length P) a key value (length P + 1) (length P + 2))
    as (pairs' & Hr' & Hin); try done; try lia.
  { rewrite lookup_app_r by lia. by rewrite Nat.sub_diag. }
  rewrite Hr in Hr'. injection Hr' as <-. simpl in Hin.
  unfold pairs_of, _extract_pairs_from_lines. rewrite Hr. simpl.
  destruct new as [|x [|y new]]; simpl in *;
    [|by apply list_elem_of_singleton in Hin as <-|lia].
  by apply elem_of_nil in Hin.
Qed.

(** ** The end-to-end scenario *)

Lemma patch_changes_app (fs1 fs2 : list PatchedFile) :
  patch_changes (fs1 ++ fs2) = patch_changes fs1 ++ patch_changes fs2.
Proof. unfold patch_changes. by rewrite fmap_app, concat_app. Qed.

Lemma patch_changes_ineligible (fs : list PatchedFile) :
  (∀ f, f ∈ fs → re.search_locale (path f) = None) → patch_changes fs = [].
Proof.
  induction fs as [|f fs IH]; intros H; [done|].
  change (f :: fs) with ([f] ++ fs). rewrite patch_changes_app, IH.
  - unfold patch_changes, file_changes. simpl.
    by rewrite (H f) by apply list_elem_of_here.
  - intros g Hg. apply H. by apply list_elem_of_further.
Qed.

(** C1. A diff with exactly one eligible file, whose path gives the
    locale de_DE, and one hunk in which, after lines that open no entry,
    the context line of the key Wallet is followed by the removed line of
    the empty value and the added line of the value Geldbeutel: the result
    of [parse_po_diff] is the one tuple (de_DE, Wallet, Geldbeutel), and the
    old value that the hunk's lookup gives for Wallet is the empty string. *)
Theorem wallet_translation_added
    (PatchSet : string → res (list PatchedFile)) (diff_text : string)
    (before after : list PatchedFile) (file_path : string) (pre : Hunk)
    (l_key l_old l_new : Line) :
  strip diff_text ≠ "" →
  PatchSet diff_text
    = Ok (before
          ++ [mkPatchedFile file_path [pre ++ [l_key; l_old; l_new]]]
          ++ after) →
  (∀ f, f ∈ before ++ after → re.search_locale (path f) = None) →
  re.search_locale file_path = Some "de_DE" →
  (∀ l, l ∈ pre → is_key_line (content_of l) = false) →
  line_type l_key = LINE_TYPE_CONTEXT →
  content_of l_key = msgid_kw +:+ "Wallet" +:+ dq →
  line_type l_old = LINE_TYPE_REMOVED →
  content_of l_old = msgstr_kw +:+ dq →
  line_type l_new = LINE_TYPE_ADDED →
  content_of l_new = msgstr_kw +:+ "Geldbeutel" +:+ dq →
  parse_po_diff PatchSet diff_text = Ok [("de_DE", "Wallet", "Geldbeutel")]
  ∧ lookup_get
      (build_old_lookup
         (pairs_of (hunk_sides (pre ++ [l_key; l_old; l_new])).2))
      "Wallet" = "".
Proof.
  intros Hne Hps Hother Hloc Hpre Tk Ck To Co Tn Cn.
  assert (hunk_sides (pre ++ [l_key; l_old; l_new])
          = ((hunk_sides pre).1
               ++ [msgid_kw +:+ "Wallet" +:+ dq;
                   msgstr_kw +:+ "Geldbeutel" +:+ dq],
             (hunk_sides pre).2
               ++ [msgid_kw +:+ "Wallet" +:+ dq; msgstr_kw +:+ dq])) as Hsides.
  { rewrite hunk_sides_app. rewrite <- Ck, <- Co, <- Cn.
    destruct l_key as [tk vk], l_old as [to vo], l_new as [tn vn].
    simpl in Tk, To, Tn. subst tk to tn. reflexivity. }
  assert (∀ s, s ∈ (hunk_sides pre).1 ∨ s ∈ (hunk_sides pre).2 →
               is_key_line s = false) as Hnokey.
  { intros s Hs. destruct (hunk_sides_contents pre s Hs) as (l & Hl & ->).
    by apply Hpre. }
  assert (pairs_of (hunk_sides (pre ++ [l_key; l_old; l_new])).1
          = [("Wallet", "Geldbeutel")]) as Hnew.
  { rewrite Hsides. simpl.
    apply (pairs_of_single_entry _ _ _ "Wallet" "Geldbeutel"); try done.
    intros s Hs. apply Hnokey. by left. }
  assert (pairs_of (hunk_sides (pre ++ [l_key; l_old; l_new])).2
          = [("Wallet", "")]) as Hold.
  { rewrite Hsides. simpl.
    apply (pairs_of_single_entry _ _ _ "Wallet" ""); try done.
    intros s Hs. apply Hnokey. by right. }
  split; [|by rewrite Hold].
  rewrite parse_po_diff_spec.
  rewrite (proj2 (string_eqb_false _ _) Hne), Hps. res_simpl. f_equal.
  rewrite !patch_changes_app.
  rewrite (patch_changes_ineligible before), (patch_changes_ineligible after).
  - rewrite app_nil_r. simpl.
    unfold patch_changes, file_changes. simpl. rewrite Hloc. simpl.
    rewrite app_nil_r. unfold hunk_changes. rewrite Hnew, Hold. reflexivity.
  - intros f Hf. apply Hother. apply elem_of_app. by right.
  - intros f Hf. apply Hother. apply elem_of_app. by left.
Qed.

Lemma wallet_translation_added_witness :
  parse_po_diff wallet_PatchSet wallet_diff
  = Ok [("de_DE", "Wallet", "Geldbeutel")]
  ∧ lookup_get
      (build_old_lookup
         (pairs_of
            (hunk_sides
               ([mkLine LINE_TYPE_CONTEXT
                   (unlines ["#: electrum/gui/qt/main_window.py:100"])]
                ++ [mkLine LINE_TYPE_CONTEXT
                      (unlines ["msgid " +:+ quoted "Wallet"]);
                    mkLine LINE_TYPE_REMOVED (unlines ["msgstr " +:+ quoted ""]);
                    mkLine LINE_TYPE_ADDED
                      (unlines ["msgstr " +:+ quoted "Geldbeutel"])])).2))
      "Wallet" = "".
Proof.
  apply (wallet_translation_added wallet_PatchSet wallet_diff [] []
           "locale/de_DE/electrum.po").
  - vm_compute. discriminate.
  - vm_compute. reflexivity.
  - intros f Hf. by apply elem_of_nil in Hf.
  - vm_compute. reflexivity.
  - intros l Hl. apply list_elem_of_singleton in Hl as ->.
    vm_compute. reflexivity.
  - reflexivity.
  - vm_compute. reflexivity.
  - reflexivity.
  - vm_compute. reflexivity.
  - reflexivity.
  - vm_compute. reflexivity.
Defined.

(** ** The path pattern *)

Lemma literal_spec (p s r : string) : re.literal p s = Some r ↔ s = p +:+ r.
Proof.
  revert s. induction p as [|a p IH]; intros s; simpl.
  - split; [by intros [= ->]|by intros ->].
  - destruct s as [|b s]; [by split|].
    destruct (Ascii.eqb a b) eqn:E.
    + apply Ascii.eqb_eq in E as ->. rewrite IH. split.
      * by intros ->.
      * by intros [= ->].
    + apply Ascii.eqb_neq in E. split; [done|]. by intros [= -> ->].
Qed.

Arguments re.literal : simpl never.

Lemma not_slash_run_spec (s g t : string) :
  re.not_slash_run s = (g, t) →
  s = g +:+ t ∧ no_slash g = true ∧ (t = "" ∨ ∃ t', t = String SLASH t').
Proof.
  revert g t. induction s as [|c r IH]; intros g t; simpl.
  - intros [= <- <-]. auto.
  - destruct (Ascii.eqb c SLASH) eqn:E.
    + intros [= <- <-]. apply Ascii.eqb_eq in E as ->. eauto.
    + destruct (re.not_slash_run r) as [g' t'] eqn:Hr. intros [= <- <-].
      destruct (IH g' t' eq_refl) as (-> & Hg & Ht).
      split; [done|]. split; [|done]. simpl. by rewrite E, Hg.
Qed.

Lemma not_slash_run_app (g t : string) :
  no_slash g = true →
  re.not_slash_run (g +:+ String SLASH t) = (g, String SLASH t).
Proof.
  induction g as [|c g IH]; simpl; intros Hg.
  - done.
  - apply andb_true_iff in Hg as [Hc Hg]. apply negb_true_iff in Hc.
    rewrite ?app_String. simpl. by rewrite Hc, IH.
Qed.

Lemma match_locale_here_spec (s seg : string) :
  re.match_locale_here s = Some seg ↔ seg ≠ "" ∧ locale_form_at s seg.
Proof.
  unfold re.match_locale_here, locale_form_at. split.
  - destruct (re.literal "locale/" s) as [r|] eqn:Hr; [|by simpl]. simpl.
    apply literal_spec in Hr as ->.
    destruct (re.not_slash_run r) as [g t] eqn:Hrun.
    apply not_slash_run_spec in Hrun as (-> & Hg & _).
    destruct g as [|c g]; [done|].
    destruct (re.literal "/electrum.po" t) as [u|] eqn:Hu; [|by simpl]. simpl.
    apply literal_spec in Hu as ->.
    destruct (re.boundary_after_word u) eqn:Hb; [|done].
    intros [= <-]. split; [done|]. exists u. by rewrite !app_String.
  - intros (Hne & post & -> & Hseg & Hb).
    rewrite (proj2 (literal_spec "locale/" _ (seg +:+ "/electrum.po" +:+ post)))
      by done.
    simpl.
    change ("/electrum.po" +:+ post) with (String SLASH ("electrum.po" +:+ post)).
    rewrite (not_slash_run_app seg _ Hseg).
    destruct seg as [|c seg]; [done|].
    change (String SLASH ("electrum.po" +:+ post))
      with ("/electrum.po" +:+ post).
    rewrite (proj2 (literal_spec "/electrum.po" _ post)) by done.
    simpl. by rewrite Hb.
Qed.

Lemma search_locale_unfold (s : string) :
  re.search_locale s
  = match re.match_locale_here s with
    | Some g => Some g
    | None =>
        match s with
        | EmptyString => None
        | String _ r => re.search_locale r
        end
    end.
Proof. by destruct s. Qed.

Lemma search_locale_Some (s seg : string) :
  re.search_locale s = Some seg ↔ leftmost_locale s seg.
Proof.
  revert seg. induction s as [|c r IH]; intros seg.
  - rewrite search_locale_unfold. split.
    + destruct (re.match_locale_here "") as [g|] eqn:Hm; [|done].
      intros [= ->]. apply match_locale_here_spec in Hm as [Hne Hf].
      exists "", "". repeat split; try done. simpl. intros; lia.
    + intros (pre & rest & Hp & Hne & Hf & _).
      destruct pre; [|done]. rewrite app_empty_l in Hp. subst rest.
      by rewrite (proj2 (match_locale_here_spec "" seg)).
  - rewrite search_locale_unfold.
    destruct (re.match_locale_here (String c r)) as [g|] eqn:Hm.
    + apply match_locale_here_spec in Hm as [Hne Hf]. split.
      * intros [= ->]. exists "", (String c r).
        repeat split; try done. simpl. intros; lia.
      * intros (pre & rest & Hp & Hne' & Hf' & Hleft).
        destruct pre as [|c' pre].
        -- rewrite app_empty_l in Hp. subst rest.
           pose proof (proj2 (match_locale_here_spec _ _) (conj Hne Hf)) as H1.
           pose proof (proj2 (match_locale_here_spec _ _) (conj Hne' Hf')) as H2.
           congruence.
        -- exfalso. apply (Hleft "" (String c r) g); [done|simpl; lia|done..].
    + rewrite IH. split.
      * intros (pre & rest & -> & Hne & Hf & Hleft).
        exists (String c pre), rest. repeat split; try done.
        intros pre' rest' seg' Hp Hlen Hne' Hf'.
        destruct pre' as [|c' pre'].
        -- rewrite app_empty_l in Hp. subst rest'.
           pose proof (proj2 (match_locale_here_spec _ _) (conj Hne' Hf')).
           congruence.
        -- rewrite !app_String in Hp. injection Hp as -> Hp.
           apply (Hleft pre' rest' seg'); try done. simpl in Hlen. lia.
      * intros (pre & rest & Hp & Hne & Hf & Hleft).
        destruct pre as [|c' pre].
        -- rewrite app_empty_l in Hp. subst rest.
           pose proof (proj2 (match_locale_here_spec _ _) (conj Hne Hf)).
           congruence.
        -- rewrite app_String in Hp. injection Hp as -> ->.
           exists pre, rest. repeat split; try done.
           intros pre' rest' seg' Hp' Hlen Hne' Hf'.
           apply (Hleft (String c' pre') rest' seg'); try done.
           ++ by rewrite app_String, Hp'.
           ++ simpl. lia.
Qed.

Lemma search_locale_is_Some (s : string) :
  is_Some (re.search_locale s) ↔ ∃ seg, seg ≠ "" ∧ locale_form s seg.
Proof.
  split.
  - intros [seg Hs]. apply search_locale_Some in Hs
      as (pre & rest & Hp & Hne & Hf & _).
    exists seg. split; [done|]. by exists pre, rest.
  - intros (seg & Hne & pre & rest & -> & Hf).
    pose proof (proj2 (match_locale_here_spec _ _) (conj Hne Hf)) as Hm.
    clear Hf. induction pre as [|c pre IH]; rewrite search_locale_unfold.
    + rewrite app_empty_l, Hm. by eexists.
    + rewrite app_String.
      destruct (re.match_locale_here (String c (pre +:+ rest))); [done|].
      apply IH.
Qed.

(** C10 as stated fails where the segment is empty: the path has the
    form, with a segment that has no slash and the final o at the end of the
    path, and the file is not eligible. *)
Lemma empty_segment_not_eligible :
  locale_form "locale//electrum.po" ""
  ∧ re.search_locale "locale//electrum.po" = None
  ∧ file_changes
      (mkPatchedFile "locale//electrum.po"
         [[mkLine LINE_TYPE_ADDED (msgid_kw +:+ "Wallet" +:+ dq);
           mkLine LINE_TYPE_ADDED (msgstr_kw +:+ "Geldbeutel" +:+ dq)]])
    = [].
Proof.
  split; [|split; reflexivity].
  exists "", "locale//electrum.po". split; [done|]. by exists "".
Qed.

(** C10, with the segment not empty. A file is eligible exactly when its
    path contains, anywhere, locale/ then a segment that is not empty and has
    no slash, then /electrum.po with the final o at a word boundary; the
    locale is the segment of the leftmost such place; a file that is not
    eligible puts no record in the result and every record of an eligible
    file carries that locale. So locale/x/electrum.pot is not eligible, and
    sub/dir/locale/de_DE/electrum.po and locale/de_DE/electrum.po.orig are,
    with the locale de_DE. *)
Theorem eligible_path_form :
  (∀ file_path : string,
     is_Some (re.search_locale file_path)
     ↔ ∃ seg, seg ≠ "" ∧ locale_form file_path seg)
  ∧ (∀ file_path seg : string,
       re.search_locale file_path = Some seg ↔ leftmost_locale file_path seg)
  ∧ (∀ patched_file : PatchedFile,
       re.search_locale (path patched_file) = None →
       file_changes patched_file = [])
  ∧ (∀ (patched_file : PatchedFile) (seg : string) (c : Change),
       re.search_locale (path patched_file) = Some seg →
       c ∈ file_changes patched_file → c.1.1 = seg)
  ∧ re.search_locale "locale/x/electrum.pot" = None
  ∧ re.search_locale "sub/dir/locale/de_DE/electrum.po" = Some "de_DE"
  ∧ re.search_locale "locale/de_DE/electrum.po.orig" = Some "de_DE".
Proof.
  split; [apply search_locale_is_Some|].
  split; [apply search_locale_Some|].
  split; [|split; [|by repeat split]].
  - intros f Hf. unfold file_changes. by rewrite Hf.
  - intros f seg c Hf Hc. unfold file_changes in Hc. rewrite Hf in Hc.
    apply elem_of_concat in Hc as (l & Hc & Hl).
    apply list_elem_of_fmap in Hl as (h & -> & _).
    unfold hunk_changes in Hc. by apply list_elem_of_fmap in Hc as (e & -> & _).
Qed.

(** ** Lists: counts, sums and the deque *)

Lemma count_tasks_insert (P : TaskState → bool) (ts : list TaskState)
    (i : nat) (x y : TaskState) :
  ts !! i = Some y →
  count_tasks P (<[i:=x]> ts) + Nat.b2n (P y)
  = count_tasks P ts + Nat.b2n (P x).
Proof.
  unfold count_tasks. revert i.
  induction ts as [|t ts IH]; intros [|i] Hl; try done; simpl in *.
  - injection Hl as ->. destruct (P x), (P y); simpl; lia.
  - specialize (IH i Hl). destruct (P t); simpl; lia.
Qed.

Lemma sum_imap_insert {A : Type} (f : nat → A → nat) (l : list A) (i : nat)
    (x y : A) :
  l !! i = Some y →
  sum_list (imap f (<[i:=x]> l)) + f i y = sum_list (imap f l) + f i x.
Proof.
  revert f i. induction l as [|a l IH]; intros f [|i] Hl; try done; simpl in *.
  - injection Hl as ->. lia.
  - specialize (IH (f ∘ S) i Hl). simpl in IH. lia.
Qed.

Lemma turns_left_insert (N : nat → nat) (ts : list TaskState) (i : nat)
    (x y : TaskState) :
  ts !! i = Some y →
  turns_left N (<[i:=x]> ts) + remaining N i y
  = turns_left N ts + remaining N i x.
Proof. apply sum_imap_insert. Qed.

Lemma elem_of_deque_remove (x t : nat) (d : list nat) :
  NoDup d → t ∈ deque_remove x d ↔ t ∈ d ∧ t ≠ x.
Proof.
  induction d as [|y d IH]; intros Hnd; simpl.
  - split; [by intros ?%elem_of_nil|by intros [?%elem_of_nil _]].
  - apply NoDup_cons in Hnd as [Hy Hnd]. case_bool_decide as E.
    + subst y. rewrite elem_of_cons. split.
      * intros Ht. split; [by right|]. by intros ->.
      * by intros [[->|Ht] Hne].
    + rewrite !elem_of_cons, (IH Hnd). split.
      * intros [->|[Ht Hne]]; [split; [by left|done]|split; [by right|done]].
      * intros [[->|Ht] Hne]; [by left|by right].
Qed.

Lemma NoDup_deque_remove (x : nat) (d : list nat) :
  NoDup d → NoDup (deque_remove x d).
Proof.
  induction d as [|y d IH]; intros Hnd; simpl; [done|].
  apply NoDup_cons in Hnd as [Hy Hnd]. case_bool_decide; [done|].
  apply NoDup_cons. split; [|by apply IH].
  rewrite (elem_of_deque_remove _ _ _ Hnd). by intros [? _].
Qed.

(** ** The pending waiters *)

Lemma first_pending_head (ts : list TaskState) (ws : list nat) :
  first_pending ts ws = head (pending ts ws).
Proof.
  induction ws as [|w ws IH]; [done|]. simpl. unfold is_waiting.
  destruct (ts !! w) as [[]|] eqn:E; simpl; try done;
    rewrite bool_decide_eq_false_2 by done; apply IH.
Qed.

Lemma first_pending_Some (ts : list TaskState) (ws : list nat) (j : nat) :
  first_pending ts ws = Some j → j ∈ ws ∧ ts !! j = Some Waiting.
Proof.
  induction ws as [|w ws IH]; [done|]. simpl.
  destruct (ts !! w) as [[]|] eqn:E;
    try (intros H; destruct (IH H) as [? ?]; split;
         [by apply list_elem_of_further|done]).
  intros [= <-]. split; [apply list_elem_of_here|done].
Qed.

Lemma first_pending_None (ts : list TaskState) (ws : list nat) (w : nat) :
  first_pending ts ws = None → w ∈ ws → ts !! w ≠ Some Waiting.
Proof.
  induction ws as [|w' ws IH]; [by intros _ ?%elem_of_nil|]. simpl.
  destruct (ts !! w') as [[]|] eqn:E; try done;
    intros H [->|Hin]%elem_of_cons; try (by apply IH); congruence.
Qed.

Lemma pending_ext (ts ts' : list TaskState) (ws : list nat) :
  (∀ w, w ∈ ws → is_waiting ts' w = is_waiting ts w) →
  pending ts' ws = pending ts ws.
Proof.
  unfold pending. induction ws as [|w ws IH]; intros H; [done|]. simpl.
  rewrite (H w) by apply list_elem_of_here. rewrite IH; [done|].
  intros w' Hw'. apply H. by apply list_elem_of_further.
Qed.

Lemma is_waiting_insert_ne (ts : list TaskState) (i w : nat) (x : TaskState) :
  i ≠ w → is_waiting (<[i:=x]> ts) w = is_waiting ts w.
Proof. intros H. unfold is_waiting. by rewrite list_lookup_insert_ne. Qed.

Lemma is_waiting_insert_same (ts : list TaskState) (i w : nat)
    (x : TaskState) :
  ts !! i ≠ Some Waiting → x ≠ Waiting →
  is_waiting (<[i:=x]> ts) w = is_waiting ts w.
Proof.
  intros Hold Hnew. destruct (decide (i = w)) as [->|Hne];
    [|by apply is_waiting_insert_ne].
  unfold is_waiting. rewrite (bool_decide_eq_false_2 (ts !! w = _)) by done.
  apply bool_decide_eq_false_2. intros H.
  apply list_lookup_insert_Some in H as [(_ & ? & _)|[? _]]; congruence.
Qed.

Lemma pending_app (ts : list TaskState) (ws : list nat) (i : nat) :
  pending ts (ws ++ [i])
  = pending ts ws ++ (if is_waiting ts i then [i] else []).
Proof. unfold pending. rewrite List.filter_app. simpl. by destruct (is_waiting ts i). Qed.

Lemma pending_deque_remove (ts : list TaskState) (i : nat) (ws : list nat) :
  is_waiting ts i = false → pending ts (deque_remove i ws) = pending ts ws.
Proof.
  intros Hi. unfold pending. induction ws as [|w ws IH]; [done|]. simpl.
  case_bool_decide as E.
  - subst w. by rewrite Hi.
  - simpl. by rewrite IH.
Qed.

Lemma pending_cons (ts : list TaskState) (w : nat) (ws : list nat) :
  pending ts (w :: ws)
  = if is_waiting ts w then w :: pending ts ws else pending ts ws.
Proof. done. Qed.

Lemma pending_wake (ts : list TaskState) (ws : list nat) (j : nat) :
  NoDup ws → first_pending ts ws = Some j →
  pending ts ws = j :: pending (<[j:=Woken]> ts) ws.
Proof.
  induction ws as [|w ws IH]; intros Hnd; [done|].
  apply NoDup_cons in Hnd as [Hw Hnd]. rewrite !pending_cons.
  cbn [first_pending].
  destruct (ts !! w) as [t|] eqn:E.
  - destruct (decide (t = Waiting)) as [->|Hne].
    + intros [= <-]. unfold is_waiting.
      rewrite (bool_decide_eq_true_2 _ E).
      rewrite bool_decide_eq_false_2.
      * f_equal. symmetry. apply pending_ext. intros w' Hw'.
        apply is_waiting_insert_ne. by intros ->.
      * rewrite list_lookup_insert_eq; [done|]. by eapply lookup_lt_Some.
    + intros Hf.
      assert (first_pending ts ws = Some j) as Hf' by (by destruct t).
      destruct (first_pending_Some _ _ _ Hf') as [Hin Hj].
      assert (j ≠ w) as Hjw by (intros ->; congruence).
      unfold is_waiting.
      rewrite (bool_decide_eq_false_2 (ts !! w = Some Waiting)) by congruence.
      rewrite bool_decide_eq_false_2
        by (rewrite list_lookup_insert_ne by done; congruence).
      by apply IH.
  - intros Hf. destruct (first_pending_Some _ _ _ Hf) as [Hin Hj].
    assert (j ≠ w) as Hjw by (intros ->; congruence).
    unfold is_waiting.
    rewrite (bool_decide_eq_false_2 (ts !! w = Some Waiting)) by congruence.
    rewrite bool_decide_eq_false_2
      by (rewrite list_lookup_insert_ne by done; congruence).
    by apply IH.
Qed.

(** ** The event loop: the invariant of the semaphore *)

Lemma waiters_insert (ts : list TaskState) (ws : list nat) (i : nat)
    (x y : TaskState) :
  (∀ t, t ∈ ws ↔ ts !! t = Some Waiting ∨ ts !! t = Some Woken) →
  ts !! i = Some x →
  x ≠ Waiting → x ≠ Woken → y ≠ Waiting → y ≠ Woken →
  ∀ t, t ∈ ws
       ↔ <[i:=y]> ts !! t = Some Waiting ∨ <[i:=y]> ts !! t = Some Woken.
Proof.
  intros HW Hi Hx1 Hx2 Hy1 Hy2 t. rewrite (HW t).
  destruct (decide (i = t)) as [->|Hne].
  - rewrite list_lookup_insert_eq by (by eapply lookup_lt_Some).
    rewrite Hi. split; intros [[=]|[=]]; congruence.
  - by rewrite list_lookup_insert_ne.
Qed.

Lemma pending_insert (ts : list TaskState) (ws : list nat) (i : nat)
    (x y : TaskState) :
  ts !! i = Some x → x ≠ Waiting → y ≠ Waiting →
  pending (<[i:=y]> ts) ws = pending ts ws.
Proof.
  intros Hi Hx Hy. apply pending_ext. intros w _.
  apply is_waiting_insert_same; congruence.
Qed.

Lemma first_pending_insert (ts : list TaskState) (ws : list nat) (i : nat)
    (x y : TaskState) :
  ts !! i = Some x → x ≠ Waiting → y ≠ Waiting →
  first_pending (<[i:=y]> ts) ws = first_pending ts ws.
Proof.
  intros Hi Hx Hy. rewrite !first_pending_head.
  by rewrite (pending_insert ts ws i x y).
Qed.

Section EventLoopInvariant.

Context {duration : Type}.
Variable retry_delay : duration.
Variable classifier : nat → nat → Reply.

Abbreviation State := (LoopState duration).

Lemma wake_up_next_set_task (σ : State) (i : nat) (x y : TaskState) :
  tasks σ !! i = Some x → x ≠ Waiting → y ≠ Waiting →
  set_task i y (_wake_up_next σ) = _wake_up_next (set_task i y σ).
Proof.
  intros Hi Hx Hy. unfold _wake_up_next, set_task. simpl.
  rewrite (first_pending_insert _ _ i x y) by done.
  destruct (first_pending (tasks σ) (sem_waiters σ)) as [j|] eqn:Hj; [|done].
  simpl. f_equal. apply list_insert_insert_ne.
  apply first_pending_Some in Hj as [_ Hj]. intros ->. congruence.
Qed.

Lemma queue_inv_emit (K n : nat) (σ : State) (e : Event duration) :
  (∀ i, e ≠ EvQueued i) → (∀ i, e ≠ EvWoken i) →
  queue_inv K n σ → queue_inv K n (emit e σ).
Proof.
  intros Hq Hw [H1 H2 H3 H4 H5]. split; simpl; try done.
  unfold queued_of, woken_of in *. rewrite !omap_app, H5. simpl.
  destruct e; simpl; rewrite ?app_nil_r; try done.
  - by destruct (Hq i).
  - by destruct (Hw i).
Qed.

Lemma loop_inv_emit (K n : nat) (σ : State) (e : Event duration) :
  (∀ i, e ≠ EvQueued i) → (∀ i, e ≠ EvWoken i) →
  loop_inv K n σ → loop_inv K n (emit e σ).
Proof.
  intros Hq Hw [Hinv Hready]. split; [by apply queue_inv_emit|done].
Qed.

(** A task moves between two states that are neither waiting nor woken. *)
Lemma queue_inv_set_task (K K' n v' : nat) (σ : State) (i : nat)
    (x y : TaskState) :
  queue_inv K n σ →
  tasks σ !! i = Some x →
  x ≠ Waiting → x ≠ Woken → y ≠ Waiting → y ≠ Woken →
  v' + Nat.b2n (is_holder y) + sem_value σ + count_tasks is_holder (tasks σ)
  = K' + sem_value σ + count_tasks is_holder (tasks σ) + Nat.b2n (is_holder x)
    - K + sem_value σ →
  K ≤ K' + sem_value σ + Nat.b2n (is_holder x) →
  queue_inv K' n
    (mkLoopState v' (sem_waiters σ) (<[i:=y]> (tasks σ)) (log σ)).
Proof.
  intros [H1 H2 H3 H4 H5] Hi Hx1 Hx2 Hy1 Hy2 Hv Hle. split; simpl.
  - by rewrite length_insert.
  - pose proof (count_tasks_insert is_holder (tasks σ) i y x Hi). lia.
  - done.
  - by apply (waiters_insert _ _ i x y).
  - by rewrite (pending_insert _ _ i x y).
Qed.

Lemma wake_ready_zero (σ : State) : sem_value σ = 0 → wake_ready σ.
Proof. intros H Hpos. lia. Qed.

Lemma wake_up_next_inv (K n : nat) (σ : State) :
  queue_inv K n σ → 0 < sem_value σ → loop_inv K n (_wake_up_next σ).
Proof.
  intros [H1 H2 H3 H4 H5] Hpos. unfold _wake_up_next.
  destruct (first_pending (tasks σ) (sem_waiters σ)) as [j|] eqn:Hj.
  - pose proof (pending_wake _ _ _ H3 Hj) as Hp.
    apply first_pending_Some in Hj as [Hin Hj].
    pose proof (lookup_lt_Some _ _ _ Hj) as Hlt.
    split; [split; simpl|].
    + by rewrite length_insert.
    + pose proof (count_tasks_insert is_holder (tasks σ) j Woken Waiting Hj).
      simpl in *. lia.
    + done.
    + intros t. rewrite (H4 t). destruct (decide (j = t)) as [->|Hne].
      * rewrite list_lookup_insert_eq by done. rewrite Hj. tauto.
      * by rewrite list_lookup_insert_ne.
    + unfold queued_of, woken_of in *. rewrite !omap_app, H5, Hp. simpl.
      by rewrite app_nil_r, <- app_assoc.
    + intros _ _. exists j. simpl. by rewrite list_lookup_insert_eq.
  - split; [done|]. intros _ [t Ht]. exfalso.
    apply (first_pending_None _ _ t Hj); [|done]. apply H4. by left.
Qed.

Lemma step_task_inv (K n : nat) (σ σ' : State) (i : nat) :
  loop_inv K n σ →
  step_task retry_delay classifier σ i = Some σ' →
  loop_inv K n σ'.
Proof.
  intros [Hinv Hready] Hstep. pose proof Hinv as [H1 H2 H3 H4 H5].
  unfold step_task in Hstep.
  destruct (tasks σ !! i) as [t|] eqn:Hi; [|done].
  destruct t as [| | |k|k|c]; try done.
  - (* Created *)
    destruct (locked σ) eqn:Hlocked; injection Hstep as <-.
    + apply orb_true_iff in Hlocked.
      assert (i ∉ sem_waiters σ) as Hnotin.
      { rewrite H4, Hi. by intros [[=]|[=]]. }
      split.
      * split; simpl.
        -- by rewrite length_insert.
        -- pose proof (count_tasks_insert is_holder (tasks σ) i Waiting Created Hi).
           simpl in *. lia.
        -- apply NoDup_app. split; [done|]. split; [|apply NoDup_singleton].
           intros t Ht Heq%list_elem_of_singleton. by subst t.
        -- intros t. rewrite elem_of_app, list_elem_of_singleton, (H4 t).
           destruct (decide (i = t)) as [->|Hne].
           ++ rewrite list_lookup_insert_eq by (by eapply lookup_lt_Some).
              rewrite Hi. split; [by left|]. intros _. by right.
           ++ rewrite list_lookup_insert_ne by done. split; [|by left].
              intros [H | ->]; done.
        -- unfold queued_of, woken_of in *.
           rewrite !omap_app, H5, pending_app. simpl.
           rewrite app_nil_r, <- app_assoc. f_equal.
           assert (is_waiting (<[i:=Waiting]> (tasks σ)) i = true) as ->.
           { apply bool_decide_eq_true_2, list_lookup_insert_eq.
             by eapply lookup_lt_Some. }
           f_equal. symmetry. apply pending_ext. intros w Hw.
           apply is_waiting_insert_ne. by intros ->.
      * intros Hpos _. simpl in Hpos.
        destruct Hlocked as [Hz|Hne]; [apply Nat.eqb_eq in Hz; lia|].
        apply negb_true_iff, bool_decide_eq_false in Hne.
        destruct (sem_waiters σ) as [|w ws] eqn:Hws; [done|].
        assert (w ≠ i) as Hwi.
        { intros ->. apply Hnotin. rewrite ?Hws. apply list_elem_of_here. }
        destruct (proj1 (H4 w)) as [Hw|Hw];
          [rewrite ?Hws; apply list_elem_of_here| |].
        -- destruct (Hready Hpos (ex_intro _ w Hw)) as [t Ht].
           exists t. simpl. rewrite list_lookup_insert_ne; [done|].
           intros ->. congruence.
        -- exists w. simpl. by rewrite list_lookup_insert_ne.
    + apply orb_false_iff in Hlocked as [Hz Hne].
      apply Nat.eqb_neq in Hz.
      apply negb_false_iff, bool_decide_eq_true in Hne.
      apply loop_inv_emit; [done..|]. split.
      * apply (queue_inv_set_task K K n _ σ i Created (Posting 0));
          try done; simpl; lia.
      * intros _ [t Ht]. simpl in Ht. exfalso.
        assert (t ∈ sem_waiters σ) as Hin.
        { apply H4. left. destruct (decide (i = t)) as [->|Hne'].
          - rewrite list_lookup_insert_eq in Ht by (by eapply lookup_lt_Some).
            done.
          - by rewrite list_lookup_insert_ne in Ht. }
        rewrite Hne in Hin. by apply elem_of_nil in Hin.
  - (* Woken *)
    injection Hstep as <-. apply loop_inv_emit; [done..|].
    set (σ1 := mkLoopState (sem_value σ) (deque_remove i (sem_waiters σ))
                 (tasks σ) (log σ)).
    assert (queue_inv K n (set_task i (Posting 0) σ1)) as Hmid.
    { split; simpl.
      - by rewrite length_insert.
      - pose proof (count_tasks_insert is_holder (tasks σ) i (Posting 0) Woken Hi).
        simpl in *. lia.
      - by apply NoDup_deque_remove.
      - intros t. rewrite (elem_of_deque_remove _ _ _ H3), (H4 t).
        destruct (decide (i = t)) as [->|Hne].
        + rewrite list_lookup_insert_eq by (by eapply lookup_lt_Some).
          split; [by intros [_ ?]|by intros [[=]|[=]]].
        + rewrite list_lookup_insert_ne by done. split; [by intros [? _]|].
          intros H. split; [done|]. by intros ->.
      - rewrite (pending_insert _ _ i Woken (Posting 0)) by done.
        rewrite pending_deque_remove; [done|].
        unfold is_waiting. apply bool_decide_eq_false_2. congruence. }
    destruct (0 <? sem_value σ) eqn:Hpos.
    + apply Nat.ltb_lt in Hpos.
      rewrite (wake_up_next_set_task σ1 i Woken (Posting 0)) by done.
      by apply wake_up_next_inv.
    + apply Nat.ltb_ge in Hpos. split; [done|].
      apply wake_ready_zero. simpl in *. lia.
  - (* Posting *)
    destruct (try_body (classifier i k)) as [response|e|] eqn:Hbody; [| |done];
      injection Hstep as <-.
    + unfold release.
      set (σ1 := mkLoopState (sem_value σ + 1) (sem_waiters σ) (tasks σ) (log σ)).
      rewrite (wake_up_next_set_task σ1 i (Posting k)) by done.
      apply wake_up_next_inv; [|simpl; lia].
      apply (queue_inv_set_task K K n _ σ i (Posting k)); try done; simpl; lia.
    + apply loop_inv_emit; [done..|]. split.
      * destruct σ as [v ws ts lg].
        apply (queue_inv_set_task K K n _ _ i (Posting k) (Sleeping k));
          try done; simpl in *; lia.
      * intros Hpos [t Ht]. simpl in *.
        destruct (Hready Hpos) as [t' Ht'].
        { exists t. destruct (decide (i = t)) as [->|Hne].
          - rewrite list_lookup_insert_eq in Ht by (by eapply lookup_lt_Some).
            done.
          - by rewrite list_lookup_insert_ne in Ht. }
        exists t'. rewrite list_lookup_insert_ne; [done|].
        intros ->. congruence.
  - (* Sleeping *)
    injection Hstep as <-. apply loop_inv_emit; [done..|]. split.
    + destruct σ as [v ws ts lg].
      apply (queue_inv_set_task K K n _ _ i (Sleeping k) (Posting (k + 1)));
        try done; simpl in *; lia.
    + intros Hpos [t Ht]. simpl in *.
      destruct (Hready Hpos) as [t' Ht'].
      { exists t. destruct (decide (i = t)) as [->|Hne].
        - rewrite list_lookup_insert_eq in Ht by (by eapply lookup_lt_Some).
          done.
        - by rewrite list_lookup_insert_ne in Ht. }
      exists t'. rewrite list_lookup_insert_ne; [done|].
      intros ->. congruence.
Qed.

End EventLoopInvariant.

(** ** The event loop: what a turn does *)

Lemma try_body_Ok (r : Reply) (response : string) :
  try_body r = Ok response →
  ∃ raw, r = Response 200 (Some raw)
         ∧ response = lower (strip raw)
         ∧ (response = "genuine" ∨ response = "spam").
Proof.
  destruct r as [|status [raw|]]; simpl; [done| |].
  - destruct (status =? 200) eqn:Es; [|done]. simpl.
    apply Nat.eqb_eq in Es as ->.
    destruct (String.eqb (lower (strip raw)) "genuine") eqn:Eg; simpl.
    + intros [= <-]. apply string_eqb_true in Eg. eauto.
    + destruct (String.eqb (lower (strip raw)) "spam") eqn:Es; [|done].
      intros [= <-]. apply string_eqb_true in Es. eauto.
  - by destruct (status =? 200).
Qed.

Lemma try_body_returns (r : Reply) : try_body r ≠ OutOfFuel.
Proof.
  destruct r as [|status [raw|]]; simpl; [done| |].
  - destruct (status =? 200); simpl; [|done].
    by destruct (String.eqb _ "genuine" || String.eqb _ "spam").
  - by destruct (status =? 200).
Qed.

(** ** The retry loop of one coroutine *)

Lemma call_openai_async_retry {duration : Type} (retry_delay : duration)
    (replies : nat → Reply) (fuel k : nat) (e : exn) :
  try_body (replies k) = Raise e →
  call_openai_async retry_delay replies (S fuel) k
  = ('(response, sleeps) ←
       call_openai_async retry_delay replies fuel (k + 1);
     Ok (response, retry_delay :: sleeps)).
Proof. intros H. simpl. by rewrite H. Qed.

Lemma call_openai_async_returns {duration : Type} (retry_delay : duration)
    (replies : nat → Reply) (n k : nat) (response : string) (fuel : nat) :
  (∀ j, j < n → ∃ e, try_body (replies (k + j)) = Raise e) →
  try_body (replies (k + n)) = Ok response →
  n < fuel →
  call_openai_async retry_delay replies fuel k
  = Ok (response, replicate n retry_delay).
Proof.
  revert k fuel. induction n as [|n IH]; intros k fuel Hfail Hok Hfuel;
    (destruct fuel as [|fuel]; [lia|]).
  - simpl. rewrite Nat.add_0_r in Hok. by rewrite Hok.
  - destruct (Hfail 0 ltac:(lia)) as [e He]. rewrite Nat.add_0_r in He.
    rewrite (call_openai_async_retry _ _ _ _ e He).
    rewrite (IH (k + 1) fuel); [done| | |lia].
    + intros j Hj. destruct (Hfail (S j) ltac:(lia)) as [e' He'].
      exists e'. by replace (k + 1 + j) with (k + S j) by lia.
    + by replace (k + 1 + n) with (k + S n) by lia.
Qed.

Lemma call_openai_async_Ok {duration : Type} (retry_delay : duration)
    (replies : nat → Reply) (fuel k : nat) (response : string)
    (sleeps : list duration) :
  call_openai_async retry_delay replies fuel k = Ok (response, sleeps) →
  ∃ j, try_body (replies (k + j)) = Ok response
       ∧ sleeps = replicate j retry_delay.
Proof.
  revert k sleeps. induction fuel as [|fuel IH]; intros k sleeps; [done|].
  simpl. destruct (try_body (replies k)) as [r|e|] eqn:Hk.
  - intros [= <- <-]. exists 0. by rewrite Nat.add_0_r.
  - destruct (call_openai_async retry_delay replies fuel (k + 1))
      as [[r s]| |] eqn:Hrec; [|done..].
    res_simpl. intros [= <- <-].
    destruct (IH _ _ Hrec) as (j & Hj & ->). exists (S j).
    split; [|done]. by replace (k + S j) with (k + 1 + j) by lia.
  - by destruct (try_body_returns (replies k)).
Qed.

Section EventLoopTurns.

Context {duration : Type}.
Variable retry_delay : duration.
Variable classifier : nat → nat → Reply.

Abbreviation State := (LoopState duration).

Lemma wake_up_next_summary (σ : State) :
  ∃ w : option nat,
    (∀ j, w = Some j → tasks σ !! j = Some Waiting)
    ∧ tasks (_wake_up_next σ) = wake_tasks w (tasks σ)
    ∧ log (_wake_up_next σ) = log σ ++ wake_events w.
Proof.
  unfold _wake_up_next.
  destruct (first_pending (tasks σ) (sem_waiters σ)) as [j|] eqn:Hj.
  - exists (Some j). split; [|done]. intros j' [= <-].
    by apply first_pending_Some in Hj as [_ Hj].
  - exists None. split; [done|]. simpl. by rewrite app_nil_r.
Qed.

Lemma step_task_summary (σ σ' : State) (i : nat) :
  step_task retry_delay classifier σ i = Some σ' →
  ∃ x y w es,
    tasks σ !! i = Some x
    ∧ task_move retry_delay classifier i x y es
    ∧ (∀ j, w = Some j →
         tasks σ !! j = Some Waiting
         ∧ (x = Woken ∨ ∃ k c, x = Posting k ∧ y = Returned c))
    ∧ tasks σ' = <[i:=y]> (wake_tasks w (tasks σ))
    ∧ log σ' = log σ ++ wake_events w ++ es.
Proof.
  unfold step_task. destruct (tasks σ !! i) as [t|] eqn:Hi; [|done].
  destruct t as [| | |k|k|c]; try done.
  - destruct (locked σ); intros [= <-].
    + exists Created, Waiting, None, [EvQueued i].
      split; [done|]. split; [constructor|]. by split.
    + exists Created, (Posting 0), None, [EvPost i 0].
      split; [done|]. split; [constructor|]. by split.
  - intros [= <-]. cbv zeta.
    set (σ1 := mkLoopState (sem_value σ) (deque_remove i (sem_waiters σ))
                 (tasks σ) (log σ)).
    destruct (0 <? sem_value σ).
    + destruct (wake_up_next_summary σ1) as (w & Hw & Ht & Hl).
      exists Woken, (Posting 0), w, [EvPost i 0].
      split; [done|]. split; [constructor|].
      split; [intros j Hj; split; [by apply Hw|by left]|].
      unfold emit, set_task. cbn [tasks log]. rewrite Ht, Hl.
      by rewrite <- app_assoc.
    + exists Woken, (Posting 0), None, [EvPost i 0].
      split; [done|]. split; [constructor|]. by split.
  - destruct (try_body (classifier i k)) as [response|e|] eqn:Hbody; [| |done];
      intros [= <-].
    + unfold release.
      set (σ1 := mkLoopState (sem_value σ + 1) (sem_waiters σ) (tasks σ) (log σ)).
      destruct (wake_up_next_summary σ1) as (w & Hw & Ht & Hl).
      exists (Posting k), (Returned (classification_of response)), w, [].
      split; [done|]. split; [by constructor|].
      split; [intros j Hj; split; [by apply Hw|right; eauto]|].
      unfold set_task. cbn [tasks log]. rewrite Ht, Hl.
      by rewrite app_nil_r.
    + exists (Posting k), (Sleeping k), None, [EvSleep i retry_delay].
      split; [done|]. split; [by econstructor|]. by split.
  - intros [= <-].
    exists (Sleeping k), (Posting (k + 1)), None, [EvPost i (k + 1)].
    split; [done|]. split; [constructor|]. by split.
Qed.

(** A task that can run: every state but waiting and returned. *)
Lemma step_task_enabled (σ : State) (i : nat) (t : TaskState) :
  tasks σ !! i = Some t → t ≠ Waiting → (∀ c, t ≠ Returned c) →
  ∃ σ', step_task retry_delay classifier σ i = Some σ'.
Proof.
  intros Hi Hw Hr. unfold step_task. rewrite Hi.
  destruct t as [| | |k|k|c]; try done; try (by eexists).
  - destruct (locked σ); by eexists.
  - pose proof (try_body_returns (classifier i k)).
    destruct (try_body (classifier i k)); [by eexists..|done].
  - by destruct (Hr c).
Qed.

Lemma run_turns_rtc (turns : list nat) (σ σ' : State) :
  run_turns retry_delay classifier turns σ = Some σ' →
  rtc (step retry_delay classifier) σ σ'.
Proof.
  revert σ. induction turns as [|i turns IH]; intros σ; simpl.
  - intros [= <-]. apply rtc_refl.
  - destruct (step_task retry_delay classifier σ i) as [σ1|] eqn:Hs; [|done].
    simpl. intros H. eapply rtc_l; [by exists i|by apply IH].
Qed.

Lemma gather_init_inv (K n : nat) :
  loop_inv K n (gather_init (duration := duration) K n).
Proof.
  split; [split; simpl|].
  - apply length_replicate.
  - unfold count_tasks.
    assert (List.filter is_holder (replicate n Created) = []) as ->; [|simpl; lia].
    induction n as [|n IH]; [done|]. simpl. apply IH.
  - constructor.
  - intros t. split; [by intros ?%elem_of_nil|].
    intros [H|H]; apply lookup_replicate in H as [? _]; done.
  - done.
  - intros _ [t Ht]. apply lookup_replicate in Ht as [? _]. done.
Qed.

Lemma reachable_inv (K n : nat) (σ σ' : State) :
  loop_inv K n σ → rtc (step retry_delay classifier) σ σ' → loop_inv K n σ'.
Proof.
  intros Hinv H. induction H as [σ|σ σ1 σ2 [i Hs] _ IH]; [done|].
  apply IH. by eapply step_task_inv.
Qed.

End EventLoopTurns.

(** ** The concurrency bound and the order of the queue *)

Lemma count_outstanding_le_holders (ts : list TaskState) :
  count_tasks is_outstanding ts ≤ count_tasks is_holder ts.
Proof.
  unfold count_tasks. induction ts as [|t ts IH]; [done|].
  destruct t; simpl; lia.
Qed.

Section ConcurrencyBound.

Context {duration : Type}.
Variable retry_delay : duration.
Variable classifier : nat → nat → Reply.

Abbreviation State := (LoopState duration).

(** C9. With the semaphore built for the concurrency limit [K], in every
    state that a run reaches at most [K] classifier invocations are
    outstanding. A task that starts when the
    permits are used up is queued at the tail of the deque; a task that
    waits stays waiting until the turn of another task wakes it, a task
    that returns and releases its permit or a woken task that passes on a
    free permit; and the tasks woken so far are the first tasks queued, in
    the order in which they were queued, the others still pending in that
    order. *)
Theorem concurrency_bound_and_fifo (concurrency : Z) (K n : nat) (σ : State) :
  new_semaphore concurrency = Ok K →
  rtc (step retry_delay classifier) (gather_init K n) σ →
  Z.of_nat K = concurrency
  ∧ count_tasks is_outstanding (tasks σ) ≤ K
  ∧ (∀ i σ',
       tasks σ !! i = Some Created →
       count_tasks is_holder (tasks σ) = K →
       step_task retry_delay classifier σ i = Some σ' →
       tasks σ' !! i = Some Waiting
       ∧ sem_waiters σ' = sem_waiters σ ++ [i])
  ∧ (∀ i j σ',
       tasks σ !! j = Some Waiting →
       step_task retry_delay classifier σ i = Some σ' →
       tasks σ' !! j = Some Waiting
       ∨ (tasks σ' !! j = Some Woken
          ∧ i ≠ j
          ∧ (tasks σ !! i = Some Woken
             ∨ ∃ k c, tasks σ !! i = Some (Posting k)
                      ∧ tasks σ' !! i = Some (Returned c))))
  ∧ queued_of (log σ)
    = woken_of (log σ) ++ pending (tasks σ) (sem_waiters σ).
Proof.
  intros Hsem Hreach.
  pose proof (reachable_inv retry_delay classifier K n _ _
                (gather_init_inv K n) Hreach) as [[H1 H2 H3 H4 H5] Hready].
  split; [|split; [|split; [|split; [|done]]]].
  - unfold new_semaphore in Hsem. case_bool_decide; [done|].
    injection Hsem as <-. lia.
  - pose proof (count_outstanding_le_holders (tasks σ)). lia.
  - intros i σ' Hi Hfull Hstep. unfold step_task in Hstep. rewrite Hi in Hstep.
    assert (locked σ = true) as Hlocked.
    { unfold locked. apply orb_true_iff. left. apply Nat.eqb_eq. lia. }
    rewrite Hlocked in Hstep. injection Hstep as <-. simpl.
    split; [|done]. apply list_lookup_insert_eq. by eapply lookup_lt_Some.
  - intros i j σ' Hj Hstep.
    destruct (step_task_summary retry_delay classifier σ σ' i Hstep)
      as (x & y & w & es & Hi & Hmove & Hw & Ht & _).
    assert (i ≠ j) as Hij.
    { intros ->. rewrite Hj in Hi. injection Hi as <-. inversion Hmove. }
    rewrite Ht, list_lookup_insert_ne by done.
    destruct w as [j'|]; simpl; [|by left].
    destruct (decide (j' = j)) as [->|Hne].
    + right. rewrite list_lookup_insert_eq by (by eapply lookup_lt_Some).
      split; [done|]. split; [done|].
      destruct (Hw j eq_refl) as [_ [->|(k & c & -> & ->)]]; [by left|].
      right. exists k, c. split; [done|].
      rewrite list_lookup_insert_eq; [done|].
      rewrite length_insert. by eapply lookup_lt_Some.
    + left. by rewrite list_lookup_insert_ne.
Qed.

End ConcurrencyBound.

Lemma concurrency_bound_and_fifo_witness :
  count_tasks is_outstanding (tasks three_records_state) ≤ 1
  ∧ queued_of (log three_records_state)
    = woken_of (log three_records_state)
      ++ pending (tasks three_records_state) (sem_waiters three_records_state).
Proof.
  assert (rtc (step tt spam_classifier) (gather_init 1 3) three_records_state)
    as H.
  { apply (run_turns_rtc tt spam_classifier [0; 1; 2; 0]).
    vm_compute. reflexivity. }
  destruct (concurrency_bound_and_fifo tt spam_classifier 1%Z 1 3
              three_records_state eq_refl H) as (_ & Hb & _ & _ & Hf).
  split; [exact Hb|exact Hf].
Defined.

(** ** The retries end: every task returns *)

Section Orchestration.

Context {duration : Type}.
Variable retry_delay : duration.
Variable classifier : nat → nat → Reply.
Variable schedule : LoopState duration → list nat.
Variable N : nat → nat.
Variables K n : nat.

Abbreviation State := (LoopState duration).

Hypothesis K_positive : 0 < K.
Hypothesis schedule_fair :
  ∀ (σ : State) (i : nat), i < length (tasks σ) → i ∈ schedule σ.
Hypothesis classifier_succeeds :
  ∀ i, i < n → succeeds_after classifier N i.

Lemma posts_of_app (i : nat) (l1 l2 : list (Event duration)) :
  posts_of i (l1 ++ l2) = posts_of i l1 ++ posts_of i l2.
Proof. apply omap_app. Qed.

Lemma sleeps_of_app (i : nat) (l1 l2 : list (Event duration)) :
  sleeps_of i (l1 ++ l2) = sleeps_of i l1 ++ sleeps_of i l2.
Proof. apply omap_app. Qed.

Lemma effects_of_wake (i : nat) (w : option nat) :
  posts_of i (wake_events (duration := duration) w) = []
  ∧ sleeps_of i (wake_events (duration := duration) w) = [].
Proof. by destruct w. Qed.

Lemma effects_of_other (i i' : nat) (x y : TaskState)
    (es : list (Event duration)) :
  task_move retry_delay classifier i x y es → i' ≠ i →
  posts_of i' es = [] ∧ sleeps_of i' es = [].
Proof.
  intros Hmove Hne. destruct Hmove; simpl;
    rewrite ?bool_decide_eq_false_2 by done; done.
Qed.

Lemma effects_of_post (i k : nat) :
  posts_of (duration := duration) i [EvPost i k] = [k]
  ∧ sleeps_of (duration := duration) i [EvPost i k] = [].
Proof. simpl. by rewrite bool_decide_eq_true_2. Qed.

Lemma effects_of_sleep (i : nat) (d : duration) :
  posts_of i [EvSleep i d] = [] ∧ sleeps_of i [EvSleep i d] = [d].
Proof. simpl. by rewrite bool_decide_eq_true_2. Qed.

Lemma retry_inv_init : retry_inv retry_delay classifier N (gather_init K n).
Proof.
  split. intros i t Ht. simpl in Ht.
  apply lookup_replicate in Ht as [-> _]. done.
Qed.

Lemma turns_left_wake (w : option nat) (ts : list TaskState) :
  (∀ j, w = Some j → ts !! j = Some Waiting) →
  turns_left N (wake_tasks w ts) = turns_left N ts.
Proof.
  intros Hw. destruct w as [j|]; [|done]. simpl.
  pose proof (turns_left_insert N ts j Woken Waiting (Hw j eq_refl)).
  simpl in *. lia.
Qed.

Lemma step_retry_inv (σ σ' : State) (i : nat) :
  length (tasks σ) = n →
  retry_inv retry_delay classifier N σ →
  step_task retry_delay classifier σ i = Some σ' →
  retry_inv retry_delay classifier N σ'
  ∧ turns_left N (tasks σ') < turns_left N (tasks σ).
Proof.
  intros Hlen [Hinv] Hstep.
  destruct (step_task_summary retry_delay classifier σ σ' i Hstep)
    as (x & y & w & es & Hi & Hmove & Hw & Ht & Hl).
  pose proof (lookup_lt_Some _ _ _ Hi) as Hlt.
  assert (w ≠ Some i) as Hwi.
  { intros ->. destruct (Hw i eq_refl) as [Hwait _].
    rewrite Hwait in Hi. injection Hi as <-. inversion Hmove. }
  assert (wake_tasks w (tasks σ) !! i = Some x) as Hi'.
  { destruct w as [j|]; [|done]. simpl.
    rewrite list_lookup_insert_ne; [done|]. congruence. }
  destruct (classifier_succeeds i ltac:(lia)) as [Hfail [response Hok]].
  pose proof (Hinv i x Hi) as Hx.
  destruct (effects_of_wake i w) as [Hwp Hws].
  split.
  - split. intros i' t Hi't. rewrite Ht in Hi't. rewrite Hl.
    rewrite !posts_of_app, !sleeps_of_app.
    destruct (effects_of_wake i' w) as [-> ->]. cbn [app].
    destruct (decide (i = i')) as [<-|Hne].
    + rewrite list_lookup_insert_eq in Hi't
        by (destruct w; simpl; rewrite ?length_insert; done).
      injection Hi't as <-. clear Hwp Hws.
      destruct Hmove as [| | |k r Hr|k e He|k].
      * destruct Hx as [-> ->]. done.
      * destruct Hx as [-> ->]. destruct (effects_of_post i 0) as [-> ->].
        split; [lia|done].
      * destruct Hx as [-> ->]. destruct (effects_of_post i 0) as [-> ->].
        split; [lia|done].
      * destruct Hx as (Hk & -> & ->). rewrite !app_nil_r.
        assert (k = N i) as ->.
        { destruct (decide (k = N i)) as [|Hne]; [done|].
          destruct (Hfail k ltac:(lia)) as [e He]. congruence. }
        split; [|done]. unfold verdict_of. by rewrite Hr.
      * destruct Hx as (Hk & -> & ->).
        destruct (effects_of_sleep i retry_delay) as [-> ->].
        assert (k ≠ N i) by (intros ->; congruence).
        split; [lia|]. split; [by rewrite app_nil_r|].
        by rewrite replicate_S_end.
      * destruct Hx as (Hk & -> & ->).
        destruct (effects_of_post i (k + 1)) as [-> ->].
        split; [lia|]. replace (k + 1) with (S k) by lia.
        split; [|by rewrite app_nil_r].
        by rewrite (seq_S (S k) 0).
    + rewrite list_lookup_insert_ne in Hi't by done.
      destruct (effects_of_other i i' x y es Hmove) as [-> ->]; [done|].
      rewrite !app_nil_r.
      destruct w as [j|]; simpl in Hi't; [|by apply Hinv].
      destruct (decide (j = i')) as [->|Hne'].
      * rewrite list_lookup_insert_eq in Hi't.
        -- injection Hi't as <-.
           destruct (Hw i' eq_refl) as [Hwait _]. apply (Hinv i' Waiting Hwait).
        -- destruct (Hw i' eq_refl) as [Hwait _]. by eapply lookup_lt_Some.
      * rewrite list_lookup_insert_ne in Hi't by done. by apply Hinv.
  - rewrite Ht.
    pose proof (turns_left_insert N _ i y x Hi') as Hturns.
    rewrite (turns_left_wake w) in Hturns by (intros j Hj; by apply Hw).
    assert (remaining N i y < remaining N i x); [|lia].
    clear Hturns. destruct Hmove as [| | |k r Hr|k e He|k]; simpl; lia.
Qed.

Lemma find_runnable (ts : list TaskState) :
  (∃ i t, ts !! i = Some t ∧ can_run t = true)
  ∨ (∀ i t, ts !! i = Some t → can_run t = false).
Proof.
  induction ts as [|t ts IH].
  - right. by intros i t.
  - destruct (can_run t) eqn:Ht; [left; by exists 0, t|].
    destruct IH as [(i & t' & Hi & Ht')|Hall].
    + left. by exists (S i), t'.
    + right. intros [|i] t' Hi; simpl in Hi.
      * by injection Hi as <-.
      * by apply (Hall i).
Qed.

Lemma not_all_returned (ts : list TaskState) :
  forallb is_returned ts = false →
  ∃ i t, ts !! i = Some t ∧ is_returned t = false.
Proof.
  induction ts as [|t ts IH]; [done|]. simpl.
  destruct (is_returned t) eqn:Ht; simpl.
  - intros H. destruct (IH H) as (i & t' & Hi & Ht'). by exists (S i), t'.
  - intros _. by exists 0, t.
Qed.

Lemma count_tasks_none (P : TaskState → bool) (ts : list TaskState) :
  (∀ i t, ts !! i = Some t → P t = false) → count_tasks P ts = 0.
Proof.
  unfold count_tasks. induction ts as [|t ts IH]; intros H; [done|]. simpl.
  rewrite (H 0 t) by done. apply IH. intros i t' Hi. by apply (H (S i)).
Qed.

(** No deadlock: while a task has not returned, some task can run. *)
Lemma loop_progress (σ : State) :
  loop_inv K n σ →
  forallb is_returned (tasks σ) = false →
  ∃ i σ', i < length (tasks σ)
          ∧ step_task retry_delay classifier σ i = Some σ'.
Proof.
  intros [[H1 H2 H3 H4 H5] Hready] Hsome.
  destruct (find_runnable (tasks σ)) as [(i & t & Hi & Ht)|Hnone].
  - destruct (step_task_enabled retry_delay classifier σ i t Hi) as [σ' Hs].
    + by intros ->.
    + by intros c ->.
    + exists i, σ'. split; [by eapply lookup_lt_Some|done].
  - exfalso.
    destruct (not_all_returned _ Hsome) as (j & t & Hj & Ht).
    assert (t = Waiting) as ->.
    { pose proof (Hnone j t Hj). by destruct t. }
    assert (count_tasks is_holder (tasks σ) = 0) as Hzero.
    { apply count_tasks_none. intros i t Hi.
      pose proof (Hnone i t Hi). by destruct t. }
    destruct Hready as [t' Ht']; [lia|by exists j|].
    pose proof (Hnone t' Woken Ht'). done.
Qed.

Lemma first_ready_Some (σ : State) (candidates : list nat) (i : nat)
    (σ1 : State) :
  i ∈ candidates →
  step_task retry_delay classifier σ i = Some σ1 →
  ∃ i' σ', first_ready retry_delay classifier σ candidates = Some σ'
           ∧ step_task retry_delay classifier σ i' = Some σ'.
Proof.
  induction candidates as [|c cs IH]; [by intros ?%elem_of_nil|].
  intros Hin Hs. simpl.
  destruct (step_task retry_delay classifier σ c) as [σc|] eqn:Hc.
  - by exists c, σc.
  - apply elem_of_cons in Hin as [->|Hin]; [congruence|]. by apply IH.
Qed.

(** The loop returns within the turns that are left, whatever the
    schedule. *)
Lemma event_loop_returns (m : nat) (σ : State) (fuel : nat) :
  loop_inv K n σ →
  retry_inv retry_delay classifier N σ →
  turns_left N (tasks σ) ≤ m → m < fuel →
  ∃ σ',
    event_loop retry_delay classifier schedule fuel σ = Ok σ'
    ∧ rtc (step retry_delay classifier) σ σ'
    ∧ loop_inv K n σ'
    ∧ retry_inv retry_delay classifier N σ'
    ∧ forallb is_returned (tasks σ') = true.
Proof.
  revert σ fuel. induction m as [|m IH]; intros σ fuel Hinv Hretry Hm Hfuel.
  - destruct fuel as [|fuel]; [lia|]. simpl.
    destruct (forallb is_returned (tasks σ)) eqn:Hall.
    + exists σ. split; [done|]. split; [apply rtc_refl|]. by split.
    + exfalso. destruct (loop_progress σ Hinv Hall) as (i & σ1 & Hi & Hs).
      destruct Hinv as [[Hlen _ _ _ _] _].
      destruct (step_retry_inv σ σ1 i Hlen Hretry Hs) as [_ Hlt]. lia.
  - destruct fuel as [|fuel]; [lia|]. simpl.
    destruct (forallb is_returned (tasks σ)) eqn:Hall.
    + exists σ. split; [done|]. split; [apply rtc_refl|]. by split.
    + destruct (loop_progress σ Hinv Hall) as (i & σ1 & Hi & Hs).
      destruct (first_ready_Some σ (schedule σ) i σ1 (schedule_fair σ i Hi) Hs)
        as (i' & σ2 & Hfirst & Hs').
      rewrite Hfirst.
      pose proof Hinv as [[Hlen _ _ _ _] _].
      destruct (step_retry_inv σ σ2 i' Hlen Hretry Hs') as [Hretry' Hlt].
      destruct (IH σ2 fuel) as (σ' & Hr & Hrtc & Hinv' & Hretry'' & Hall');
        [by eapply step_task_inv|done|lia|lia|].
      exists σ'. split; [done|]. split; [|done].
      eapply rtc_l; [by exists i'|done].
Qed.

End Orchestration.

Lemma group_by_locale_snoc
    (results : list (option (string * (string * string))))
    (r : option (string * (string * string))) :
  group_by_locale (results ++ [r])
  = match r with
    | Some (locale, entry) =>
        <[locale := default [] (group_by_locale results !! locale) ++ [entry]]>
          (group_by_locale results)
    | None => group_by_locale results
    end.
Proof. unfold group_by_locale. by rewrite foldl_app. Qed.

Lemma group_by_locale_lookup
    (results : list (option (string * (string * string)))) (locale : string) :
  group_by_locale results !! locale
  = if bool_decide (spam_of locale results = []) then None
    else Some (spam_of locale results).
Proof.
  induction results as [|r rs IH] using rev_ind; [done|].
  rewrite group_by_locale_snoc. unfold spam_of. rewrite omap_app.
  fold (spam_of locale rs). destruct r as [[l entry]|]; simpl.
  - destruct (decide (l = locale)) as [->|Hl].
    + rewrite (bool_decide_eq_true_2 (locale = locale)) by done.
      rewrite lookup_insert_eq, IH.
      rewrite (bool_decide_eq_false_2 (spam_of locale rs ++ [entry] = []))
        by (by destruct (spam_of locale rs)).
      by case_bool_decide as Hs; [rewrite Hs|].
    + rewrite (bool_decide_eq_false_2 (l = locale)) by done.
      by rewrite lookup_insert_ne, app_nil_r.
  - by rewrite app_nil_r.
Qed.

Lemma spam_of_check_results (verdict : nat → Classification)
    (locale : string) (changed : list Change) (ts : list TaskState)
    (k : nat) :
  (∀ i, i < length changed → ts !! i = Some (Returned (verdict (k + i)))) →
  spam_of locale (zip_with check_result changed ts)
  = omap (λ '(i, (l, msgid, msgstr)),
            if bool_decide (l = locale ∧ verdict i = Spam)
            then Some (msgid, msgstr) else None)
         (imap (λ i, pair (k + i)) changed).
Proof.
  revert ts k.
  induction changed as [|[[l mid] mst] cs IH]; intros ts k H; [done|].
  destruct ts as [|t ts]; [by specialize (H 0 ltac:(simpl; lia))|].
  pose proof (H 0 ltac:(simpl; lia)) as H0. simpl in H0.
  injection H0 as ->. rewrite Nat.add_0_r.
  assert (spam_of locale (zip_with check_result cs ts)
          = omap (λ '(i, (l, msgid, msgstr)),
                    if bool_decide (l = locale ∧ verdict i = Spam)
                    then Some (msgid, msgstr) else None)
                 (imap ((λ i, pair (k + i)) ∘ S) cs)) as Htail.
  { rewrite (IH ts (S k)).
    - f_equal. apply imap_ext. intros i x _. simpl. f_equal. lia.
    - intros i Hi. specialize (H (S i) ltac:(simpl; lia)). simpl in H.
      rewrite H. do 3 f_equal. lia. }
  rewrite imap_cons. cbn [zip_with]. unfold spam_of in *. csimpl.
  rewrite Nat.add_0_r, <- Htail. unfold check_result.
  destruct (verdict k); simpl.
  - rewrite bool_decide_eq_false_2; [done|]. by intros [_ ?].
  - destruct (decide (l = locale)) as [->|Hne].
    + by rewrite !bool_decide_eq_true_2.
    + rewrite !bool_decide_eq_false_2; [done| |done]. by intros [? _].
Qed.

(** C4. When the classifier fails [N i] times for record [i] and then
    succeeds, the semaphore has at least one permit and the schedule leaves
    no task out, the orchestration returns, whatever the numbers [N i]: with
    fuel for the turns of all tasks the event loop ends with every task
    returned, [gather] has exactly one result per record, in the order of
    the records and with the verdict of the successful request: the record
    itself where the verdict is Spam, [None] where it is Genuine. The dict
    that [scan_diff_async] returns has for each locale the records of the
    locale whose verdict is Spam, in the order of the records, and no key
    for a locale without such a record: no record with the verdict Spam is
    missing from it. For each record the log has the [N i + 1] requests
    and, after each failure, one sleep of the retry delay; the verdict is
    the one that [classify_translation_async] returns for the record on its
    own. *)
Theorem orchestration_returns_every_verdict {duration : Type}
    (retry_delay : duration) (classifier : nat → nat → Reply)
    (schedule : LoopState duration → list nat)
    (PatchSet : string → res (list PatchedFile)) (value : nat)
    (diff_text : string) (changed : list Change) (N : nat → nat) (fuel : nat) :
  0 < value →
  (∀ (σ : LoopState duration) (i : nat),
     i < length (tasks σ) → i ∈ schedule σ) →
  parse_po_diff PatchSet diff_text = Ok changed →
  (∀ i, i < length changed → succeeds_after classifier N i) →
  turns_left N (replicate (length changed) Created) < fuel →
  ∃ σ results by_locale,
    event_loop retry_delay classifier schedule fuel
      (gather_init value (length changed)) = Ok σ
    ∧ scan_diff_async retry_delay classifier schedule fuel PatchSet value
        diff_text
      = Ok (results, by_locale)
    ∧ length results = length changed
    ∧ (∀ i locale msgid msgstr,
         changed !! i = Some (locale, msgid, msgstr) →
         tasks σ !! i = Some (Returned (verdict_of classifier N i))
         ∧ results !! i
           = Some (match verdict_of classifier N i with
                   | Spam => Some (locale, (msgid, msgstr))
                   | Genuine => None
                   end)
         ∧ posts_of i (log σ) = seq 0 (S (N i))
         ∧ sleeps_of i (log σ) = replicate (N i) retry_delay
         ∧ classify_translation_async retry_delay (classifier i) (S (N i))
           = Ok (verdict_of classifier N i))
    ∧ (∀ locale,
         by_locale !! locale
         = if bool_decide
                (spam_records (verdict_of classifier N) locale changed = [])
           then None
           else Some (spam_records (verdict_of classifier N) locale changed))
    ∧ (∀ i locale msgid msgstr,
         changed !! i = Some (locale, msgid, msgstr) →
         verdict_of classifier N i = Spam →
         ∃ entries,
           by_locale !! locale = Some entries ∧ (msgid, msgstr) ∈ entries).
Proof.
  intros Hvalue Hfair Hparse Hsucc Hfuel.
  destruct (event_loop_returns retry_delay classifier schedule N value
              (length changed) Hvalue Hfair Hsucc
              (turns_left N (replicate (length changed) Created))
              (gather_init value (length changed)) fuel)
    as (σ & Hloop & _ & [[Hlen _ _ _ _] _] & [Hretry] & Hall);
    [apply gather_init_inv|apply retry_inv_init|done..|].
  assert (∀ i, i < length changed →
            tasks σ !! i = Some (Returned (verdict_of classifier N i))
            ∧ posts_of i (log σ) = seq 0 (S (N i))
            ∧ sleeps_of i (log σ) = replicate (N i) retry_delay) as Htasks.
  { intros i Hi.
    destruct (lookup_lt_is_Some_2 (tasks σ) i ltac:(lia)) as [t Ht].
    pose proof (Hretry i t Ht) as Hinv.
    assert (is_returned t = true) as Hret.
    { apply (proj1 (forallb_forall _ _) Hall). apply list_elem_of_In.
      apply list_elem_of_lookup. eauto. }
    destruct t; try done. by destruct Hinv as (-> & ? & ?). }
  exists σ, (zip_with check_result changed (tasks σ)),
    (group_by_locale (zip_with check_result changed (tasks σ))).
  assert (∀ locale,
            group_by_locale (zip_with check_result changed (tasks σ)) !! locale
            = if bool_decide
                   (spam_records (verdict_of classifier N) locale changed = [])
              then None
              else Some (spam_records (verdict_of classifier N) locale
                           changed)) as Hdict.
  { intros locale. rewrite group_by_locale_lookup. unfold spam_records.
    by rewrite (spam_of_check_results (verdict_of classifier N) locale
                  changed (tasks σ) 0)
      by (intros i Hi; apply (Htasks i Hi)). }
  split; [done|]. split; [|split; [|split; [|split; [done|]]]].
  - unfold scan_diff_async. rewrite Hparse. res_simpl.
    destruct changed as [|c changed'] eqn:Hc.
    + simpl in Hlen. destruct (tasks σ); [done|discriminate].
    + rewrite <- Hc in *. rewrite Hloop. done.
  - rewrite length_zip_with; lia.
  - intros i locale msgid msgstr Hi.
    destruct (Htasks i (lookup_lt_Some _ _ _ Hi)) as (Ht & Hp & Hs).
    split; [done|]. split.
    { apply lookup_zip_with_Some.
      exists (locale, msgid, msgstr), (Returned (verdict_of classifier N i)).
      split; [|done]. simpl. by destruct (verdict_of classifier N i). }
    split; [done|]. split; [done|].
    destruct (Hsucc i (lookup_lt_Some _ _ _ Hi)) as [Hfail [response Hok]].
    unfold classify_translation_async, verdict_of.
    rewrite (call_openai_async_returns retry_delay (classifier i) (N i) 0
               response (S (N i))); [by rewrite Hok|done|done|lia].
  - intros i locale msgid msgstr Hi Hspam. rewrite Hdict.
    assert ((msgid, msgstr)
            ∈ spam_records (verdict_of classifier N) locale changed) as Hin.
    { unfold spam_records. apply list_elem_of_omap.
      exists (i, (locale, msgid, msgstr)). split.
      - apply elem_of_lookup_imap. by exists i, (locale, msgid, msgstr).
      - simpl. by rewrite bool_decide_eq_true_2. }
    case_bool_decide as He; [|eauto].
    rewrite He in Hin. by apply elem_of_nil in Hin.
Qed.

Lemma orchestration_returns_every_verdict_witness :
  ∃ σ results by_locale,
    event_loop tt flaky_classifier in_order 6
      (gather_init 1 (length [("de_DE", "Wallet", "Geldbeutel")])) = Ok σ
    ∧ scan_diff_async tt flaky_classifier in_order 6 wallet_PatchSet 1
        wallet_diff
      = Ok (results, by_locale)
    ∧ length results = length [("de_DE", "Wallet", "Geldbeutel")]
    ∧ (∀ i locale msgid msgstr,
         [("de_DE", "Wallet", "Geldbeutel")] !! i
         = Some (locale, msgid, msgstr) →
         tasks σ !! i
         = Some (Returned (verdict_of flaky_classifier (λ _, 1) i))
         ∧ results !! i
           = Some (match verdict_of flaky_classifier (λ _, 1) i with
                   | Spam => Some (locale, (msgid, msgstr))
                   | Genuine => None
                   end)
         ∧ posts_of i (log σ) = seq 0 (S 1)
         ∧ sleeps_of i (log σ) = replicate 1 tt
         ∧ classify_translation_async tt (flaky_classifier i) (S 1)
           = Ok (verdict_of flaky_classifier (λ _, 1) i))
    ∧ (∀ locale,
         by_locale !! locale
         = if bool_decide
                (spam_records (verdict_of flaky_classifier (λ _, 1)) locale
                   [("de_DE", "Wallet", "Geldbeutel")] = [])
           then None
           else Some (spam_records (verdict_of flaky_classifier (λ _, 1))
                        locale [("de_DE", "Wallet", "Geldbeutel")]))
    ∧ (∀ i locale msgid msgstr,
         [("de_DE", "Wallet", "Geldbeutel")] !! i
         = Some (locale, msgid, msgstr) →
         verdict_of flaky_classifier (λ _, 1) i = Spam →
         ∃ entries,
           by_locale !! locale = Some entries ∧ (msgid, msgstr) ∈ entries).
Proof.
  apply (orchestration_returns_every_verdict tt flaky_classifier in_order
           wallet_PatchSet 1 wallet_diff [("de_DE", "Wallet", "Geldbeutel")]
           (λ _, 1) 6).
  - lia.
  - intros σ i Hi. apply elem_of_seq. lia.
  - vm_compute. reflexivity.
  - intros i Hi. split.
    + intros k Hk. assert (k = 0) as -> by lia. by exists ClientError.
    + by exists "spam".
  - vm_compute. lia.
Defined.

(** C3. A reply whose payload, trimmed and lowercased, is neither genuine
    nor spam makes the [assert] fail: the attempt is a failure, the task
    sleeps the retry delay and sends the same request again; and a task
    returns a classification only on a reply with status 200 whose payload
    normalises to one of the two tokens, Genuine for genuine and Spam for
    spam. The same holds of [call_openai_async] and
    [classify_translation_async] read as one coroutine on its own. *)
Theorem unrecognised_payload_is_retried {duration : Type}
    (retry_delay : duration) (classifier : nat → nat → Reply) :
  (∀ raw : string,
     lower (strip raw) ≠ "genuine" → lower (strip raw) ≠ "spam" →
     try_body (Response 200 (Some raw)) = Raise AssertionError)
  ∧ (∀ (σ : LoopState duration) (i k : nat) (raw : string),
       tasks σ !! i = Some (Posting k) →
       classifier i k = Response 200 (Some raw) →
       lower (strip raw) ≠ "genuine" → lower (strip raw) ≠ "spam" →
       step_task retry_delay classifier σ i
       = Some (emit (EvSleep i retry_delay) (set_task i (Sleeping k) σ))
       ∧ step_task retry_delay classifier
           (emit (EvSleep i retry_delay) (set_task i (Sleeping k) σ)) i
         = Some (emit (EvPost i (k + 1))
                   (set_task i (Posting (k + 1))
                      (emit (EvSleep i retry_delay)
                         (set_task i (Sleeping k) σ)))))
  ∧ (∀ (σ σ' : LoopState duration) (j i : nat) (c : Classification),
       step_task retry_delay classifier σ j = Some σ' →
       tasks σ' !! i = Some (Returned c) →
       tasks σ !! i = Some (Returned c)
       ∨ (j = i
          ∧ ∃ k raw,
              tasks σ !! i = Some (Posting k)
              ∧ classifier i k = Response 200 (Some raw)
              ∧ ((lower (strip raw) = "genuine" ∧ c = Genuine)
                 ∨ (lower (strip raw) = "spam" ∧ c = Spam))))
  ∧ (∀ (replies : nat → Reply) (fuel k : nat) (raw : string),
       replies k = Response 200 (Some raw) →
       lower (strip raw) ≠ "genuine" → lower (strip raw) ≠ "spam" →
       call_openai_async retry_delay replies (S fuel) k
       = ('(response, sleeps) ←
            call_openai_async retry_delay replies fuel (k + 1);
          Ok (response, retry_delay :: sleeps)))
  ∧ (∀ (replies : nat → Reply) (fuel : nat) (c : Classification),
       classify_translation_async retry_delay replies fuel = Ok c →
       ∃ k raw,
         replies k = Response 200 (Some raw)
         ∧ ((lower (strip raw) = "genuine" ∧ c = Genuine)
            ∨ (lower (strip raw) = "spam" ∧ c = Spam))).
Proof.
  assert (∀ raw : string,
            lower (strip raw) ≠ "genuine" → lower (strip raw) ≠ "spam" →
            try_body (Response 200 (Some raw)) = Raise AssertionError) as Hbody.
  { intros raw Hg Hs. simpl.
    apply string_eqb_false in Hg. apply string_eqb_false in Hs.
    by rewrite Hg, Hs. }
  split; [done|]. split; [|split; [|split]]; cycle 2.
  { intros replies fuel k raw Hk Hg Hs.
    apply (call_openai_async_retry _ _ _ _ AssertionError).
    rewrite Hk. by apply Hbody. }
  { intros replies fuel c. unfold classify_translation_async.
    destruct (call_openai_async retry_delay replies fuel 0)
      as [[response sleeps]| |] eqn:Hcall; [|done..].
    res_simpl. intros [= <-].
    destruct (call_openai_async_Ok _ _ _ _ _ _ Hcall) as (j & Hj & _).
    destruct (try_body_Ok _ _ Hj) as (raw & Hreply & -> & Hcase).
    exists (0 + j), raw. split; [done|].
    destruct Hcase as [Hc|Hc]; rewrite Hc; [by left|by right]. }
  - intros σ i k raw Hi Hreply Hg Hs. split.
    + unfold step_task. by rewrite Hi, Hreply, (Hbody raw Hg Hs).
    + unfold step_task. simpl.
      rewrite list_lookup_insert_eq by (by eapply lookup_lt_Some). done.
  - intros σ σ' j i c Hstep Hi.
    destruct (step_task_summary retry_delay classifier σ σ' j Hstep)
      as (x & y & w & es & Hj & Hmove & Hw & Ht & _).
    rewrite Ht in Hi. destruct (decide (j = i)) as [->|Hne].
    + right. split; [done|].
      assert (i < length (wake_tasks w (tasks σ))) as Hlt.
      { apply lookup_lt_Some in Hj. destruct w; simpl;
          by rewrite ?length_insert. }
      rewrite list_lookup_insert_eq in Hi by done. injection Hi as ->.
      inversion Hmove as [| | |k response Hr Hx Hy Hes| |]; subst.
      destruct (try_body_Ok _ _ Hr) as (raw & Hreply & -> & Hcase).
      exists k, raw. split; [done|]. split; [done|].
      destruct Hcase as [Hc|Hc]; rewrite Hc; [by left|by right].
    + left. rewrite list_lookup_insert_ne in Hi by done.
      destruct w as [j'|]; [|done]. simpl in Hi.
      destruct (decide (j' = i)) as [->|Hne'].
      * rewrite list_lookup_insert_eq in Hi; [done|].
        destruct (Hw i eq_refl) as [Hwait _]. by eapply lookup_lt_Some.
      * by rewrite list_lookup_insert_ne in Hi.
Qed.

(** [run_diff_check_async] returns only with a semaphore that could be
    built, and reports as checked the number of the records. *)
Lemma run_diff_check_async_checked {duration : Type} (retry_delay : duration)
    (classifier : nat → nat → Reply)
    (schedule : LoopState duration → list nat) (fuel : nat)
    (PatchSet : string → res (list PatchedFile)) (concurrency : Z)
    (diff_text : string) (total_checked total_spam : nat)
    (spam_entries : gmap string (list (string * string))) :
  run_diff_check_async retry_delay classifier schedule fuel PatchSet
    concurrency diff_text
  = Ok (total_checked, total_spam, spam_entries) →
  (0 ≤ concurrency)%Z
  ∧ ∃ changed,
      parse_po_diff PatchSet diff_text = Ok changed
      ∧ total_checked = length changed.
Proof.
  unfold run_diff_check_async, new_semaphore.
  case_bool_decide as Hneg; [done|]. res_simpl.
  destruct (scan_diff_async _ _ _ _ _ _ _) as [[results by_locale]| |];
    [|done..].
  res_simpl.
  destruct (parse_po_diff PatchSet diff_text) as [changed| |]; [|done..].
  res_simpl. intros [= <- _ _]. split; [lia|]. by exists changed.
Qed.

(** ** PO strings: the escaping is undone, entries are read back *)

Lemma _unescape_po_copy (a : ascii) (s : string) :
  a ≠ BACKSLASH →
  _unescape_po (String a s) = (t ← _unescape_po s; Ok (String a t)).
Proof.
  intros Ha. apply Ascii.eqb_neq in Ha. destruct s as [|c r]; [done|].
  change (_unescape_po (String a (String c r))) with
    (if Ascii.eqb a BACKSLASH && escape_class c then
       getitem _PO_ESCAPES (String a (String c "")) ≫= λ v,
       _unescape_po r ≫= λ t, Ok (v +:+ t)
     else _unescape_po (String c r) ≫= λ t, Ok (String a t)).
  by rewrite Ha.
Qed.

Lemma _unescape_po_escape (c c' : ascii) (s : string) :
  escape_pair c c' →
  _unescape_po (String BACKSLASH (String c s))
  = (t ← _unescape_po s; Ok (String c' t)).
Proof.
  intros Hc.
  change (_unescape_po (String BACKSLASH (String c s))) with
    (if Ascii.eqb BACKSLASH BACKSLASH && escape_class c then
       getitem _PO_ESCAPES (String BACKSLASH (String c "")) ≫= λ v,
       _unescape_po s ≫= λ t, Ok (v +:+ t)
     else _unescape_po (String c s) ≫= λ t, Ok (String BACKSLASH t)).
  rewrite (proj2 (escape_class_spec c)) by eauto.
  rewrite (getitem_escape c c' Hc). simpl. by destruct (_unescape_po s).
Qed.

Lemma escape_char_cases (c : ascii) :
  (escape_char c = String c "" ∧ c ≠ BACKSLASH ∧ c ≠ LF ∧ c ≠ DQUOTE)
  ∨ ∃ e, escape_char c = String BACKSLASH (String e "") ∧ escape_pair e c
         ∧ e ≠ LF.
Proof.
  unfold escape_char.
  destruct (Ascii.eqb c BACKSLASH) eqn:E1.
  { apply Ascii.eqb_eq in E1 as ->. right. eexists. split; [done|].
    split; [constructor|done]. }
  destruct (Ascii.eqb c LF) eqn:E2.
  { apply Ascii.eqb_eq in E2 as ->. right. eexists. split; [done|].
    split; [constructor|done]. }
  destruct (Ascii.eqb c TAB) eqn:E3.
  { apply Ascii.eqb_eq in E3 as ->. right. eexists. split; [done|].
    split; [constructor|done]. }
  destruct (Ascii.eqb c DQUOTE) eqn:E4.
  { apply Ascii.eqb_eq in E4 as ->. right. eexists. split; [done|].
    split; [constructor|done]. }
  left. apply Ascii.eqb_neq in E1, E2, E4. done.
Qed.

Lemma _unescape_po_escape_po (s : string) : _unescape_po (escape_po s) = Ok s.
Proof.
  induction s as [|c s IH]; [done|]. cbn [escape_po].
  destruct (escape_char_cases c) as [(-> & Hb & _)|(e & -> & He & _)].
  - rewrite app_String, app_empty_l, _unescape_po_copy, IH by done. done.
  - rewrite !app_String, app_empty_l, (_unescape_po_escape e c) by done.
    by rewrite IH.
Qed.

Lemma escape_po_no_newline (s : string) : no_newline (escape_po s) = true.
Proof.
  induction s as [|c s IH]; [done|]. cbn [escape_po].
  destruct (escape_char_cases c) as [(-> & _ & Hn & _)|(e & -> & _ & Hn)].
  - rewrite app_String, app_empty_l. simpl. rewrite IH.
    unfold re.dot. by rewrite (proj2 (Ascii.eqb_neq c LF)).
  - rewrite !app_String, app_empty_l. simpl. rewrite IH.
    unfold re.dot. by rewrite (proj2 (Ascii.eqb_neq e LF)).
Qed.

Lemma escape_po_app (s t : string) :
  escape_po (s +:+ t) = escape_po s +:+ escape_po t.
Proof.
  induction s as [|c s IH]; [done|].
  rewrite app_String. cbn [escape_po]. by rewrite IH, app_assoc_str.
Qed.

Lemma escape_po_join (vs : list string) :
  escape_po (join vs) = join (escape_po <$> vs).
Proof.
  induction vs as [|v vs IH]; [done|]. simpl.
  by rewrite escape_po_app, IH.
Qed.

Lemma match_quoted_line_quoted (g : string) :
  no_newline g = true → re.match_quoted_line (quoted g) = Some g.
Proof. intros Hg. apply match_quoted_line_spec. split; [done|]. by left. Qed.

Lemma continuation_loop_quoted (gs : list string) (pre rest parts : list string)
    (fuel : nat) :
  Forall (λ g, no_newline g = true) gs →
  head_not_quoted rest →
  length gs < fuel →
  continuation_loop fuel (pre ++ (quoted <$> gs) ++ rest) parts (length pre)
  = Ok (parts ++ gs, length pre + length gs).
Proof.
  revert pre parts fuel.
  induction gs as [|g gs IH]; intros pre parts fuel Hgs Hrest Hfuel;
    (destruct fuel as [|fuel]; [lia|]); cbn [continuation_loop].
  - rewrite app_nil_r, Nat.add_0_r. simpl. case_bool_decide as Hlt; [|done].
    rewrite <- (Nat.add_0_r (length pre)) at 1. rewrite index_app_at.
    unfold index. destruct (rest !! 0) as [line|] eqn:Hl.
    + res_simpl. by rewrite (Hrest line Hl).
    + apply lookup_ge_None in Hl. rewrite length_app in Hlt. lia.
  - apply Forall_cons in Hgs as [Hg Hgs].
    rewrite bool_decide_eq_true_2 by (rewrite !length_app; simpl; lia).
    rewrite <- (Nat.add_0_r (length pre)) at 1. rewrite index_app_at.
    change (index ((quoted <$> g :: gs) ++ rest) 0) with (Ok (quoted g)).
    res_simpl. rewrite (match_quoted_line_quoted g Hg).
    change (pre ++ (quoted <$> g :: gs) ++ rest)
      with (pre ++ [quoted g] ++ ((quoted <$> gs) ++ rest)).
    rewrite (app_assoc pre [quoted g]).
    replace (length pre + 1) with (length (pre ++ [quoted g]))
      by (rewrite length_app; simpl; lia).
    rewrite IH by (done || simpl in *; lia).
    rewrite <- app_assoc, length_app. simpl. do 2 f_equal. lia.
Qed.

Lemma keyword_line_found (kw0 g : string) :
  no_quote kw0 = true → no_newline g = true →
  re.search_quoted ((kw0 +:+ dq) +:+ g +:+ dq) = Some g.
Proof.
  intros Hkw Hg.
  replace ((kw0 +:+ dq) +:+ g +:+ dq) with (kw0 +:+ dq +:+ g +:+ dq +:+ "")
    by (by rewrite app_empty_r, app_assoc_str).
  by apply search_quoted_first_quote.
Qed.

Lemma extract_po_value_lines (kw0 : string) (chunks : string * list string)
    (pre rest : list string) :
  no_quote kw0 = true →
  head_not_quoted rest →
  _extract_po_string_lines
    (pre ++ po_value_lines (kw0 +:+ dq) chunks ++ rest) (length pre)
  = Ok (chunks_value chunks, length pre + S (length chunks.2)).
Proof.
  intros Hkw Hrest. destruct chunks as [c cs]. unfold po_value_lines.
  cbn [fst snd]. unfold _extract_po_string_lines.
  rewrite <- (Nat.add_0_r (length pre)) at 1. rewrite index_app_at.
  cbn [app index lookup list_lookup]. res_simpl.
  rewrite keyword_line_found by (done || apply escape_po_no_newline).
  set (first := (kw0 +:+ dq) +:+ escape_po c +:+ dq).
  change (pre ++ first :: ((λ c0, quoted (escape_po c0)) <$> cs) ++ rest)
    with (pre ++ [first] ++ (((λ c0, quoted (escape_po c0)) <$> cs) ++ rest)).
  rewrite (app_assoc pre [first]).
  replace (length pre + 1) with (length (pre ++ [first]))
    by (rewrite length_app; simpl; lia).
  replace ((λ c0, quoted (escape_po c0)) <$> cs)
    with (quoted <$> (escape_po <$> cs))
    by (by rewrite <- list_fmap_compose).
  rewrite continuation_loop_quoted; [|..|done|].
  - res_simpl.
    change ([escape_po c] ++ (escape_po <$> cs)) with (escape_po <$> c :: cs).
    rewrite <- escape_po_join, _unescape_po_escape_po. res_simpl.
    unfold chunks_value. cbn [fst snd]. rewrite length_app, length_fmap.
    do 2 f_equal. simpl. lia.
  - apply Forall_fmap, Forall_forall. intros x _. apply escape_po_no_newline.
  - rewrite !length_app, !length_fmap. simpl. lia.
Qed.

Lemma keyword_line_startswith (kw e : string) :
  startswith (kw +:+ e +:+ dq) kw = true.
Proof. apply startswith_spec. by exists (e +:+ dq). Qed.

Lemma keyword_line_not_quoted (kw0 e : string) (c : ascii) :
  c ≠ DQUOTE →
  re.match_quoted_line ((String c kw0 +:+ dq) +:+ e +:+ dq) = None.
Proof.
  intros Hc. rewrite !app_String. unfold re.match_quoted_line.
  by rewrite (proj2 (Ascii.eqb_neq c DQUOTE)).
Qed.

Lemma po_print_head_not_quoted
    (entries : list ((string * list string) * (string * list string))) :
  head_not_quoted (po_print entries).
Proof.
  intros line Hl. destruct entries as [|[[k ks] v] entries]; [done|].
  injection Hl as <-. by apply (keyword_line_not_quoted "sgid ").
Qed.

Lemma length_po_value_lines (kw : string) (chunks : string * list string) :
  length (po_value_lines kw chunks) = S (length chunks.2).
Proof. unfold po_value_lines. simpl. by rewrite length_fmap. Qed.

Lemma pairs_loop_po_entry (fuel : nat)
    (entry : (string * list string) * (string * list string))
    (pre rest : list string) (pairs : list (string * string)) :
  head_not_quoted rest →
  pairs_loop (S fuel) (pre ++ po_entry_lines entry ++ rest) pairs (length pre)
  = pairs_loop fuel (pre ++ po_entry_lines entry ++ rest)
      (pairs ++ filter (λ p, p.1 ≠ "") [entry_pair entry])
      (length pre + length (po_entry_lines entry)).
Proof.
  intros Hrest. destruct entry as [key value].
  unfold po_entry_lines. cbn [fst snd].
  set (lines := pre ++ (po_value_lines msgid_kw key
                        ++ po_value_lines msgstr_kw value) ++ rest).
  cbn [pairs_loop].
  assert (length lines
          = length pre + S (length key.2) + S (length value.2) + length rest)
    as Hlen.
  { unfold lines. rewrite !length_app, !length_po_value_lines. lia. }
  rewrite bool_decide_eq_true_2 by lia.
  assert (index lines (length pre)
          = Ok (msgid_kw +:+ escape_po key.1 +:+ dq)) as ->.
  { unfold lines, index. by rewrite lookup_app_r, Nat.sub_diag by lia. }
  res_simpl. rewrite keyword_line_startswith.
  (* the key *)
  assert (_extract_po_string_lines lines (length pre)
          = Ok (chunks_value key, length pre + S (length key.2))) as ->.
  { unfold lines. rewrite <- app_assoc.
    apply (extract_po_value_lines "msgid "); [done|].
    intros line [= <-]. by apply (keyword_line_not_quoted "sgstr "). }
  res_simpl.
  (* the value *)
  assert (extract_msgstr lines (length pre + S (length key.2))
          = Ok (chunks_value value,
                length pre + S (length key.2) + S (length value.2))) as ->.
  { unfold extract_msgstr, line_startswith.
    rewrite bool_decide_eq_true_2 by lia.
    assert (lines = (pre ++ po_value_lines msgid_kw key)
                    ++ po_value_lines msgstr_kw value ++ rest) as Hl.
    { unfold lines. by rewrite <- !app_assoc. }
    assert (length pre + S (length key.2)
            = length (pre ++ po_value_lines msgid_kw key)) as Hi.
    { by rewrite length_app, length_po_value_lines. }
    rewrite Hl, Hi.
    assert (index ((pre ++ po_value_lines msgid_kw key)
                   ++ po_value_lines msgstr_kw value ++ rest)
              (length (pre ++ po_value_lines msgid_kw key))
            = Ok (msgstr_kw +:+ escape_po value.1 +:+ dq)) as ->.
    { unfold index. by rewrite lookup_app_r, Nat.sub_diag by lia. }
    res_simpl. rewrite keyword_line_startswith.
    by apply (extract_po_value_lines "msgstr "). }
  res_simpl. rewrite !length_app, !length_po_value_lines.
  replace (length pre + (S (length key.2) + S (length value.2)))
    with (length pre + S (length key.2) + S (length value.2)) by lia.
  unfold entry_pair. cbn [fst snd].
  destruct (String.eqb (chunks_value key) "") eqn:E.
  - apply string_eqb_true in E. rewrite filter_cons_False by (simpl; tauto).
    by rewrite filter_nil, app_nil_r.
  - apply string_eqb_false in E. rewrite filter_cons_True by done.
    by rewrite filter_nil.
Qed.

Lemma pairs_loop_po_print
    (entries : list ((string * list string) * (string * list string)))
    (pre : list string) (pairs : list (string * string)) (fuel : nat) :
  length entries < fuel →
  pairs_loop fuel (pre ++ po_print entries) pairs (length pre)
  = Ok (pairs ++ filter (λ p, p.1 ≠ "") (entry_pair <$> entries)).
Proof.
  revert pre pairs fuel.
  induction entries as [|e entries IH]; intros pre pairs fuel Hfuel;
    (destruct fuel as [|fuel]; [lia|]).
  - cbn [pairs_loop]. unfold po_print. simpl. rewrite !app_nil_r.
    by rewrite bool_decide_eq_false_2 by lia.
  - unfold po_print. rewrite fmap_cons. cbn [concat].
    fold (po_print entries).
    rewrite pairs_loop_po_entry by apply po_print_head_not_quoted.
    rewrite app_assoc, <- length_app.
    rewrite IH by (simpl in Hfuel; lia).
    rewrite <- app_assoc. f_equal. f_equal.
    rewrite fmap_cons. change (entry_pair e :: (entry_pair <$> entries))
      with ([entry_pair e] ++ (entry_pair <$> entries)).
    by rewrite filter_app.
Qed.

Lemma length_po_print
    (entries : list ((string * list string) * (string * list string))) :
  length entries ≤ length (po_print entries).
Proof.
  induction entries as [|e entries IH]; [done|].
  unfold po_print in *. rewrite fmap_cons. cbn [concat].
  rewrite length_app.
  assert (1 ≤ length (po_entry_lines e)); [|simpl; lia].
  unfold po_entry_lines. rewrite length_app, !length_po_value_lines. lia.
Qed.

(** X1. The scanner reads back what a PO file writes: for every sequence
    of entries, each written as its key line and its value line with the
    four escape sequences, a value possibly wrapped over continuation lines,
    [_extract_pairs_from_lines] returns the pairs of the entries in their
    order, without the entries whose key is empty. *)
Theorem po_print_parse
    (entries : list ((string * list string) * (string * list string))) :
  _extract_pairs_from_lines (po_print entries)
  = Ok (filter (λ p, p.1 ≠ "") (entry_pair <$> entries)).
Proof.
  unfold _extract_pairs_from_lines.
  apply (pairs_loop_po_print entries [] []).
  pose proof (length_po_print entries). lia.
Qed.

Lemma has_escape_empty : ¬ has_escape "".
Proof. intros (pre & c & post & H & _). by destruct pre. Qed.

Lemma has_escape_copy (a : ascii) (r : string) :
  (∀ c c' r', escape_pair c c' → String a r ≠ String BACKSLASH (String c r')) →
  has_escape (String a r) ↔ has_escape r.
Proof.
  intros Hn. split.
  - intros (pre & c & post & H & Hc). destruct pre as [|b pre].
    + rewrite app_empty_l in H. apply escape_class_spec in Hc as [c' Hc].
      by destruct (Hn c c' post Hc).
    + rewrite app_String in H. injection H as _ ->. by exists pre, c, post.
  - intros (pre & c & post & -> & Hc). by exists (String a pre), c, post.
Qed.

Lemma one_pass_length (s t : string) :
  one_pass s t →
  String.length t ≤ String.length s
  ∧ (¬ has_escape s → t = s)
  ∧ (has_escape s → String.length t < String.length s).
Proof.
  induction 1 as [|c c' r t Hc H (IH1 & IH2 & IH3)|a r t Hn H (IH1 & IH2 & IH3)].
  - split; [done|]. split; [done|]. by intros ?%has_escape_empty.
  - simpl. split; [lia|]. split; [|lia].
    intros []. exists "", c, r. split; [done|].
    apply escape_class_spec. eauto.
  - simpl. rewrite (has_escape_copy a r Hn). split; [lia|]. split.
    + intros Hne. by rewrite IH2.
    + intros He. specialize (IH3 He). lia.
Qed.

(** X2. [_unescape_po] never returns a longer string, and it returns
    its argument unchanged exactly when no escape sequence occurs in it: a
    backslash before any other character, or at the end, stays. *)
Theorem unescape_po_unchanged (s : string) :
  ∃ t, _unescape_po s = Ok t
       ∧ String.length t ≤ String.length s
       ∧ (t = s ↔ ¬ has_escape s).
Proof.
  destruct (_unescape_po_one_pass s) as (t & Ht & Hp).
  destruct (one_pass_length s t Hp) as (H1 & H2 & H3).
  exists t. split; [done|]. split; [done|]. split; [|done].
  intros -> He. specialize (H3 He). lia.
Qed.

(** X3. A hunk that, after lines that open no entry, has the context
    line of a key, the removed line of the old value and the added line of
    the new value puts one record in the result, the key with the new value,
    when the new value is neither empty nor the old one, and no record
    otherwise: a translation added or modified is reported, a translation
    deleted or rewritten as it was is not. *)
Theorem single_entry_change_reported
    (current_locale : string) (results : list Change) (pre : Hunk)
    (l_key l_old l_new : Line) (key old new : string) :
  (∀ l, l ∈ pre → is_key_line (content_of l) = false) →
  key ≠ "" →
  line_type l_key = LINE_TYPE_CONTEXT →
  content_of l_key = msgid_kw +:+ escape_po key +:+ dq →
  line_type l_old = LINE_TYPE_REMOVED →
  content_of l_old = msgstr_kw +:+ escape_po old +:+ dq →
  line_type l_new = LINE_TYPE_ADDED →
  content_of l_new = msgstr_kw +:+ escape_po new +:+ dq →
  hunk_body current_locale results (pre ++ [l_key; l_old; l_new])
  = Ok (if bool_decide (new ≠ "" ∧ new ≠ old)
        then results ++ [(current_locale, key, new)]
        else results).
Proof.
  intros Hpre Hne Tk Ck To Co Tn Cn.
  assert (hunk_sides (pre ++ [l_key; l_old; l_new])
          = ((hunk_sides pre).1
               ++ [msgid_kw +:+ escape_po key +:+ dq;
                   msgstr_kw +:+ escape_po new +:+ dq],
             (hunk_sides pre).2
               ++ [msgid_kw +:+ escape_po key +:+ dq;
                   msgstr_kw +:+ escape_po old +:+ dq])) as Hsides.
  { rewrite hunk_sides_app. rewrite <- Ck, <- Co, <- Cn.
    destruct l_key as [tk vk], l_old as [to vo], l_new as [tn vn].
    simpl in Tk, To, Tn. subst tk to tn. reflexivity. }
  assert (∀ s, s ∈ (hunk_sides pre).1 ∨ s ∈ (hunk_sides pre).2 →
               is_key_line s = false) as Hnokey.
  { intros s Hs. destruct (hunk_sides_contents pre s Hs) as (l & Hl & ->).
    by apply Hpre. }
  assert (∀ P value,
            (∀ s, s ∈ P → is_key_line s = false) →
            pairs_of (P ++ [msgid_kw +:+ escape_po key +:+ dq;
                            msgstr_kw +:+ escape_po value +:+ dq])
            = [(key, value)]) as Hone.
  { intros P value HP.
    apply (pairs_of_single_entry P _ _ (escape_po key) (escape_po value));
      [ done
      | apply keyword_line_startswith
      | apply (keyword_line_found "msgid "); [done|apply escape_po_no_newline]
      | apply _unescape_po_escape_po
      | done
      | apply keyword_line_startswith
      | apply (keyword_line_found "msgstr "); [done|apply escape_po_no_newline]
      | apply _unescape_po_escape_po ]. }
  rewrite hunk_body_spec. f_equal. unfold hunk_changes. rewrite Hsides.
  cbn [fst snd]. rewrite !Hone by (intros s Hs; apply Hnokey; tauto).
  assert (lookup_get (build_old_lookup [(key, old)]) key = old) as Hold.
  { unfold lookup_get, build_old_lookup. simpl. by rewrite lookup_insert_eq. }
  case_bool_decide as Hch.
  - rewrite filter_cons_True; [done|]. unfold is_change. simpl.
    by rewrite Hold.
  - rewrite filter_cons_False; [by rewrite app_nil_r|].
    unfold is_change. simpl. by rewrite Hold.
Qed.

Lemma single_entry_change_reported_witness :
  hunk_body "fr_FR" []
    ([mkLine LINE_TYPE_CONTEXT
        (unlines ["#: electrum/gui/qt/main_window.py:200"])]
     ++ [mkLine LINE_TYPE_CONTEXT (unlines ["msgid " +:+ quoted "Send"]);
         mkLine LINE_TYPE_REMOVED (unlines ["msgstr " +:+ quoted "Envoyer"]);
         mkLine LINE_TYPE_ADDED
           (unlines ["msgstr " +:+ quoted "Transmettre"])])
  = Ok [("fr_FR", "Send", "Transmettre")].
Proof.
  apply (single_entry_change_reported "fr_FR" [] _ _ _ _
           "Send" "Envoyer" "Transmettre").
  - intros l Hl. apply list_elem_of_singleton in Hl as ->.
    vm_compute. reflexivity.
  - discriminate.
  - reflexivity.
  - vm_compute. reflexivity.
  - reflexivity.
  - vm_compute. reflexivity.
  - reflexivity.
  - vm_compute. reflexivity.
Defined.

(** ** Hunks: what is reported and what is not *)

Lemma build_old_lookup_snoc (old_pairs : list (string * string))
    (msgid msgstr : string) :
  build_old_lookup (old_pairs ++ [(msgid, msgstr)])
  = <[msgid := msgstr]> (build_old_lookup old_pairs).
Proof. unfold build_old_lookup. by rewrite foldl_app. Qed.

Lemma build_old_lookup_NoDup (old_pairs : list (string * string))
    (msgid msgstr : string) :
  NoDup old_pairs.*1 → (msgid, msgstr) ∈ old_pairs →
  lookup_get (build_old_lookup old_pairs) msgid = msgstr.
Proof.
  unfold lookup_get.
  induction old_pairs as [|[k v] ps IH] using rev_ind;
    [by intros _ ?%elem_of_nil|].
  rewrite fmap_app, build_old_lookup_snoc. simpl.
  intros [Hps [Hk _]]%NoDup_app Hin.
  apply elem_of_app in Hin as [Hin|Hin].
  - assert (msgid ≠ k) as Hne.
    { intros ->. apply (Hk k); [|apply list_elem_of_here].
      apply list_elem_of_fmap. by exists (k, msgstr). }
    rewrite lookup_insert_ne by done. by apply IH.
  - apply list_elem_of_singleton in Hin as [= -> ->].
    by rewrite lookup_insert_eq.
Qed.

Lemma filter_none {A : Type} (P : A → Prop) `{!∀ x, Decision (P x)}
    (l : list A) :
  (∀ x, x ∈ l → ¬ P x) → filter P l = [].
Proof.
  induction l as [|x l IH]; intros Hnone; [done|].
  rewrite filter_cons_False by (apply Hnone, list_elem_of_here).
  apply IH. intros y Hy. apply Hnone. by apply list_elem_of_further.
Qed.

(** X4. A hunk whose two sides have the same entries, each key once,
    puts no record in the result: a hunk that only changes comment lines
    or the lines between entries reports nothing. *)
Theorem unchanged_entries_emit_nothing (current_locale : string)
    (results : list Change) (hunk : Hunk) (pairs : list (string * string)) :
  _extract_pairs_from_lines (hunk_sides hunk).1 = Ok pairs →
  _extract_pairs_from_lines (hunk_sides hunk).2 = Ok pairs →
  NoDup pairs.*1 →
  hunk_body current_locale results hunk = Ok results.
Proof.
  intros Hnew Hold Hnodup. rewrite hunk_body_spec. f_equal.
  unfold hunk_changes, pairs_of. rewrite Hnew, Hold.
  rewrite filter_none; [apply app_nil_r|].
  intros [msgid msgstr] Hin [_ Hch]. simpl in Hch.
  by rewrite (build_old_lookup_NoDup pairs msgid msgstr) in Hch.
Qed.

Lemma unchanged_entries_emit_nothing_witness :
  hunk_body "de_DE" []
    [ mkLine LINE_TYPE_REMOVED
        (unlines ["#: electrum/gui/qt/main_window.py:100"]);
      mkLine LINE_TYPE_ADDED
        (unlines ["#: electrum/gui/qt/main_window.py:102"]);
      mkLine LINE_TYPE_CONTEXT (unlines ["msgid " +:+ quoted "Wallet"]);
      mkLine LINE_TYPE_CONTEXT (unlines ["msgstr " +:+ quoted "Geldbeutel"]) ]
  = Ok [].
Proof.
  apply (unchanged_entries_emit_nothing "de_DE" [] _
           [("Wallet", "Geldbeutel")]).
  - vm_compute. reflexivity.
  - vm_compute. reflexivity.
  - apply NoDup_singleton.
Defined.

(** X5. The old value of a key is the value of the last entry with
    that key in the pre-image of the hunk, and the empty string when the
    pre-image has no such entry: a later entry overwrites an earlier one in
    [old_lookup]. *)
Theorem old_lookup_last_entry_wins (old_pairs : list (string * string))
    (msgid : string) :
  lookup_get (build_old_lookup old_pairs) msgid
  = default ""
      (last (omap (λ p, if bool_decide (p.1 = msgid) then Some p.2 else None)
               old_pairs)).
Proof.
  unfold lookup_get. f_equal.
  induction old_pairs as [|[k v] ps IH] using rev_ind; [done|].
  rewrite build_old_lookup_snoc, omap_app. simpl.
  case_bool_decide as Hk; simpl in Hk.
  - subst k. by rewrite lookup_insert_eq, last_snoc.
  - by rewrite lookup_insert_ne, app_nil_r.
Qed.

(** X6. The locale of every record that [parse_po_diff] returns is not
    empty, has no slash and is the segment between locale/ and /electrum.po
    in the path of a file of the diff. *)
Theorem record_locale_is_path_segment
    (PatchSet : string → res (list PatchedFile)) (diff_text : string)
    (results : list Change) (locale key value : string) :
  parse_po_diff PatchSet diff_text = Ok results →
  (locale, key, value) ∈ results →
  locale ≠ "" ∧ no_slash locale = true
  ∧ ∃ patch_set patched_file,
      PatchSet diff_text = Ok patch_set
      ∧ patched_file ∈ patch_set
      ∧ locale_form (path patched_file) locale.
Proof.
  intros Hr Hin.
  apply parse_po_diff_Ok in Hr as [[_ ->]|(_ & ps & Hps & ->)];
    [by apply elem_of_nil in Hin|].
  apply elem_of_patch_changes in Hin as (f & h & Hf & _ & Hloc & _).
  simpl in Hloc.
  apply search_locale_Some in Hloc as (pre & rest & Hp & Hne & Hform & _).
  split; [done|]. split; [by destruct Hform as (post & _ & Hs & _)|].
  exists ps, f. split; [done|]. split; [done|]. by exists pre, rest.
Qed.

Lemma record_locale_is_path_segment_witness :
  "de_DE" ≠ "" ∧ no_slash "de_DE" = true
  ∧ ∃ patch_set patched_file,
      wallet_PatchSet wallet_diff = Ok patch_set
      ∧ patched_file ∈ patch_set
      ∧ locale_form (path patched_file) "de_DE".
Proof.
  apply (record_locale_is_path_segment wallet_PatchSet wallet_diff
           [("de_DE", "Wallet", "Geldbeutel")] "de_DE" "Wallet" "Geldbeutel").
  - vm_compute. reflexivity.
  - apply list_elem_of_here.
Defined.

(** X7. [parse_po_diff] raises only what the parser of the diff raises,
    and only on a text that is not blank; it returns whenever the text is
    blank or the parser returns, the empty list when the text is blank (the
    parser is then not called) and when no file of the diff is a PO file of
    a locale directory. *)
Theorem parse_po_diff_raises_only_from_parser
    (PatchSet : string → res (list PatchedFile)) (diff_text : string) :
  (∀ e, parse_po_diff PatchSet diff_text = Raise e
        ↔ strip diff_text ≠ "" ∧ PatchSet diff_text = Raise e)
  ∧ ((∃ results, parse_po_diff PatchSet diff_text = Ok results)
     ↔ strip diff_text = "" ∨ ∃ patch_set, PatchSet diff_text = Ok patch_set)
  ∧ (strip diff_text = "" → parse_po_diff PatchSet diff_text = Ok [])
  ∧ (∀ patch_set,
       strip diff_text ≠ "" → PatchSet diff_text = Ok patch_set →
       (∀ f, f ∈ patch_set → re.search_locale (path f) = None) →
       parse_po_diff PatchSet diff_text = Ok []).
Proof.
  rewrite parse_po_diff_spec.
  destruct (String.eqb (strip diff_text) "") eqn:E.
  - apply string_eqb_true in E. split; [|split; [|split]].
    + intros e. split; [done|]. by intros [? _].
    + split; [by left|]. intros _. by exists [].
    + done.
    + done.
  - apply string_eqb_false in E. split; [|split; [|split]].
    + intros e. destruct (PatchSet diff_text) as [ps|e'|]; res_simpl.
      * split; [done|]. by intros [_ ?].
      * split; [by intros [= ->]|]. by intros [_ [= ->]].
      * split; [done|]. by intros [_ ?].
    + destruct (PatchSet diff_text) as [ps|e'|]; res_simpl.
      * split; [intros _; right; by exists ps|]. intros _. by eexists.
      * split; [by intros [? ?]|]. by intros [?|[? ?]].
      * split; [by intros [? ?]|]. by intros [?|[? ?]].
    + done.
    + intros ps _ -> Hnone. res_simpl.
      by rewrite (patch_changes_ineligible ps Hnone).
Qed.

(** ** The edges of the concurrency limit, the end of [gather] and the
    counts of the report *)

Section GatherEnds.

Context {duration : Type}.
Variable retry_delay : duration.
Variable classifier : nat → nat → Reply.
Variable schedule : LoopState duration → list nat.

Abbreviation State := (LoopState duration).

Lemma first_ready_step (σ σ' : State) (candidates : list nat) :
  first_ready retry_delay classifier σ candidates = Some σ' →
  ∃ i, step_task retry_delay classifier σ i = Some σ'.
Proof.
  induction candidates as [|c cs IH]; [done|]. simpl.
  destruct (step_task retry_delay classifier σ c) as [σc|] eqn:Hc; [|done].
  intros [= <-]. by exists c.
Qed.

Lemma event_loop_Ok (fuel : nat) (σ σ' : State) :
  event_loop retry_delay classifier schedule fuel σ = Ok σ' →
  rtc (step retry_delay classifier) σ σ'
  ∧ forallb is_returned (tasks σ') = true.
Proof.
  revert σ. induction fuel as [|fuel IH]; intros σ; [done|]. simpl.
  destruct (forallb is_returned (tasks σ)) eqn:Hall.
  - intros [= <-]. split; [apply rtc_refl|done].
  - destruct (first_ready retry_delay classifier σ (schedule σ)) as [σ1|] eqn:Hf;
      [|done].
    intros Hr. destruct (IH σ1 Hr) as [Hrtc Hret]. split; [|done].
    eapply rtc_l; [by apply (first_ready_step σ σ1 (schedule σ))|done].
Qed.

Lemma all_returned_lookup (ts : list TaskState) (i : nat) (t : TaskState) :
  forallb is_returned ts = true → ts !! i = Some t → ∃ c, t = Returned c.
Proof.
  intros Hall Hi.
  assert (is_returned t = true) as Ht.
  { apply (proj1 (forallb_forall _ _) Hall). apply list_elem_of_In.
    apply list_elem_of_lookup. eauto. }
  destruct t; try done. by eexists.
Qed.

Lemma starved_step (σ σ' : State) (i : nat) :
  starved σ → step_task retry_delay classifier σ i = Some σ' → starved σ'.
Proof.
  intros [Hv Ht Hl] Hs. unfold step_task in Hs.
  destruct (tasks σ !! i) as [t|] eqn:Hi; [|done].
  destruct (Ht i t Hi) as [-> | ->]; [|done].
  assert (locked σ = true) as Hlocked.
  { unfold locked. by rewrite Hv. }
  rewrite Hlocked in Hs. injection Hs as <-. split; simpl.
  - done.
  - intros j t Hj. destruct (decide (j = i)) as [->|Hne].
    + rewrite list_lookup_insert_eq in Hj by (by eapply lookup_lt_Some).
      injection Hj as <-. by right.
    + rewrite list_lookup_insert_ne in Hj by done. by apply (Ht j).
  - intros e [He|He]%elem_of_app; [by apply Hl|].
    apply list_elem_of_singleton in He as ->. by exists i.
Qed.

Lemma starved_reachable (σ σ' : State) :
  starved σ → rtc (step retry_delay classifier) σ σ' → starved σ'.
Proof.
  intros Hinv H. induction H as [σ|σ σ1 σ2 [i Hs] _ IH]; [done|].
  apply IH. by eapply starved_step.
Qed.

Lemma starved_init (n : nat) : starved (gather_init (duration := duration) 0 n).
Proof.
  split; simpl.
  - done.
  - intros i t [-> _]%lookup_replicate. by left.
  - by intros e ?%elem_of_nil.
Qed.

Lemma starved_never_ends (fuel : nat) (σ : State) :
  starved σ → tasks σ ≠ [] →
  event_loop retry_delay classifier schedule fuel σ = OutOfFuel.
Proof.
  revert σ. induction fuel as [|fuel IH]; intros σ Hinv Hne; [done|]. simpl.
  assert (forallb is_returned (tasks σ) = false) as ->.
  { destruct (tasks σ) as [|t ts] eqn:Hts; [done|].
    destruct (starved_tasks σ Hinv 0 t) as [-> | ->]; [by rewrite Hts|done..]. }
  destruct (first_ready retry_delay classifier σ (schedule σ)) as [σ1|] eqn:Hf;
    [|done].
  destruct (first_ready_step σ σ1 _ Hf) as [i Hs].
  apply IH; [by eapply starved_step|].
  destruct (step_task_summary retry_delay classifier σ σ1 i Hs)
    as (x & y & w & es & Hi & _ & _ & Ht & _).
  intros Hnil. rewrite Hnil in Ht. symmetry in Ht.
  apply (f_equal length) in Ht. rewrite length_insert in Ht.
  assert (length (wake_tasks w (tasks σ)) = length (tasks σ)) as Hlen
    by (destruct w; simpl; by rewrite ?length_insert).
  rewrite Hlen in Ht. destruct (tasks σ); [done|discriminate].
Qed.

End GatherEnds.

(** X8. With a concurrency of zero and at least one changed translation
    the check never returns, whatever the schedule and however many turns the
    loop is given: in every state that the run reaches each task has not
    started or waits in the queue of the semaphore, and no request has been
    sent. With a negative concurrency the semaphore cannot be built:
    [ValueError], before the diff is read, so whatever the diff text is and
    whatever the parser would make of it, also where the parser raises. *)
Theorem zero_concurrency_never_returns {duration : Type}
    (retry_delay : duration) (classifier : nat → nat → Reply)
    (schedule : LoopState duration → list nat)
    (PatchSet : string → res (list PatchedFile)) (diff_text : string)
    (changed : list Change) :
  parse_po_diff PatchSet diff_text = Ok changed →
  changed ≠ [] →
  (∀ fuel,
     run_diff_check_async retry_delay classifier schedule fuel PatchSet 0
       diff_text = OutOfFuel)
  ∧ (∀ σ,
       rtc (step retry_delay classifier) (gather_init 0 (length changed)) σ →
       (∀ i t, tasks σ !! i = Some t → t = Created ∨ t = Waiting)
       ∧ (∀ i, posts_of i (log σ) = []))
  ∧ (∀ (PatchSet' : string → res (list PatchedFile)) (diff_text' : string)
       (fuel : nat) (concurrency : Z),
       (concurrency < 0)%Z →
       run_diff_check_async retry_delay classifier schedule fuel PatchSet'
         concurrency diff_text' = Raise ValueError).
Proof.
  intros Hparse Hne. split; [|split].
  - intros fuel. unfold run_diff_check_async, scan_diff_async.
    change (new_semaphore 0) with (Ok 0). res_simpl. rewrite Hparse. res_simpl.
    destruct changed as [|c changed'] eqn:Hc; [done|]. rewrite <- Hc.
    rewrite starved_never_ends; [done|apply starved_init|].
    rewrite Hc. done.
  - intros σ Hreach.
    destruct (starved_reachable retry_delay classifier _ σ
                (starved_init (length changed)) Hreach) as [_ Ht Hl].
    split; [done|]. intros i. unfold posts_of.
    induction (log σ) as [|e l IH]; [done|]. simpl.
    destruct (Hl e) as [j ->]; [apply list_elem_of_here|].
    apply IH. intros e' He'. apply Hl. by apply list_elem_of_further.
  - intros PatchSet' diff_text' fuel concurrency Hneg.
    unfold run_diff_check_async, new_semaphore.
    by rewrite bool_decide_eq_true_2.
Qed.

Lemma zero_concurrency_never_returns_witness :
  (∀ fuel,
     run_diff_check_async tt flaky_classifier in_order fuel wallet_PatchSet 0
       wallet_diff = OutOfFuel)
  ∧ run_diff_check_async tt flaky_classifier in_order 6 wallet_PatchSet (-1)
      wallet_diff = Raise ValueError
  ∧ parse_po_diff (λ _, Raise UnidiffParseError) "not a diff"
    = Raise UnidiffParseError
  ∧ run_diff_check_async tt flaky_classifier in_order 6
      (λ _, Raise UnidiffParseError) (-1) "not a diff" = Raise ValueError.
Proof.
  destruct (zero_concurrency_never_returns tt flaky_classifier in_order
              wallet_PatchSet wallet_diff [("de_DE", "Wallet", "Geldbeutel")])
    as (H0 & _ & Hneg).
  - vm_compute. reflexivity.
  - discriminate.
  - split; [exact H0|]. split; [apply Hneg; lia|].
    split; [vm_compute; reflexivity|]. apply Hneg. lia.
Defined.

(** X9. When [gather] ends, the semaphore is as it was built: its
    counter is back at the concurrency limit and its queue is empty, and
    every task has returned; the same semaphore can serve the next
    [gather]. *)
Theorem semaphore_free_when_gather_ends {duration : Type}
    (retry_delay : duration) (classifier : nat → nat → Reply)
    (schedule : LoopState duration → list nat) (fuel K n : nat)
    (σ : LoopState duration) :
  event_loop retry_delay classifier schedule fuel (gather_init K n) = Ok σ →
  sem_value σ = K
  ∧ sem_waiters σ = []
  ∧ length (tasks σ) = n
  ∧ ∀ i, i < n → ∃ c, tasks σ !! i = Some (Returned c).
Proof.
  intros Hloop.
  destruct (event_loop_Ok retry_delay classifier schedule fuel _ σ Hloop)
    as [Hreach Hall].
  pose proof (reachable_inv retry_delay classifier K n _ _
                (gather_init_inv K n) Hreach) as [[H1 H2 H3 H4 H5] _].
  assert (count_tasks is_holder (tasks σ) = 0) as Hzero.
  { apply count_tasks_none. intros i t Hi.
    by destruct (all_returned_lookup _ i t Hall Hi) as [c ->]. }
  split; [lia|]. split; [|split; [done|]].
  - destruct (sem_waiters σ) as [|w ws] eqn:Hw; [done|]. exfalso.
    destruct (proj1 (H4 w)) as [Hi|Hi]; [rewrite ?Hw; apply list_elem_of_here|..];
      by destruct (all_returned_lookup _ w _ Hall Hi).
  - intros i Hi.
    destruct (lookup_lt_is_Some_2 (tasks σ) i ltac:(lia)) as [t Ht].
    destruct (all_returned_lookup _ i t Hall Ht) as [c ->]. by exists c.
Qed.

Lemma semaphore_free_when_gather_ends_witness :
  sem_value three_records_done = 1
  ∧ sem_waiters three_records_done = []
  ∧ length (tasks three_records_done) = 3
  ∧ ∀ i, i < 3 → ∃ c, tasks three_records_done !! i = Some (Returned c).
Proof.
  apply (semaphore_free_when_gather_ends tt spam_classifier starts_first 9 1
           3).
  vm_compute. reflexivity.
Defined.

Lemma sum_lengths_split {A : Type} (m : gmap string (list A)) (l : string) :
  map_fold (λ _ v acc, length v + acc) 0 m
  = length (default [] (m !! l))
    + map_fold (λ _ v acc, length v + acc) 0 (delete l m).
Proof.
  destruct (m !! l) as [v|] eqn:Hl; simpl.
  - apply (map_fold_delete_L (λ _ v acc, length v + acc)); [|done].
    intros; lia.
  - by rewrite delete_id.
Qed.

Lemma sum_lengths_insert {A : Type} (m : gmap string (list A)) (l : string)
    (v : list A) :
  map_fold (λ _ v acc, length v + acc) 0 (<[l := v]> m)
  = length v + map_fold (λ _ v acc, length v + acc) 0 (delete l m).
Proof.
  rewrite <- insert_delete_eq.
  apply (map_fold_insert_L (λ _ v acc, length v + acc)).
  - intros; lia.
  - apply lookup_delete_eq.
Qed.

Lemma sum_lengths_group_by_locale
    (results : list (option (string * (string * string)))) :
  map_fold (λ _ v acc, length v + acc) 0 (group_by_locale results)
  = length (omap id results).
Proof.
  induction results as [|r rs IH] using rev_ind; [done|].
  rewrite group_by_locale_snoc, omap_app, length_app.
  destruct r as [[l entry]|]; simpl; [|lia].
  rewrite sum_lengths_insert, length_app. simpl.
  rewrite (sum_lengths_split (group_by_locale rs) l) in IH.
  rewrite <- IH. lia.
Qed.

Lemma length_omap_le {A B : Type} (f : A → option B) (l : list A) :
  length (omap f l) ≤ length l.
Proof.
  induction l as [|x l IH]; [done|]. csimpl. destruct (f x); simpl; lia.
Qed.

(** X10. What [run_diff_check_async] returns: the number checked is the
    number of the changed translations; [gather] has one result per changed
    translation; the number of spam is the number of results that are not
    [None], so at most the number checked; the entries of a locale are the
    spam results of that locale in the order of the diff, a locale without
    spam being no key of the dict; and a spam result is the record at the
    same place in the diff. *)
Theorem diff_report_counts {duration : Type} (retry_delay : duration)
    (classifier : nat → nat → Reply)
    (schedule : LoopState duration → list nat) (fuel : nat)
    (PatchSet : string → res (list PatchedFile)) (concurrency : Z)
    (diff_text : string) (total_checked total_spam : nat)
    (spam_entries : gmap string (list (string * string))) :
  run_diff_check_async retry_delay classifier schedule fuel PatchSet
    concurrency diff_text
  = Ok (total_checked, total_spam, spam_entries) →
  ∃ changed results,
    parse_po_diff PatchSet diff_text = Ok changed
    ∧ scan_diff_async retry_delay classifier schedule fuel PatchSet
        (Z.to_nat concurrency) diff_text
      = Ok (results, spam_entries)
    ∧ total_checked = length changed
    ∧ length results = length changed
    ∧ total_spam = length (omap id results)
    ∧ total_spam ≤ total_checked
    ∧ (∀ locale,
         spam_entries !! locale
         = if bool_decide (spam_of locale results = []) then None
           else Some (spam_of locale results))
    ∧ (∀ i locale msgid msgstr,
         results !! i = Some (Some (locale, (msgid, msgstr))) →
         changed !! i = Some (locale, msgid, msgstr)).
Proof.
  unfold run_diff_check_async, new_semaphore.
  case_bool_decide as Hneg; [done|]. res_simpl.
  destruct (scan_diff_async _ _ _ _ _ _ _) as [[results by_locale]| |] eqn:Hscan;
    [|done..].
  res_simpl.
  destruct (parse_po_diff PatchSet diff_text) as [changed| |] eqn:Hparse;
    [|done..].
  res_simpl. intros [= <- <- <-].
  exists changed, results. split; [done|]. split; [done|]. split; [done|].
  unfold scan_diff_async in Hscan. rewrite Hparse in Hscan.
  revert Hscan. res_simpl. intros Hscan.
  assert (by_locale = group_by_locale results
          ∧ length results = length changed
          ∧ ∀ i locale msgid msgstr,
              results !! i = Some (Some (locale, (msgid, msgstr))) →
              changed !! i = Some (locale, msgid, msgstr))
    as (-> & Hlen & Hpos).
  { destruct changed as [|c changed'] eqn:Hc.
    - injection Hscan as <- <-. done.
    - rewrite <- Hc in *.
      destruct (event_loop _ _ _ _ _) as [σ| |] eqn:Hloop; [|done..].
      revert Hscan. res_simpl. intros [= <- <-].
      destruct (event_loop_Ok retry_delay classifier schedule fuel _ σ Hloop)
        as [Hreach _].
      pose proof (reachable_inv retry_delay classifier _ _ _ _
                    (gather_init_inv _ _) Hreach) as [[H1 _ _ _ _] _].
      split; [done|]. split; [rewrite length_zip_with; lia|].
      intros i locale msgid msgstr Hi.
      apply lookup_zip_with_Some in Hi as ([[l k] v] & t & Hr & Hch & Ht).
      unfold check_result in Hr. destruct t as [| | | | |[|]]; try done.
      by injection Hr as -> -> ->. }
  split; [done|].
  rewrite sum_lengths_group_by_locale. split; [done|]. split.
  - pose proof (length_omap_le id results). lia.
  - split; [|done]. intros locale. apply group_by_locale_lookup.
Qed.

Lemma diff_report_counts_witness :
  ∃ changed results,
    parse_po_diff wallet_PatchSet wallet_diff = Ok changed
    ∧ scan_diff_async tt flaky_classifier in_order 6 wallet_PatchSet
        (Z.to_nat 1) wallet_diff
      = Ok (results, {[ "de_DE" := [("Wallet", "Geldbeutel")] ]})
    ∧ 1 = length changed
    ∧ length results = length changed
    ∧ 1 = length (omap id results)
    ∧ 1 ≤ 1
    ∧ (∀ locale,
         ({[ "de_DE" := [("Wallet", "Geldbeutel")] ]}
            : gmap string (list (string * string))) !! locale
         = if bool_decide (spam_of locale results = []) then None
           else Some (spam_of locale results))
    ∧ (∀ i locale msgid msgstr,
         results !! i = Some (Some (locale, (msgid, msgstr))) →
         changed !! i = Some (locale, msgid, msgstr)).
Proof.
  apply (diff_report_counts tt flaky_classifier in_order 6 wallet_PatchSet 1
           wallet_diff 1 1 {[ "de_DE" := [("Wallet", "Geldbeutel")] ]}).
  vm_compute. reflexivity.
Defined.

(** ** The scan of a PO file *)

Lemma translated_entries (po : list POEntry) :
  filter (λ entry : string * string, entry.2 ≠ "")
    ((λ entry, (msgid entry, msgstr entry))
       <$> filter (λ entry, msgid entry ≠ "") po)
  = (λ entry, (msgid entry, msgstr entry))
      <$> filter (λ entry, msgid entry ≠ "" ∧ msgstr entry ≠ "") po.
Proof.
  induction po as [|e po IH]; [done|].
  destruct (decide (msgid e = "")) as [Hk|Hk].
  - rewrite !filter_cons_False by tauto. done.
  - rewrite (filter_cons_True (λ entry, msgid entry ≠ "")) by done.
    rewrite fmap_cons. destruct (decide (msgstr e = "")) as [Hv|Hv].
    + rewrite !filter_cons_False by (simpl; tauto). done.
    + rewrite !filter_cons_True by (simpl; tauto). by rewrite fmap_cons, IH.
Qed.

(** X11. [scan_po_file_async] returns, when the semaphore has a permit,
    the schedule leaves no task out and the classifier succeeds for each
    entry after finitely many failures: the entries of the file whose key or
    whose value is empty are not sent to the classifier; each of the others
    has one task, and the result is the entries classified Spam, in the
    order of the file, each with the locale name; the counter of the
    semaphore is then what it was. *)
Theorem po_file_scan_reports_spam {duration : Type} (retry_delay : duration)
    (classifier : nat → nat → Reply)
    (schedule : LoopState duration → list nat)
    (pofile : string → res (list POEntry)) (value : nat)
    (po_file locale_name : string) (po : list POEntry) (N : nat → nat)
    (fuel : nat) :
  0 < value →
  (∀ (σ : LoopState duration) (i : nat),
     i < length (tasks σ) → i ∈ schedule σ) →
  pofile po_file = Ok po →
  (∀ i, i < length (filter (λ entry, msgid entry ≠ "" ∧ msgstr entry ≠ "") po) →
        succeeds_after classifier N i) →
  turns_left N
    (replicate
       (length (filter (λ entry, msgid entry ≠ "" ∧ msgstr entry ≠ "") po))
       Created) < fuel →
  scan_po_file_async retry_delay classifier schedule fuel pofile value po_file
    locale_name
  = Ok (omap id
          (imap (λ i entry,
                   if decide (verdict_of classifier N i = Spam)
                   then Some (mkSpamEntry locale_name (msgid entry)
                                (msgstr entry))
                   else None)
             (filter (λ entry, msgid entry ≠ "" ∧ msgstr entry ≠ "") po)),
        value).
Proof.
  intros Hvalue Hfair Hpo Hsucc Hfuel.
  unfold scan_po_file_async, parse_po_file. rewrite Hpo. res_simpl.
  rewrite translated_entries, length_fmap.
  set (translated := filter (λ entry, msgid entry ≠ "" ∧ msgstr entry ≠ "") po)
    in *.
  destruct (event_loop_returns retry_delay classifier schedule N value
              (length translated) Hvalue Hfair Hsucc
              (turns_left N (replicate (length translated) Created))
              (gather_init value (length translated)) fuel)
    as (σ & Hloop & _ & [[Hlen Hpermits _ _ _] _] & [Hretry] & Hall);
    [apply gather_init_inv|apply retry_inv_init|done..|].
  rewrite Hloop. res_simpl.
  assert (∀ i, i < length translated →
            tasks σ !! i = Some (Returned (verdict_of classifier N i)))
    as Htasks.
  { intros i Hi.
    destruct (lookup_lt_is_Some_2 (tasks σ) i ltac:(lia)) as [t Ht].
    pose proof (Hretry i t Ht) as Hinv.
    destruct (all_returned_lookup _ i t Hall Ht) as [c ->].
    by destruct Hinv as (-> & _). }
  assert (count_tasks is_holder (tasks σ) = 0) as Hzero.
  { apply count_tasks_none. intros i t Hi.
    by destruct (all_returned_lookup _ i t Hall Hi) as [c ->]. }
  do 2 f_equal; [|lia]. f_equal.
  apply list_eq. intros i.
  rewrite lookup_zip_with, list_lookup_fmap, list_lookup_imap.
  destruct (translated !! i) as [e|] eqn:He; [|done]. simpl.
  rewrite (Htasks i) by (by eapply lookup_lt_Some). simpl.
  unfold check_file_result.
  by destruct (verdict_of classifier N i).
Qed.

Lemma po_file_scan_reports_spam_witness :
  scan_po_file_async tt mixed_classifier starts_first 9 sample_pofile 1
    "locale/de_DE/electrum.po" "de_DE"
  = Ok ([mkSpamEntry "de_DE" "Wallet" "Geldbeutel"], 1).
Proof.
  apply (po_file_scan_reports_spam tt mixed_classifier starts_first
           sample_pofile 1 "locale/de_DE/electrum.po" "de_DE" sample_po
           (λ i, match i with 0 => 1 | _ => 0 end) 9).
  - lia.
  - intros σ i Hi. apply elem_of_app. right. apply elem_of_seq. lia.
  - reflexivity.
  - intros i Hi. change (i < 2) in Hi.
    destruct i as [|[|i]]; [| |lia].
    + split; [|by exists "spam"].
      intros k Hk. assert (k = 0) as -> by lia. by exists ClientError.
    + split; [intros k Hk; lia|by exists "genuine"].
  - vm_compute. lia.
Defined.

(** ** The reports: the summary *)

Lemma report_files_insert (output_dir : Directory) (name : string) (f : File) :
  filter (λ f, is_report_name f.1 = true)
    (map_to_list (<[name := f]> output_dir))
  ≡ₚ filter (λ f, is_report_name f.1 = true)
       ((name, f) :: map_to_list (delete name output_dir)).
Proof.
  rewrite <- insert_delete_eq.
  by rewrite map_to_list_insert by apply lookup_delete_eq.
Qed.

Lemma report_files_delete (output_dir : Directory) (name : string) :
  is_report_name name = true ∧ output_dir !! name = None
  ∨ is_report_name name = false →
  filter (λ f, is_report_name f.1 = true)
    (map_to_list (delete name output_dir))
  ≡ₚ filter (λ f, is_report_name f.1 = true) (map_to_list output_dir).
Proof.
  intros H. destruct (output_dir !! name) as [x|] eqn:Hx.
  - destruct H as [[_ ?]|Hn]; [done|].
    rewrite <- (map_to_list_delete output_dir name x Hx).
    rewrite filter_cons_False; [done|]. simpl. by rewrite Hn.
  - by rewrite delete_id.
Qed.

Lemma reports_total_insert_other (output_dir : Directory) (name : string)
    (f : File) :
  is_report_name name = false →
  reports_total (<[name := f]> output_dir) = reports_total output_dir.
Proof.
  intros Hn. unfold reports_total. rewrite report_files_insert.
  rewrite filter_cons_False by (simpl; by rewrite Hn).
  rewrite report_files_delete; [done|by right].
Qed.

Lemma reports_total_insert_new (output_dir : Directory) (name : string)
    (f : File) :
  is_report_name name = true → output_dir !! name = None →
  reports_total (<[name := f]> output_dir)
  = entries_count f + reports_total output_dir.
Proof.
  intros Hn Hnone. unfold reports_total. rewrite report_files_insert.
  rewrite filter_cons_True by done.
  rewrite report_files_delete; [done|by left].
Qed.

Lemma load_all_length (files : list (string * File))
    (acc all_entries : list (list (string * string))) :
  for_each (λ all_entries report_file,
              entries ← load_entries report_file.2;
              Ok (all_entries ++ entries)) files acc
  = Ok all_entries →
  length all_entries
  = length acc + sum_list_with (λ f, entries_count f.2) files.
Proof.
  revert acc. induction files as [|[name f] files IH]; intros acc; simpl.
  - intros [= <-]. lia.
  - destruct f as [data|content]; [|done]. simpl. intros Hr.
    rewrite (IH _ Hr), length_app. simpl. lia.
Qed.

Lemma glob_reports_total (output_dir : Directory) :
  sum_list_with (λ f, entries_count f.2) (glob_reports output_dir)
  = reports_total output_dir.
Proof.
  unfold glob_reports, reports_total. by rewrite merge_sort_Permutation.
Qed.

Lemma write_summary_report_Ok (now_txt now_json : string)
    (output_dir output_dir' : Directory) :
  write_summary_report now_txt now_json output_dir = Ok output_dir' →
  ∃ all_entries text,
    length all_entries = reports_total output_dir
    ∧ output_dir'
      = <["vandalism_report_summary.json" :=
            JsonFile (mkReport now_json None (length all_entries)
                        (Some all_entries))]>
          (<["vandalism_report_summary.txt" := TextFile text]> output_dir).
Proof.
  unfold write_summary_report.
  destruct (for_each _ (glob_reports output_dir) [])
    as [all_entries| |] eqn:Hload; [|done..].
  res_simpl.
  destruct (group_entries all_entries) as [by_locale| |]; [|done..].
  res_simpl.
  destruct (for_each (locale_text by_locale) _ _) as [text| |]; [|done..].
  res_simpl. intros [= <-]. exists all_entries, text. split; [|done].
  apply load_all_length in Hload. by rewrite Hload, glob_reports_total.
Qed.

(** X14. The name of the summary JSON is itself the name of a report
    file: when the summary is written twice, the second summary counts the
    entries of the first again. In a directory that has no summary yet, the
    first total is the number of the entries of the reports and the second
    total is twice that. *)
Theorem summary_counts_previous_summary
    (now1 now2 now3 now4 : string) (output_dir dir1 dir2 : Directory) :
  output_dir !! "vandalism_report_summary.json" = None →
  write_summary_report now1 now2 output_dir = Ok dir1 →
  write_summary_report now3 now4 dir1 = Ok dir2 →
  ∃ first second,
    dir1 !! "vandalism_report_summary.json" = Some (JsonFile first)
    ∧ dir2 !! "vandalism_report_summary.json" = Some (JsonFile second)
    ∧ report_total_spam first = reports_total output_dir
    ∧ report_total_spam second = 2 * report_total_spam first.
Proof.
  intros Hnone H1 H2.
  apply write_summary_report_Ok in H1 as (es1 & text1 & Hlen1 & ->).
  apply write_summary_report_Ok in H2 as (es2 & text2 & Hlen2 & ->).
  eexists _, _. split; [apply lookup_insert_eq|].
  split; [apply lookup_insert_eq|]. simpl. split; [done|].
  rewrite Hlen2, reports_total_insert_new; [|done|].
  - rewrite reports_total_insert_other by done. simpl. lia.
  - by rewrite lookup_insert_ne.
Qed.

Lemma elem_of_glob_reports (output_dir : Directory) (name : string) (f : File) :
  (name, f) ∈ glob_reports output_dir
  ↔ output_dir !! name = Some f ∧ is_report_name name = true.
Proof.
  unfold glob_reports. rewrite merge_sort_Permutation.
  rewrite list_elem_of_filter, elem_of_map_to_list. simpl. tauto.
Qed.

Lemma load_all_json (files : list (string * File))
    (acc : list (list (string * string))) :
  Forall (λ f, is_json f.2) files →
  for_each (λ all_entries report_file,
              entries ← load_entries report_file.2;
              Ok (all_entries ++ entries)) files acc
  = Ok (acc ++ concat (file_entries <$> files)).
Proof.
  revert acc. induction files as [|[name f] files IH]; intros acc Hall; simpl.
  - by rewrite app_nil_r.
  - apply Forall_cons in Hall as [Hf Hall]. destruct f as [data|]; [|done].
    simpl. rewrite IH by done. by rewrite <- app_assoc.
Qed.

Lemma load_all_not_json (files : list (string * File))
    (acc : list (list (string * string))) :
  ¬ Forall (λ f, is_json f.2) files →
  for_each (λ all_entries report_file,
              entries ← load_entries report_file.2;
              Ok (all_entries ++ entries)) files acc
  = Raise ValueError.
Proof.
  revert acc. induction files as [|[name f] files IH]; intros acc Hnot; simpl.
  - by destruct Hnot.
  - destruct f as [data|]; [|done]. simpl. apply IH.
    intros Hall. apply Hnot. by constructor.
Qed.

Lemma load_all_inv (files : list (string * File))
    (acc all_entries : list (list (string * string))) :
  for_each (λ all_entries report_file,
              entries ← load_entries report_file.2;
              Ok (all_entries ++ entries)) files acc
  = Ok all_entries →
  Forall (λ f, is_json f.2) files
  ∧ all_entries = acc ++ concat (file_entries <$> files).
Proof.
  intros Hr.
  destruct (decide (Forall (λ f, is_json f.2) files)) as [Hall|Hnot].
  - split; [done|]. rewrite load_all_json in Hr by done. by injection Hr.
  - by rewrite load_all_not_json in Hr.
Qed.

Lemma group_entries_loop (all_entries : list (list (string * string)))
    (by_locale : gmap string (list (list (string * string))))
    (known : list (list (string * string))) :
  Forall (λ entry, has_key entry "locale") all_entries →
  (∀ loc es entry, by_locale !! loc = Some es → entry ∈ es → entry ∈ known) →
  ∃ by_locale',
    for_each (λ by_locale entry,
                loc ← getitem entry "locale";
                Ok (<[loc := default [] (by_locale !! loc) ++ [entry]]>
                      by_locale)) all_entries by_locale
    = Ok by_locale'
    ∧ ∀ loc es entry, by_locale' !! loc = Some es → entry ∈ es →
        entry ∈ known ++ all_entries.
Proof.
  revert by_locale known.
  induction all_entries as [|e es IH]; intros by_locale known Hall Hknown.
  - exists by_locale. split; [done|]. intros loc es entry Hl He.
    rewrite app_nil_r. by eapply Hknown.
  - apply Forall_cons in Hall as [[loc Hloc] Hall]. simpl. rewrite Hloc.
    res_simpl.
    destruct (IH (<[loc := default [] (by_locale !! loc) ++ [e]]> by_locale)
                (known ++ [e]) Hall) as (by_locale' & Hr & Hin).
    { intros l es' entry Hl He. destruct (decide (l = loc)) as [->|Hne].
      - rewrite lookup_insert_eq in Hl. injection Hl as <-.
        apply elem_of_app in He as [He|He]; apply elem_of_app; [left|by right].
        destruct (by_locale !! loc) as [es0|] eqn:E; simpl in He.
        + by eapply Hknown.
        + by apply elem_of_nil in He.
      - rewrite lookup_insert_ne in Hl by done. apply elem_of_app. left.
        by eapply Hknown. }
    exists by_locale'. split; [done|]. intros l es' entry Hl He.
    specialize (Hin l es' entry Hl He). by rewrite <- app_assoc in Hin.
Qed.

Lemma group_entries_KeyError (all_entries : list (list (string * string)))
    (by_locale : gmap string (list (list (string * string)))) :
  ¬ Forall (λ entry, has_key entry "locale") all_entries →
  for_each (λ by_locale entry,
              loc ← getitem entry "locale";
              Ok (<[loc := default [] (by_locale !! loc) ++ [entry]]>
                    by_locale)) all_entries by_locale
  = Raise KeyError.
Proof.
  revert by_locale. induction all_entries as [|e es IH]; intros by_locale Hnot.
  - by destruct Hnot.
  - simpl. destruct (getitem e "locale") as [loc| |] eqn:Hloc; res_simpl.
    + apply IH. intros Hall. apply Hnot. constructor; [by exists loc|done].
    + clear -Hloc. induction e as [|[k v] e IHe]; simpl in Hloc.
      * by injection Hloc as <-.
      * destruct (String.eqb k "locale"); [done|]. by apply IHe.
    + clear -Hloc. exfalso. induction e as [|[k v] e IHe]; simpl in Hloc.
      * done.
      * destruct (String.eqb k "locale"); [done|]. by apply IHe.
Qed.

Lemma entry_text_loop (entries : list (list (string * string)))
    (text : string) :
  Forall (λ entry, has_key entry "original_str" ∧ has_key entry "translation")
    entries →
  ∃ text', for_each entry_text entries text = Ok text'.
Proof.
  revert text. induction entries as [|e es IH]; intros text Hall.
  - by exists text.
  - apply Forall_cons in Hall as [[[o Ho] [t Ht]] Hall]. cbn [for_each].
    assert (∃ text1, entry_text text e = Ok text1) as [text1 ->].
    { unfold entry_text. rewrite Ho, Ht. by eexists. }
    res_simpl. by apply IH.
Qed.

Lemma locale_text_loop
    (by_locale : gmap string (list (list (string * string))))
    (locs : list string) (text : string) :
  (∀ loc es entry, by_locale !! loc = Some es → entry ∈ es →
     has_key entry "original_str" ∧ has_key entry "translation") →
  ∃ text', for_each (locale_text by_locale) locs text = Ok text'.
Proof.
  intros Hkeys. revert text. induction locs as [|loc locs IH]; intros text.
  - by exists text.
  - cbn [for_each].
    assert (∃ text1, locale_text by_locale text loc = Ok text1) as [text1 ->].
    { unfold locale_text. apply entry_text_loop.
      apply Forall_forall. intros entry He.
      destruct (by_locale !! loc) as [es|] eqn:E; simpl in He.
      - by eapply Hkeys.
      - by apply elem_of_nil in He. }
    res_simpl. apply IH.
Qed.

(** X12. [write_summary_report] returns when every report file of the
    directory is JSON and each of their entries has the keys locale,
    original_str and translation; it raises [ValueError] when a file with
    the name of a report is not JSON, and [KeyError] when the report files
    are JSON and an entry has no locale. *)
Theorem summary_report_returns_or_raises (now_txt now_json : string)
    (output_dir : Directory) :
  (reports_well_formed output_dir →
   ∃ output_dir', write_summary_report now_txt now_json output_dir
                  = Ok output_dir')
  ∧ ((∃ name content,
        output_dir !! name = Some (TextFile content)
        ∧ is_report_name name = true) →
     write_summary_report now_txt now_json output_dir = Raise ValueError)
  ∧ ((∀ name f, output_dir !! name = Some f → is_report_name name = true →
        is_json f) →
     (∃ name f entry,
        output_dir !! name = Some f ∧ is_report_name name = true
        ∧ entry ∈ file_entries (name, f) ∧ ¬ has_key entry "locale") →
     write_summary_report now_txt now_json output_dir = Raise KeyError).
Proof.
  split; [|split].
  - intros Hwf. unfold write_summary_report.
    rewrite load_all_json.
    2:{ apply Forall_forall. intros [name f] Hf.
        apply elem_of_glob_reports in Hf as [Hf Hn]. by apply (Hwf name f). }
    rewrite app_nil_l. res_simpl.
    assert (∀ entry, entry ∈ concat (file_entries <$> glob_reports output_dir) →
              has_key entry "locale" ∧ has_key entry "original_str"
              ∧ has_key entry "translation") as Hkeys.
    { intros entry He. apply elem_of_concat in He as (l & He & Hl).
      apply list_elem_of_fmap in Hl as ([name f] & -> & Hf).
      apply elem_of_glob_reports in Hf as [Hf Hn].
      by apply (Hwf name f Hf Hn). }
    destruct (group_entries_loop
                (concat (file_entries <$> glob_reports output_dir)) ∅ [])
      as (by_locale & Hg & Hin).
    { apply Forall_forall. intros entry He. by apply Hkeys. }
    { intros loc es entry Hl. by rewrite lookup_empty in Hl. }
    unfold group_entries. rewrite Hg. res_simpl.
    edestruct (locale_text_loop by_locale) as [text Ht];
      [|rewrite Ht; res_simpl; by eexists].
    intros loc es entry Hl He. apply Hkeys. by eapply Hin.
  - intros (name & content & Hf & Hn). unfold write_summary_report.
    rewrite load_all_not_json; [done|].
    intros Hall. rewrite Forall_forall in Hall.
    apply (Hall (name, TextFile content)). by apply elem_of_glob_reports.
  - intros Hjson (name & f & entry & Hf & Hn & He & Hno).
    unfold write_summary_report. rewrite load_all_json.
    2:{ apply Forall_forall. intros [name' f'] Hf'.
        apply elem_of_glob_reports in Hf' as [Hf' Hn']. by apply (Hjson name' f'). }
    rewrite app_nil_l. res_simpl. unfold group_entries. rewrite group_entries_KeyError; [done|].
    intros Hall. rewrite Forall_forall in Hall. apply Hno, Hall.
    apply elem_of_concat. exists (file_entries (name, f)). split; [done|].
    apply list_elem_of_fmap. exists (name, f). split; [done|].
    by apply elem_of_glob_reports.
Qed.

Lemma endswith_spec (s p : string) :
  endswith s p = true ↔ ∃ pre, s = pre +:+ p.
Proof.
  induction s as [|c s IH]; cbn [endswith].
  - rewrite orb_false_r, string_eqb_true. split.
    + intros <-. by exists "".
    + intros (pre & H). destruct pre; [done|discriminate].
  - rewrite orb_true_iff, string_eqb_true, IH. split.
    + intros [<-|(pre & ->)]; [by exists ""|by exists (String c pre)].
    + intros ([|c' pre] & H).
      * left. by rewrite H.
      * right. rewrite app_String in H. injection H as _ ->. by exists pre.
Qed.

Lemma is_report_name_spec (name : string) :
  is_report_name name = true
  ↔ ∃ mid, name = "vandalism_report_" +:+ mid +:+ ".json".
Proof.
  unfold is_report_name. split.
  - destruct (re.literal "vandalism_report_" name) as [rest|] eqn:Hl; [|done].
    apply literal_spec in Hl as ->.
    intros (mid & ->)%endswith_spec. by exists mid.
  - intros (mid & ->).
    rewrite (proj2 (literal_spec "vandalism_report_" _ (mid +:+ ".json")))
      by done.
    apply endswith_spec. by exists mid.
Qed.

Lemma ascii_compare_refl (a : ascii) : Ascii.compare a a = Eq.
Proof. unfold Ascii.compare. apply N.compare_refl. Qed.

Lemma ascii_compare_Lt_trans (a b c : ascii) :
  Ascii.compare a b = Lt → Ascii.compare b c = Lt → Ascii.compare a c = Lt.
Proof.
  unfold Ascii.compare. rewrite !N.compare_lt_iff. apply N.lt_trans.
Qed.

Lemma string_leb_trans (s t u : string) :
  String.leb s t = true → String.leb t u = true → String.leb s u = true.
Proof.
  unfold String.leb. revert t u.
  induction s as [|a s IH]; intros [|b t] [|c u]; simpl; try done.
  destruct (Ascii.compare a b) eqn:Hab; [| |done];
    destruct (Ascii.compare b c) eqn:Hbc; try done.
  - apply Ascii.compare_eq_iff in Hab as ->.
    apply Ascii.compare_eq_iff in Hbc as ->.
    rewrite ascii_compare_refl. apply IH.
  - apply Ascii.compare_eq_iff in Hab as ->. by rewrite Hbc.
  - apply Ascii.compare_eq_iff in Hbc as ->. by rewrite Hab.
  - by rewrite (ascii_compare_Lt_trans a b c).
Qed.

#[global] Instance str_le_trans : Transitive str_le.
Proof.
  intros s t u. unfold str_le. rewrite !Is_true_true.
  apply string_leb_trans.
Qed.

#[global] Instance str_le_total : Total str_le.
Proof.
  intros s t. unfold str_le. rewrite !Is_true_true. apply String.leb_total.
Qed.

#[global] Instance name_le_trans :
  Transitive (λ f g : string * File, str_le f.1 g.1).
Proof. intros f g h. apply str_le_trans. Qed.

#[global] Instance name_le_total :
  Total (λ f g : string * File, str_le f.1 g.1).
Proof. intros f g. apply str_le_total. Qed.

Lemma for_each_snoc {A S : Type} (body : S → A → res S) (l : list A) (x : A)
    (s : S) :
  for_each body (l ++ [x]) s = s' ← for_each body l s; body s' x.
Proof.
  revert s. induction l as [|y l IH]; intros s; simpl.
  - by destruct (body s x).
  - destruct (body s y) as [s1| |]; [|done..]. res_simpl. apply IH.
Qed.

Lemma entries_of_locale_snoc (all_entries : list (list (string * string)))
    (entry : list (string * string)) (loc : string) :
  entries_of_locale (all_entries ++ [entry]) loc
  = entries_of_locale all_entries loc
    ++ (if bool_decide (entry_locale entry = Some loc) then [entry] else []).
Proof.
  unfold entries_of_locale. rewrite filter_app. f_equal.
  case_bool_decide; [by rewrite filter_cons_True|by rewrite filter_cons_False].
Qed.

Lemma group_entries_lookup (all_entries : list (list (string * string)))
    (by_locale : gmap string (list (list (string * string)))) (loc : string) :
  group_entries all_entries = Ok by_locale →
  by_locale !! loc
  = if bool_decide (entries_of_locale all_entries loc = []) then None
    else Some (entries_of_locale all_entries loc).
Proof.
  revert by_locale.
  induction all_entries as [|e es IH] using rev_ind; intros by_locale.
  - by intros [= <-].
  - unfold group_entries in *. rewrite for_each_snoc.
    destruct (for_each _ es ∅) as [by0| |]; [|done..]. res_simpl.
    specialize (IH by0 eq_refl). rewrite entries_of_locale_snoc.
    destruct (getitem e "locale") as [l| |] eqn:Hl; [|done..]. res_simpl.
    assert (entry_locale e = Some l) as ->
      by (unfold entry_locale; rewrite Hl; reflexivity).
    intros [= <-]. destruct (decide (l = loc)) as [->|Hne].
    + rewrite lookup_insert_eq, IH.
      rewrite (bool_decide_eq_true_2 (Some loc = Some loc)) by done.
      rewrite (bool_decide_eq_false_2 (_ ++ [e] = []))
        by (by destruct (entries_of_locale es loc)).
      by case_bool_decide as Hs; [rewrite Hs|].
    + rewrite lookup_insert_ne, IH by done.
      rewrite (bool_decide_eq_false_2 (Some l = Some loc)) by congruence.
      by rewrite app_nil_r.
Qed.

Lemma entry_text_written (entries : list (list (string * string)))
    (text text' : string) :
  for_each entry_text entries text = Ok text' →
  text' = text +:+ join (entry_section <$> entries).
Proof.
  revert text. induction entries as [|e es IH]; intros text; simpl.
  - intros [= <-]. by rewrite app_empty_r.
  - destruct (entry_text text e) as [text1| |] eqn:He; [|done..]. res_simpl.
    intros Hr. rewrite (IH _ Hr), <- app_assoc_str. f_equal.
    unfold entry_text in He. unfold entry_section, entry_field.
    destruct (getitem e "original_str") as [o| |]; [|done..].
    destruct (getitem e "translation") as [t| |]; [|done..].
    revert He. res_simpl. by intros [= <-].
Qed.

Lemma locale_text_written
    (all_entries : list (list (string * string)))
    (by_locale : gmap string (list (list (string * string))))
    (locales : list string) (text text' : string) :
  group_entries all_entries = Ok by_locale →
  for_each (locale_text by_locale) locales text = Ok text' →
  text' = text +:+ join (locale_section all_entries <$> locales).
Proof.
  intros Hgroup. revert text.
  induction locales as [|loc locs IH]; intros text; simpl.
  - intros [= <-]. by rewrite app_empty_r.
  - destruct (locale_text by_locale text loc) as [text1| |] eqn:Hl; [|done..].
    res_simpl. intros Hr. rewrite (IH _ Hr), <- app_assoc_str. f_equal.
    unfold locale_text in Hl. apply entry_text_written in Hl.
    assert (default [] (by_locale !! loc) = entries_of_locale all_entries loc)
      as Hes.
    { rewrite (group_entries_lookup _ _ loc Hgroup).
      by case_bool_decide as Hs; [rewrite Hs|]. }
    rewrite Hes in Hl. rewrite Hl. unfold locale_section.
    rewrite app_assoc_str. reflexivity.
Qed.

Lemma summary_text_written (now_txt now_json : string)
    (output_dir output_dir' : Directory) :
  write_summary_report now_txt now_json output_dir = Ok output_dir' →
  ∃ locales,
    StronglySorted str_le locales
    ∧ NoDup locales
    ∧ (∀ loc,
         loc ∈ locales
         ↔ ∃ entry,
             entry ∈ concat (file_entries <$> glob_reports output_dir)
             ∧ getitem entry "locale" = Ok loc)
    ∧ output_dir' !! "vandalism_report_summary.txt"
      = Some (TextFile
                (summary_text now_txt
                   (concat (file_entries <$> glob_reports output_dir))
                   locales)).
Proof.
  intros Hr. unfold write_summary_report in Hr.
  destruct (for_each _ (glob_reports output_dir) [])
    as [all_entries| |] eqn:Hload; [|done..].
  apply load_all_inv in Hload as [_ ->]. rewrite app_nil_l in Hr.
  revert Hr. res_simpl.
  destruct (group_entries _) as [by_locale| |] eqn:Hgroup; [|done..].
  res_simpl.
  destruct (for_each (locale_text by_locale) _ _) as [text| |] eqn:Htext;
    [|done..].
  res_simpl. intros [= <-].
  exists (merge_sort str_le (elements (dom by_locale))).
  split; [apply StronglySorted_merge_sort; apply _|].
  split; [rewrite merge_sort_Permutation; apply NoDup_elements|].
  split.
  - intros loc.
    rewrite merge_sort_Permutation, elem_of_elements, elem_of_dom.
    rewrite (group_entries_lookup _ _ loc Hgroup).
    unfold entries_of_locale. split.
    + case_bool_decide as Hs; [by intros [? ?]|]. intros _.
      destruct (filter _ _) as [|entry es] eqn:Hf; [done|].
      assert (entry ∈ entry :: es) as Hin by apply list_elem_of_here.
      rewrite <- Hf in Hin. apply list_elem_of_filter in Hin as [Hloc Hin].
      exists entry. split; [done|]. unfold entry_locale in Hloc.
      destruct (getitem entry "locale"); [|done..]. by injection Hloc as ->.
    + intros (entry & Hin & Hloc).
      rewrite bool_decide_eq_false_2; [done|]. intros Hnil.
      assert (entry ∈ filter (λ entry, entry_locale entry = Some loc)
                        (concat (file_entries <$> glob_reports output_dir)))
        as Hf.
      { apply list_elem_of_filter. split; [|done].
        unfold entry_locale. by rewrite Hloc. }
      rewrite Hnil in Hf. by apply elem_of_nil in Hf.
  - rewrite lookup_insert_ne, lookup_insert_eq by done. do 2 f_equal.
    by apply (locale_text_written _ _ _ _ _ Hgroup) in Htext.
Qed.

(** X13. What [write_summary_report] leaves. The summary JSON has as
    entries the entries of the report files, file after file in the order
    of the file names, and as total their number. The summary text has the
    head with the time and that number and then one section for each
    locale that an entry names, the locales in sorted order and each once:
    the heading with the locale and the number of its entries, and the
    original and the translation of each entry of the locale, in the order
    of the entries. No other file changes. The report files are the files
    whose name is vandalism_report_, then anything, then .json. *)
Theorem summary_lists_report_entries (now_txt now_json : string)
    (output_dir output_dir' : Directory) :
  write_summary_report now_txt now_json output_dir = Ok output_dir' →
  (∃ locales,
     StronglySorted str_le locales
     ∧ NoDup locales
     ∧ (∀ loc,
          loc ∈ locales
          ↔ ∃ entry,
              entry ∈ concat (file_entries <$> glob_reports output_dir)
              ∧ getitem entry "locale" = Ok loc)
     ∧ output_dir' !! "vandalism_report_summary.txt"
       = Some (TextFile
                 (summary_text now_txt
                    (concat (file_entries <$> glob_reports output_dir))
                    locales)))
  ∧ output_dir' !! "vandalism_report_summary.json"
    = Some (JsonFile
              (mkReport now_json None
                 (length (concat (file_entries <$> glob_reports output_dir)))
                 (Some (concat (file_entries <$> glob_reports output_dir)))))
  ∧ (∀ name,
       name ≠ "vandalism_report_summary.json" →
       name ≠ "vandalism_report_summary.txt" →
       output_dir' !! name = output_dir !! name)
  ∧ StronglySorted (λ f g, str_le f.1 g.1) (glob_reports output_dir)
  ∧ (∀ name f,
       (name, f) ∈ glob_reports output_dir
       ↔ output_dir !! name = Some f
         ∧ ∃ mid, name = "vandalism_report_" +:+ mid +:+ ".json").
Proof.
  intros Hr. split; [by eapply summary_text_written|].
  unfold write_summary_report in Hr.
  destruct (for_each _ (glob_reports output_dir) [])
    as [all_entries| |] eqn:Hload; [|done..].
  apply load_all_inv in Hload as [_ ->]. rewrite app_nil_l in Hr.
  revert Hr. res_simpl.
  destruct (group_entries _) as [by_locale| |]; [|done..]. res_simpl.
  destruct (for_each (locale_text by_locale) _ _) as [text| |]; [|done..].
  res_simpl. intros [= <-].
  split; [by rewrite lookup_insert_eq|].
  split; [intros name H1 H2; by rewrite !lookup_insert_ne|].
  split; [apply StronglySorted_merge_sort; apply _|].
  intros name f. by rewrite elem_of_glob_reports, is_report_name_spec.
Qed.

(** ** The scan of a locale directory *)

Lemma length_app_str (s t : string) :
  String.length (s +:+ t) = String.length s + String.length t.
Proof. induction s as [|c s IH]; [done|]. simpl. by rewrite IH. Qed.

Lemma app_str_inv_head (p s t : string) : p +:+ s = p +:+ t → s = t.
Proof.
  induction p as [|c p IH]; [done|]. rewrite !app_String.
  intros [= H]. by apply IH.
Qed.

Lemma app_str_inv_tail (p s t : string) : s +:+ p = t +:+ p → s = t.
Proof.
  revert t. induction s as [|c s IH]; intros [|c' t] H.
  - done.
  - apply (f_equal String.length) in H.
    rewrite app_empty_l, app_String in H. cbn [String.length] in H.
    rewrite length_app_str in H. lia.
  - apply (f_equal String.length) in H.
    rewrite app_empty_l, app_String in H. cbn [String.length] in H.
    rewrite length_app_str in H. lia.
  - rewrite !app_String in H. injection H as -> H. f_equal. by apply IH.
Qed.

Lemma get_report_path_inj (a b : string) :
  get_report_path a = get_report_path b → a = b.
Proof.
  unfold get_report_path. intros H%app_str_inv_head.
  by apply app_str_inv_tail in H.
Qed.

Lemma report_exists_write (t : string) (spam : list SpamEntry)
    (output_dir : Directory) (n m : string) :
  m ≠ n →
  report_exists (write_locale_report t spam output_dir n) m
  = report_exists output_dir m.
Proof.
  intros Hne. unfold report_exists, write_locale_report.
  rewrite lookup_insert_ne; [done|].
  intros H%get_report_path_inj. by destruct Hne.
Qed.

Lemma filter_ext_in {A : Type} (P1 P2 : A → Prop)
    `{!∀ x, Decision (P1 x), !∀ x, Decision (P2 x)} (l : list A) :
  (∀ x, x ∈ l → P1 x ↔ P2 x) → filter P1 l = filter P2 l.
Proof.
  induction l as [|a l IH]; intros Hiff; [done|].
  assert (filter P1 l = filter P2 l) as Hl.
  { apply IH. intros x Hx. apply Hiff. by right. }
  destruct (decide (P1 a)) as [Ha|Ha].
  - rewrite !filter_cons_True; [by rewrite Hl|by apply Hiff; [left|]|done].
  - rewrite !filter_cons_False; [done|..|done].
    intros Ha'. apply Ha, Hiff; [by left|done].
Qed.

Lemma sum_list_with_ext_in {A : Type} (f g : A → nat) (l : list A) :
  (∀ x, x ∈ l → f x = g x) → sum_list_with f l = sum_list_with g l.
Proof.
  induction l as [|a l IH]; intros Heq; [done|]. simpl.
  rewrite (Heq a) by (by left). rewrite IH; [done|].
  intros x Hx. apply Heq. by right.
Qed.

Lemma check_file_result_locale (locale_name : string)
    (translated : list (string * string)) (ts : list TaskState)
    (entry : SpamEntry) :
  entry ∈ omap id (zip_with (check_file_result locale_name) translated ts) →
  locale entry = locale_name.
Proof.
  intros ([e|] & He & Hx)%list_elem_of_omap; [|done]. injection Hx as ->.
  apply elem_of_lookup_zip_with in He as (i & [mid mst] & t & Hr & _).
  unfold check_file_result in Hr. destruct t as [| | | | |[|]]; try done.
  by injection Hr as ->.
Qed.

Section DirectoryScanProperties.

Context {duration : Type}.
Variable retry_delay : duration.
Variable classifier : string → nat → nat → Reply.
Variable schedule : LoopState duration → list nat.
Variable pofile : string → res (list POEntry).
Variable now : string → string.

Lemma scan_po_file_async_locale (fuel value : nat)
    (po_file locale_name : string) (spam_entries : list SpamEntry)
    (value' : nat) :
  scan_po_file_async retry_delay (classifier po_file) schedule fuel pofile
    value po_file locale_name = Ok (spam_entries, value') →
  Forall (λ entry, locale entry = locale_name) spam_entries.
Proof.
  unfold scan_po_file_async.
  destruct (parse_po_file pofile po_file) as [entries| |]; [|done..].
  res_simpl.
  destruct (event_loop _ _ _ _ _) as [σ| |]; [|done..]. res_simpl.
  intros [= <- _]. apply Forall_forall. intros entry He.
  by eapply check_file_result_locale.
Qed.

Lemma locale_files_loop (fuel : nat) (locale_name : string)
    (po_files : list PoFile) (acc locale_spam : list SpamEntry)
    (value value' : nat) :
  for_each (locale_files_body retry_delay classifier schedule pofile fuel
              locale_name) po_files (acc, value)
  = Ok (locale_spam, value') →
  Forall (λ entry, locale entry = locale_name) acc →
  Forall (λ entry, locale entry = locale_name) locale_spam.
Proof.
  revert acc value. induction po_files as [|f fs IH]; intros acc value; simpl.
  - by intros [= <- _].
  - destruct (locale_files_body retry_delay classifier schedule pofile fuel
                locale_name (acc, value) f) as [[acc' v]| |] eqn:Hbody;
      [|done..].
    res_simpl. intros Hr Hacc. apply (IH _ _ Hr).
    unfold locale_files_body in Hbody. cbn [fst snd] in Hbody.
    destruct (scan_po_file_async retry_delay (classifier (po_path f)) schedule
                fuel pofile value (po_path f) locale_name)
      as [[es v']| |] eqn:Hs; [|done..].
    revert Hbody. res_simpl. intros [= <- <-].
    apply Forall_app. split; [done|].
    by eapply scan_po_file_async_locale.
Qed.

Lemma locale_body_eq (fuel : nat) (force : bool)
    (locales : gmap string (list PoFile)) (stats : Stats)
    (output_dir : Directory) (value : nat) (locale_name : string) :
  locale_body retry_delay classifier schedule pofile now fuel force locales
    (stats, output_dir, value) locale_name
  = if is_skipped force output_dir locale_name then
      Ok (mkStats (scanned stats) (skipped stats + 1) (total_spam stats),
          output_dir, value)
    else
      '(locale_spam, value') ←
        for_each (locale_files_body retry_delay classifier schedule pofile
                    fuel locale_name)
          (default [] (locales !! locale_name)) ([], value);
      Ok (mkStats (scanned stats + 1) (skipped stats)
            (total_spam stats + length locale_spam),
          write_locale_report (now locale_name) locale_spam output_dir
            locale_name,
          value').
Proof. reflexivity. Qed.

Lemma locale_loop (fuel : nat) (force : bool)
    (locales : gmap string (list PoFile)) (names : list string)
    (stats stats' : Stats) (output_dir output_dir' : Directory)
    (value value' : nat) :
  NoDup names →
  for_each (locale_body retry_delay classifier schedule pofile now fuel force
              locales) names (stats, output_dir, value)
  = Ok (stats', output_dir', value') →
  scanned stats' + skipped stats' = scanned stats + skipped stats + length names
  ∧ skipped stats'
    = skipped stats
      + length (filter (λ n, is_skipped force output_dir n = true) names)
  ∧ (∀ file,
       (∀ n, n ∈ names → is_skipped force output_dir n = false →
             file ≠ get_report_path n) →
       output_dir' !! file = output_dir !! file)
  ∧ (∀ n, n ∈ names → is_skipped force output_dir n = false →
       ∃ spam,
         output_dir' !! get_report_path n
         = Some (JsonFile (mkReport (now n) (Some n) (length spam)
                             (Some (entry_dict <$> spam))))
         ∧ Forall (λ entry, locale entry = n) spam)
  ∧ total_spam stats'
    = total_spam stats
      + sum_list_with
          (λ n, if is_skipped force output_dir n then 0
                else written_total output_dir' n) names.
Proof.
  revert stats output_dir value.
  induction names as [|n names IH]; intros stats output_dir value Hnodup.
  - intros [= <- <- <-]. simpl. repeat split; try lia; try done.
    intros n Hn. by apply elem_of_nil in Hn.
  - apply NoDup_cons in Hnodup as [Hn Hnodup]. cbn [for_each].
    rewrite locale_body_eq.
    destruct (is_skipped force output_dir n) eqn:Hskip.
    + res_simpl. intros Hr.
      destruct (IH _ _ _ Hnodup Hr) as (H1 & H2 & H3 & H4 & H5).
      simpl in *. rewrite filter_cons_True by done. rewrite Hskip.
      split; [lia|]. split; [simpl; lia|]. split; [|split; [|lia]].
      * intros file Hfile. apply H3. intros m Hm. apply Hfile. by right.
      * intros m [->|Hm]%elem_of_cons Hm'; [congruence|]. by apply H4.
    + destruct (for_each _ (default [] (locales !! n)) ([], value))
        as [[locale_spam v]| |] eqn:Hfiles; [|done..].
      res_simpl. intros Hr.
      pose proof (locale_files_loop _ _ _ _ _ _ _ Hfiles (Forall_nil_2 _))
        as Hloc.
      destruct (IH _ _ _ Hnodup Hr) as (H1 & H2 & H3 & H4 & H5).
      simpl in H1, H2, H5.
      assert (∀ m, m ∈ names →
                is_skipped force
                  (write_locale_report (now n) locale_spam output_dir n) m
                = is_skipped force output_dir m) as Hsame.
      { intros m Hm. unfold is_skipped. rewrite report_exists_write; [done|].
        by intros ->. }
      assert (output_dir' !! get_report_path n
              = Some (JsonFile (mkReport (now n) (Some n) (length locale_spam)
                                  (Some (entry_dict <$> locale_spam)))))
        as Hhead.
      { rewrite H3.
        - unfold write_locale_report. by rewrite lookup_insert_eq.
        - intros m Hm _ Heq%get_report_path_inj. by subst m. }
      rewrite filter_cons_False by (by rewrite Hskip).
      split; [simpl; lia|]. split.
      { rewrite H2. f_equal. f_equal. apply filter_ext_in.
        intros m Hm. by rewrite Hsame. }
      split; [|split].
      * intros file Hfile. rewrite H3.
        -- unfold write_locale_report. rewrite lookup_insert_ne; [done|].
           intros Heq. apply (Hfile n); [by left|done|done].
        -- intros m Hm Hm'. apply Hfile; [by right|]. by rewrite <- Hsame.
      * intros m [->|Hm]%elem_of_cons Hm'.
        -- by exists locale_spam.
        -- apply H4; [done|]. by rewrite Hsame.
      * simpl. rewrite Hskip. unfold written_total at 1. rewrite Hhead. simpl.
        rewrite H5. rewrite <- Nat.add_assoc. f_equal. f_equal.
        apply sum_list_with_ext_in. intros m Hm. by rewrite Hsame.
Qed.

End DirectoryScanProperties.

Lemma group_po_files_snoc (po_files : list PoFile) (po_file : PoFile) :
  group_po_files (po_files ++ [po_file])
  = <[parent_name po_file :=
        default [] (group_po_files po_files !! parent_name po_file)
        ++ [po_file]]> (group_po_files po_files).
Proof. unfold group_po_files. by rewrite foldl_app. Qed.

Lemma dom_group_po_files (po_files : list PoFile) (n : string) :
  n ∈ dom (group_po_files po_files)
  ↔ ∃ po_file, po_file ∈ po_files ∧ parent_name po_file = n.
Proof.
  induction po_files as [|f fs IH] using rev_ind.
  - split; [by intros ?%elem_of_empty|]. by intros (f & ?%elem_of_nil & _).
  - rewrite group_po_files_snoc, dom_insert, elem_of_union, IH.
    rewrite elem_of_singleton. split.
    + intros [->|(g & Hg & <-)].
      * exists f. split; [|done]. apply elem_of_app. right. by left.
      * exists g. split; [|done]. apply elem_of_app. by left.
    + intros (g & [Hg|Hg]%elem_of_app & <-).
      * right. by exists g.
      * apply list_elem_of_singleton in Hg as ->. by left.
Qed.

(** X15. What [scan_locale_directory_async] returns and leaves: the
    locales are the directory names of the PO files, each once, in sorted
    order; every locale is either scanned or skipped; the skipped ones are
    those whose report exists, none when the scan is forced; afterwards
    every locale has a report; the report of a scanned locale states the
    locale, the time and the number of its entries, each of them with that
    locale; no other file changes; and the total of the statistics is the
    sum of the totals of the reports written. *)
Theorem directory_scan_stats {duration : Type} (retry_delay : duration)
    (classifier : string → nat → nat → Reply)
    (schedule : LoopState duration → list nat)
    (pofile : string → res (list POEntry)) (now : string → string)
    (fuel : nat) (po_files : list PoFile) (concurrency : Z)
    (output_dir : Directory) (force : bool) (stats : Stats)
    (output_dir' : Directory) :
  scan_locale_directory_async retry_delay classifier schedule pofile now fuel
    po_files concurrency output_dir force
  = Ok (stats, output_dir') →
  let names := merge_sort str_le (elements (dom (group_po_files po_files))) in
  NoDup names
  ∧ StronglySorted str_le names
  ∧ (∀ n, n ∈ names ↔ ∃ po_file, po_file ∈ po_files ∧ parent_name po_file = n)
  ∧ scanned stats + skipped stats = length names
  ∧ skipped stats
    = length (filter (λ n, is_skipped force output_dir n = true) names)
  ∧ (force = true → skipped stats = 0)
  ∧ (∀ n, n ∈ names → report_exists output_dir' n = true)
  ∧ (∀ file,
       (∀ n, n ∈ names → is_skipped force output_dir n = false →
             file ≠ get_report_path n) →
       output_dir' !! file = output_dir !! file)
  ∧ (∀ n, n ∈ names → is_skipped force output_dir n = false →
       ∃ spam,
         output_dir' !! get_report_path n
         = Some (JsonFile (mkReport (now n) (Some n) (length spam)
                             (Some (entry_dict <$> spam))))
         ∧ Forall (λ entry, locale entry = n) spam)
  ∧ total_spam stats
    = sum_list_with
        (λ n, if is_skipped force output_dir n then 0
              else written_total output_dir' n) names.
Proof.
  intros Hr names. unfold scan_locale_directory_async in Hr.
  destruct (new_semaphore concurrency) as [value| |]; [|done..].
  revert Hr. res_simpl. fold names.
  destruct (for_each _ names _) as [[[stats1 dir1] value1]| |] eqn:Hloop;
    [|done..].
  res_simpl. intros [= <- <-].
  assert (NoDup names) as Hnodup.
  { unfold names. rewrite merge_sort_Permutation. apply NoDup_elements. }
  destruct (locale_loop _ _ _ _ _ _ _ _ _ _ _ _ _ _ _ Hnodup Hloop)
    as (H1 & H2 & H3 & H4 & H5).
  simpl in H1, H2, H5.
  split; [done|]. split; [apply StronglySorted_merge_sort; apply _|].
  split.
  { intros n. unfold names.
    by rewrite merge_sort_Permutation, elem_of_elements, dom_group_po_files. }
  split; [done|]. split; [done|]. split.
  { intros ->. rewrite H2. unfold is_skipped. simpl.
    by rewrite filter_none. }
  split.
  { intros n Hn. destruct (is_skipped force output_dir n) eqn:Hskip.
    - pose proof Hskip as Hex. unfold is_skipped in Hex.
      apply andb_true_iff in Hex as [_ Hex].
      unfold report_exists in *. rewrite H3; [done|].
      intros m Hm Hm' Heq%get_report_path_inj. congruence.
    - destruct (H4 n Hn Hskip) as (spam & Hf & _).
      unfold report_exists. rewrite Hf. by apply bool_decide_eq_true_2. }
  done.
Qed.

Lemma summary_lists_report_entries_witness :
  sample_summary1 !! "vandalism_report_summary.json"
  = Some (JsonFile
            (mkReport "2026-01-03T00:00:01" None 3
               (Some (entry_dict
                        <$> [mkSpamEntry "de_DE" "Wallet" "Geldbeutel";
                             mkSpamEntry "de_DE" "Receive" "Kaufen Sie jetzt";
                             mkSpamEntry "fr_FR" "Send" "http://x.example"]))))
  ∧ sample_summary1 !! "vandalism_report_summary.txt"
    = Some (TextFile
              (summary_text "2026-01-03T00:00:00"
                 (entry_dict
                    <$> [mkSpamEntry "de_DE" "Wallet" "Geldbeutel";
                         mkSpamEntry "de_DE" "Receive" "Kaufen Sie jetzt";
                         mkSpamEntry "fr_FR" "Send" "http://x.example"])
                 ["de_DE"; "fr_FR"])).
Proof.
  destruct (summary_lists_report_entries "2026-01-03T00:00:00"
              "2026-01-03T00:00:01" sample_dir sample_summary1)
    as (_ & H & _).
  - vm_compute. reflexivity.
  - split; [rewrite H|]; vm_compute; reflexivity.
Defined.

Lemma summary_counts_previous_summary_witness :
  ∃ first second,
    sample_summary1 !! "vandalism_report_summary.json"
    = Some (JsonFile first)
    ∧ sample_summary2 !! "vandalism_report_summary.json"
      = Some (JsonFile second)
    ∧ report_total_spam first = reports_total sample_dir
    ∧ report_total_spam second = 2 * report_total_spam first.
Proof.
  apply (summary_counts_previous_summary "2026-01-03T00:00:00"
           "2026-01-03T00:00:01" "2026-01-04T00:00:00" "2026-01-04T00:00:01"
           sample_dir sample_summary1 sample_summary2).
  - vm_compute. reflexivity.
  - vm_compute. reflexivity.
  - vm_compute. reflexivity.
Defined.

Lemma directory_scan_stats_witness :
  scanned sample_scan.1 + skipped sample_scan.1 = 2
  ∧ skipped sample_scan.1 = 1
  ∧ report_exists sample_scan.2 "de_DE" = true
  ∧ sample_scan.2 !! get_report_path "fr_FR"
    = sample_reports !! get_report_path "fr_FR".
Proof.
  destruct (directory_scan_stats tt (λ _, mixed_classifier) starts_first
              sample_pofile sample_now 9 sample_po_files 2 sample_reports
              false sample_scan.1 sample_scan.2)
    as (_ & _ & _ & H1 & H2 & _ & H3 & H4 & _).
  - vm_compute. reflexivity.
  - split; [exact H1|]. split; [exact H2|]. split.
    + apply H3. vm_compute. apply list_elem_of_here.
    + apply H4. intros n Hn Hskip Heq%get_report_path_inj. subst n.
      vm_compute in Hskip. discriminate.
Defined.

(** ** The scan of a concatenation *)

Lemma head_is_key_not_quoted (lines : list string) :
  head_is_key lines → head_not_quoted lines.
Proof.
  intros Hk line Hl. destruct (re.match_quoted_line line) as [g|] eqn:E; [|done].
  destruct (quoted_line_not_keyword line) as [Hc _]; [by rewrite E|].
  rewrite (Hk line Hl) in Hc. done.
Qed.

Lemma index_app_l {A : Type} (l1 l2 : list A) (i : nat) :
  i < length l1 → index (l1 ++ l2) i = index l1 i.
Proof. intros Hi. unfold index. by rewrite lookup_app_l. Qed.

Lemma index_head {A : Type} (l1 l2 : list A) :
  index (l1 ++ l2) (length l1) = index l2 0.
Proof. unfold index. by rewrite lookup_app_r, Nat.sub_diag by lia. Qed.

(** *** A line sequence that follows does not change the scan of what
    comes before *)

Lemma continuation_loop_prefix (f1 f2 : nat) (l1 l2 parts : list string)
    (i : nat) :
  head_not_quoted l2 →
  i ≤ length l1 → length l1 - i < f1 → length l1 - i < f2 →
  continuation_loop f1 (l1 ++ l2) parts i = continuation_loop f2 l1 parts i.
Proof.
  intros Hhead. revert f2 parts i.
  induction f1 as [|f1 IH]; intros [|f2] parts i Hi H1 H2; try lia.
  cbn [continuation_loop]. rewrite length_app.
  destruct (decide (i < length l1)) as [Hlt|Hge].
  - rewrite !bool_decide_eq_true_2 by lia. rewrite index_app_l by done.
    destruct (index l1 i) as [line| |]; res_simpl; [|done..].
    destruct (re.match_quoted_line line); [|done]. apply IH; lia.
  - assert (i = length l1) as -> by lia.
    rewrite (bool_decide_eq_false_2 (length l1 < length l1)) by lia.
    case_bool_decide as Hl2; [|done].
    rewrite index_head. unfold index.
    destruct (l2 !! 0) as [line|] eqn:Hl; res_simpl.
    + by rewrite (Hhead line Hl).
    + apply lookup_ge_None in Hl. lia.
Qed.

Lemma continuation_loop_fuel (f1 f2 : nat) (lines parts : list string)
    (i : nat) :
  i ≤ length lines → length lines - i < f1 → length lines - i < f2 →
  continuation_loop f1 lines parts i = continuation_loop f2 lines parts i.
Proof.
  intros Hi H1 H2.
  rewrite <- (continuation_loop_prefix f1 f2 lines [] parts i); try done.
  by rewrite app_nil_r.
Qed.

Lemma _extract_po_string_lines_prefix (l1 l2 : list string) (i : nat) :
  head_not_quoted l2 → i < length l1 →
  _extract_po_string_lines (l1 ++ l2) i = _extract_po_string_lines l1 i.
Proof.
  intros Hhead Hi. unfold _extract_po_string_lines.
  rewrite index_app_l by done.
  destruct (index l1 i) as [line| |]; res_simpl; [|done..].
  destruct (re.search_quoted line); [|done].
  rewrite (continuation_loop_prefix (length (l1 ++ l2)) (length l1));
    [done|done|lia|rewrite length_app; lia|lia].
Qed.

Lemma skip_loop_prefix (f1 f2 : nat) (l1 l2 : list string) (i : nat) :
  head_is_key l2 →
  i ≤ length l1 → length l1 - i < f1 → length l1 - i < f2 →
  skip_loop f1 (l1 ++ l2) i = skip_loop f2 l1 i.
Proof.
  intros Hhead. revert f2 i.
  induction f1 as [|f1 IH]; intros [|f2] i Hi H1 H2; try lia.
  cbn [skip_loop]. rewrite length_app.
  destruct (decide (i < length l1)) as [Hlt|Hge].
  - rewrite !bool_decide_eq_true_2 by lia. rewrite index_app_l by done.
    destruct (index l1 i) as [line| |]; res_simpl; [|done..].
    destruct (negb (startswith line msgstr_kw)); [|done].
    destruct (negb (startswith line msgid_kw)); [|done]. apply IH; lia.
  - assert (i = length l1) as -> by lia.
    rewrite (bool_decide_eq_false_2 (length l1 < length l1)) by lia.
    case_bool_decide as Hl2; [|done].
    rewrite index_head. unfold index.
    destruct (l2 !! 0) as [line|] eqn:Hl; res_simpl.
    + pose proof (Hhead line Hl) as Hk. rewrite Hk.
      destruct (startswith line msgstr_kw) eqn:Hv; [done|]. done.
    + apply lookup_ge_None in Hl. lia.
Qed.

Lemma line_startswith_prefix (l1 l2 : list string) (i : nat) :
  head_is_key l2 → i ≤ length l1 →
  line_startswith (l1 ++ l2) i msgstr_kw = line_startswith l1 i msgstr_kw.
Proof.
  intros Hhead Hi. unfold line_startswith. rewrite length_app.
  destruct (decide (i < length l1)) as [Hlt|Hge].
  - rewrite !bool_decide_eq_true_2 by lia. by rewrite index_app_l.
  - assert (i = length l1) as -> by lia.
    rewrite (bool_decide_eq_false_2 (length l1 < length l1)) by lia.
    case_bool_decide as Hl2; [|done].
    rewrite index_head. unfold index.
    destruct (l2 !! 0) as [line|] eqn:Hl; res_simpl.
    + destruct (startswith line msgstr_kw) eqn:Hv; [|done].
      apply msgstr_line_not_msgid in Hv. by rewrite (Hhead line Hl) in Hv.
    + apply lookup_ge_None in Hl. lia.
Qed.

Lemma line_startswith_true (lines : list string) (i : nat) (kw : string) :
  line_startswith lines i kw = Ok true → i < length lines.
Proof.
  unfold line_startswith. case_bool_decide; [done|]. by intros [=].
Qed.

Lemma extract_msgstr_prefix (l1 l2 : list string) (i : nat) :
  head_is_key l2 → i ≤ length l1 →
  extract_msgstr (l1 ++ l2) i = extract_msgstr l1 i.
Proof.
  intros Hhead Hi. unfold extract_msgstr.
  pose proof (head_is_key_not_quoted l2 Hhead) as Hnq.
  rewrite line_startswith_prefix by done.
  destruct (line_startswith l1 i msgstr_kw) as [[|]| |] eqn:Hb; res_simpl;
    [|..|done|done].
  - apply _extract_po_string_lines_prefix; [done|].
    by eapply line_startswith_true.
  - rewrite (skip_loop_prefix (S (length (l1 ++ l2))) (S (length l1)));
      [|done|done|rewrite length_app; lia|lia].
    destruct (skip_loop_Ok (S (length l1)) l1 i) as (j & Hj & Hle & _);
      [lia..|].
    rewrite Hj. res_simpl. rewrite line_startswith_prefix by (done || lia).
    destruct (line_startswith l1 j msgstr_kw) as [[|]| |] eqn:Hb'; res_simpl;
      [|done..].
    apply _extract_po_string_lines_prefix; [done|].
    by eapply line_startswith_true.
Qed.

(** *** What comes before only shifts the cursor of the scan of what
    follows *)

Lemma continuation_loop_shift (f : nat) (l1 l2 parts : list string) (j : nat) :
  continuation_loop f (l1 ++ l2) parts (length l1 + j)
  = ('(parts', k) ← continuation_loop f l2 parts j; Ok (parts', length l1 + k)).
Proof.
  revert parts j. induction f as [|f IH]; intros parts j; [done|].
  cbn [continuation_loop]. rewrite length_app.
  destruct (decide (j < length l2)) as [Hlt|Hge].
  - rewrite !bool_decide_eq_true_2 by lia. rewrite index_app_at.
    destruct (index l2 j) as [line| |]; res_simpl; [|done..].
    destruct (re.match_quoted_line line); [|done].
    rewrite <- Nat.add_assoc. apply IH.
  - by rewrite !bool_decide_eq_false_2 by lia.
Qed.

Lemma _extract_po_string_lines_shift (l1 l2 : list string) (j : nat) :
  j < length l2 →
  _extract_po_string_lines (l1 ++ l2) (length l1 + j)
  = ('(v, k) ← _extract_po_string_lines l2 j; Ok (v, length l1 + k)).
Proof.
  intros Hj. unfold _extract_po_string_lines. rewrite index_app_at.
  destruct (index l2 j) as [line| |]; res_simpl; [|done..].
  destruct (re.search_quoted line); res_simpl.
  - rewrite <- Nat.add_assoc, continuation_loop_shift.
    rewrite (continuation_loop_fuel (length (l1 ++ l2)) (length l2));
      [|lia|rewrite length_app; lia|lia].
    destruct (continuation_loop (length l2) l2 _ _) as [[parts k]| |];
      res_simpl; [|done..].
    by destruct (_unescape_po (join parts)).
  - do 2 f_equal. lia.
Qed.

Lemma skip_loop_shift (f : nat) (l1 l2 : list string) (j : nat) :
  skip_loop f (l1 ++ l2) (length l1 + j)
  = (k ← skip_loop f l2 j; Ok (length l1 + k)).
Proof.
  revert j. induction f as [|f IH]; intros j; [done|].
  cbn [skip_loop]. rewrite length_app.
  destruct (decide (j < length l2)) as [Hlt|Hge].
  - rewrite !bool_decide_eq_true_2 by lia. rewrite index_app_at.
    destruct (index l2 j) as [line| |]; res_simpl; [|done..].
    destruct (negb (startswith line msgstr_kw)); [|done].
    destruct (negb (startswith line msgid_kw)); [|done].
    rewrite <- Nat.add_assoc. apply IH.
  - by rewrite !bool_decide_eq_false_2 by lia.
Qed.

Lemma skip_loop_fuel (f1 f2 : nat) (lines : list string) (i : nat) :
  i ≤ length lines → length lines - i < f1 → length lines - i < f2 →
  skip_loop f1 lines i = skip_loop f2 lines i.
Proof.
  intros Hi H1 H2.
  rewrite <- (skip_loop_prefix f1 f2 lines [] i); try done.
  by rewrite app_nil_r.
Qed.

Lemma line_startswith_shift (l1 l2 : list string) (j : nat) (kw : string) :
  line_startswith (l1 ++ l2) (length l1 + j) kw = line_startswith l2 j kw.
Proof.
  unfold line_startswith. rewrite length_app.
  destruct (decide (j < length l2)) as [Hlt|Hge].
  - rewrite !bool_decide_eq_true_2 by lia. by rewrite index_app_at.
  - by rewrite !bool_decide_eq_false_2 by lia.
Qed.

Lemma extract_msgstr_shift (l1 l2 : list string) (j : nat) :
  j ≤ length l2 →
  extract_msgstr (l1 ++ l2) (length l1 + j)
  = ('(v, k) ← extract_msgstr l2 j; Ok (v, length l1 + k)).
Proof.
  intros Hj. unfold extract_msgstr. rewrite line_startswith_shift.
  destruct (line_startswith l2 j msgstr_kw) as [[|]| |] eqn:Hb; res_simpl;
    [|..|done|done].
  - apply _extract_po_string_lines_shift. by eapply line_startswith_true.
  - rewrite skip_loop_shift.
    rewrite (skip_loop_fuel (S (length (l1 ++ l2))) (S (length l2)));
      [|lia|rewrite length_app; lia|lia].
    destruct (skip_loop_Ok (S (length l2)) l2 j) as (k & Hk & Hle & _);
      [lia..|].
    rewrite Hk. res_simpl. rewrite line_startswith_shift.
    destruct (line_startswith l2 k msgstr_kw) as [[|]| |] eqn:Hb'; res_simpl;
      [|done..].
    apply _extract_po_string_lines_shift. by eapply line_startswith_true.
Qed.

Lemma pairs_loop_shift (f : nat) (l1 l2 : list string)
    (pairs : list (string * string)) (j : nat) :
  j ≤ length l2 →
  pairs_loop f (l1 ++ l2) pairs (length l1 + j) = pairs_loop f l2 pairs j.
Proof.
  revert pairs j. induction f as [|f IH]; intros pairs j Hj; [done|].
  cbn [pairs_loop]. rewrite length_app.
  destruct (decide (j < length l2)) as [Hlt|Hge].
  - rewrite !bool_decide_eq_true_2 by lia. rewrite index_app_at.
    destruct (index l2 j) as [line| |]; res_simpl; [|done..].
    destruct (startswith line msgid_kw).
    + rewrite _extract_po_string_lines_shift by done.
      destruct (_extract_po_string_lines_Ok l2 j Hlt)
        as (msgid & i1 & -> & Hi1 & _).
      res_simpl. rewrite extract_msgstr_shift by lia.
      destruct (extract_msgstr_Ok l2 i1) as (msgstr & i2 & -> & Hi2 & _);
        [lia|].
      res_simpl. destruct (String.eqb msgid ""); apply IH; lia.
    + rewrite <- Nat.add_assoc. apply IH. lia.
  - by rewrite !bool_decide_eq_false_2 by lia.
Qed.

(** *** The fuel and the pairs collected so far *)

Lemma pairs_loop_fuel (f1 f2 : nat) (lines : list string)
    (pairs : list (string * string)) (i : nat) :
  i ≤ length lines → length lines - i < f1 → length lines - i < f2 →
  pairs_loop f1 lines pairs i = pairs_loop f2 lines pairs i.
Proof.
  revert f2 pairs i.
  induction f1 as [|f1 IH]; intros [|f2] pairs i Hi H1 H2; try lia.
  cbn [pairs_loop]. case_bool_decide as Hlt; [|done].
  destruct (index_lt lines i Hlt) as (line & _ & ->). res_simpl.
  destruct (startswith line msgid_kw).
  - destruct (_extract_po_string_lines_Ok lines i Hlt)
      as (msgid & i1 & -> & Hi1 & _).
    res_simpl.
    destruct (extract_msgstr_Ok lines i1) as (msgstr & i2 & -> & Hi2 & _);
      [lia|].
    res_simpl. destruct (String.eqb msgid ""); apply IH; lia.
  - apply IH; lia.
Qed.

Lemma pairs_loop_acc (f : nat) (lines : list string)
    (acc pairs : list (string * string)) (i : nat) :
  pairs_loop f lines (acc ++ pairs) i
  = (r ← pairs_loop f lines pairs i; Ok (acc ++ r)).
Proof.
  revert pairs i. induction f as [|f IH]; intros pairs i; [done|].
  cbn [pairs_loop]. case_bool_decide as Hlt; [|done].
  destruct (index lines i) as [line| |]; res_simpl; [|done..].
  destruct (startswith line msgid_kw); [|apply IH].
  destruct (_extract_po_string_lines lines i) as [[msgid i1]| |]; res_simpl;
    [|done..].
  destruct (extract_msgstr lines i1) as [[msgstr i2]| |]; res_simpl;
    [|done..].
  destruct (String.eqb msgid ""); [apply IH|].
  rewrite <- app_assoc. apply IH.
Qed.

Lemma pairs_loop_prefix (f g : nat) (l1 l2 : list string)
    (pairs r1 r : list (string * string)) (i : nat) :
  head_is_key l2 →
  i ≤ length l1 → length l2 < g →
  pairs_loop f l1 pairs i = Ok r1 →
  pairs_loop g (l1 ++ l2) r1 (length l1) = Ok r →
  pairs_loop (f + g) (l1 ++ l2) pairs i = Ok r.
Proof.
  intros Hhead. pose proof (head_is_key_not_quoted l2 Hhead) as Hnq.
  revert pairs i. induction f as [|f IH]; intros pairs i Hi Hg Hr1 Hr; [done|].
  destruct (decide (i < length l1)) as [Hlt|Hge].
  - cbn [Nat.add pairs_loop] in *. rewrite length_app.
    rewrite bool_decide_eq_true_2 in Hr1 by done.
    rewrite bool_decide_eq_true_2 by lia. rewrite index_app_l by done.
    destruct (index l1 i) as [line| |]; [|done..]. revert Hr1. res_simpl.
    destruct (startswith line msgid_kw).
    + rewrite _extract_po_string_lines_prefix by done.
      destruct (_extract_po_string_lines_Ok l1 i Hlt)
        as (msgid & i1 & -> & Hi1 & _).
      res_simpl. rewrite extract_msgstr_prefix by (done || lia).
      destruct (extract_msgstr_Ok l1 i1) as (msgstr & i2 & -> & Hi2 & _);
        [lia|].
      res_simpl. destruct (String.eqb msgid ""); intros Hr1; apply IH;
        (done || lia).
    + intros Hr1. apply IH; (done || lia).
  - assert (i = length l1) as -> by lia.
    cbn [pairs_loop] in Hr1. rewrite bool_decide_eq_false_2 in Hr1 by lia.
    injection Hr1 as <-.
    rewrite (pairs_loop_fuel (S f + g) g); [done|..];
      rewrite ?length_app; lia.
Qed.

(** X16. The entries of a line sequence do not depend on what follows
    the next key line: when [l2] is empty or begins with a key line, the
    pairs of [l1 ++ l2] are the pairs of [l1] followed by the pairs of
    [l2]. *)
Theorem pairs_of_concatenation (l1 l2 : list string) :
  head_is_key l2 →
  ∃ pairs1 pairs2,
    _extract_pairs_from_lines l1 = Ok pairs1
    ∧ _extract_pairs_from_lines l2 = Ok pairs2
    ∧ _extract_pairs_from_lines (l1 ++ l2) = Ok (pairs1 ++ pairs2).
Proof.
  intros Hhead. exists (pairs_of l1), (pairs_of l2).
  split; [apply pairs_of_Ok|]. split; [apply pairs_of_Ok|].
  pose proof (pairs_of_Ok l1) as H1. pose proof (pairs_of_Ok l2) as H2.
  unfold _extract_pairs_from_lines in *.
  rewrite (pairs_loop_fuel _ (S (length l1) + S (length l2)));
    [|lia|rewrite length_app; lia..].
  apply (pairs_loop_prefix _ _ l1 l2 [] (pairs_of l1)); [done|lia|lia|done|].
  rewrite <- (Nat.add_0_r (length l1)), pairs_loop_shift by lia.
  rewrite <- (app_nil_r (pairs_of l1)) at 1.
  by rewrite pairs_loop_acc, H2.
Qed.

Lemma pairs_of_concatenation_witness :
  ∃ pairs1 pairs2,
    _extract_pairs_from_lines
      [msgid_kw +:+ "Wallet" +:+ dq; "#: main_window.py:100"] = Ok pairs1
    ∧ _extract_pairs_from_lines
        [msgid_kw +:+ "Send" +:+ dq; msgstr_kw +:+ "Senden" +:+ dq]
      = Ok pairs2
    ∧ _extract_pairs_from_lines
        ([msgid_kw +:+ "Wallet" +:+ dq; "#: main_window.py:100"]
         ++ [msgid_kw +:+ "Send" +:+ dq; msgstr_kw +:+ "Senden" +:+ dq])
      = Ok (pairs1 ++ pairs2).
Proof.
  apply pairs_of_concatenation. intros line [= <-]. reflexivity.
Defined.

(** ** Two runs of the scan and the summary *)

Lemma filter_all {A : Type} (P : A → Prop) `{!∀ x, Decision (P x)}
    (l : list A) :
  (∀ x, x ∈ l → P x) → filter P l = l.
Proof.
  induction l as [|x l IH]; intros Hall; [done|].
  rewrite filter_cons_True by (apply Hall; by left).
  f_equal. apply IH. intros y Hy. apply Hall. by right.
Qed.

(** X17. The scan of the locale directory followed by the summary, as
    [main] runs them, and both once more: when the output directory had no
    summary and no locale is named summary, the second scan, not forced,
    skips every locale and changes no file, and the second summary has twice
    the total of the first. *)
Theorem second_run_doubles_summary {duration : Type}
    (retry_delay : duration)
    (classifier classifier' : string → nat → nat → Reply)
    (schedule schedule' : LoopState duration → list nat)
    (pofile pofile' : string → res (list POEntry))
    (now now' : string → string) (fuel fuel' : nat)
    (po_files : list PoFile) (concurrency concurrency' : Z) (force : bool)
    (now1 now2 now3 now4 : string)
    (output_dir dir1 dir2 dir3 dir4 : Directory) (stats1 stats2 : Stats) :
  output_dir !! "vandalism_report_summary.json" = None →
  (∀ po_file, po_file ∈ po_files → parent_name po_file ≠ "summary") →
  scan_locale_directory_async retry_delay classifier schedule pofile now fuel
    po_files concurrency output_dir force = Ok (stats1, dir1) →
  write_summary_report now1 now2 dir1 = Ok dir2 →
  scan_locale_directory_async retry_delay classifier' schedule' pofile' now'
    fuel' po_files concurrency' dir2 false = Ok (stats2, dir3) →
  write_summary_report now3 now4 dir3 = Ok dir4 →
  scanned stats2 = 0
  ∧ skipped stats2 = scanned stats1 + skipped stats1
  ∧ total_spam stats2 = 0
  ∧ dir3 = dir2
  ∧ ∃ first second,
      dir2 !! "vandalism_report_summary.json" = Some (JsonFile first)
      ∧ dir4 !! "vandalism_report_summary.json" = Some (JsonFile second)
      ∧ report_total_spam second = 2 * report_total_spam first.
Proof.
  intros Hnone Hnames Hscan1 Hsum1 Hscan2 Hsum2.
  set (names := merge_sort str_le (elements (dom (group_po_files po_files)))).
  assert (NoDup names) as Hnodup.
  { unfold names. rewrite merge_sort_Permutation. apply NoDup_elements. }
  assert (∀ n, n ∈ names → n ≠ "summary") as Hnot.
  { intros n Hn. unfold names in Hn.
    rewrite merge_sort_Permutation, elem_of_elements, dom_group_po_files in Hn.
    destruct Hn as (f & Hf & <-). by apply Hnames. }
  (* the first scan *)
  unfold scan_locale_directory_async in Hscan1.
  destruct (new_semaphore concurrency) as [value| |]; [|done..].
  revert Hscan1. res_simpl. fold names.
  destruct (for_each _ names _) as [[[s1 d1] v1]| |] eqn:Hloop1; [|done..].
  res_simpl. intros [= <- <-].
  destruct (locale_loop _ _ _ _ _ _ _ _ _ _ _ _ _ _ _ Hnodup Hloop1)
    as (Hc1 & _ & Hother1 & Hwritten1 & _).
  simpl in Hc1.
  assert (d1 !! "vandalism_report_summary.json" = None) as Hnone1.
  { rewrite Hother1; [done|].
    intros n Hn _ Heq. apply (Hnot n Hn).
    by apply (get_report_path_inj n "summary"). }
  assert (∀ n, n ∈ names → report_exists d1 n = true) as Hexists1.
  { intros n Hn. destruct (is_skipped force output_dir n) eqn:Hskip.
    - pose proof Hskip as Hex. unfold is_skipped in Hex.
      apply andb_true_iff in Hex as [_ Hex].
      unfold report_exists in *. rewrite Hother1; [done|].
      intros m Hm Hm' Heq%get_report_path_inj. congruence.
    - destruct (Hwritten1 n Hn Hskip) as (spam & Hf & _).
      unfold report_exists. rewrite Hf. by apply bool_decide_eq_true_2. }
  (* the first summary *)
  apply write_summary_report_Ok in Hsum1 as (es1 & text1 & Hlen1 & ->).
  assert (∀ n, n ∈ names →
            is_skipped false
              (<["vandalism_report_summary.json" :=
                   JsonFile (mkReport now2 None (length es1) (Some es1))]>
                 (<["vandalism_report_summary.txt" := TextFile text1]> d1)) n
            = true) as Hskip2.
  { intros n Hn. unfold is_skipped, report_exists. simpl.
    apply bool_decide_eq_true_2.
    pose proof (Hexists1 n Hn) as Hex. unfold report_exists in Hex.
    apply bool_decide_eq_true_1 in Hex.
    rewrite lookup_insert_ne.
    2:{ intros Heq. apply (Hnot n Hn).
        by apply (get_report_path_inj n "summary"). }
    rewrite lookup_insert_ne; [done|].
    intros Heq. unfold get_report_path in Heq.
    apply (app_str_inv_head "vandalism_report_" "summary.txt") in Heq.
    apply (f_equal (λ s, endswith s ".json")) in Heq.
    rewrite (proj2 (endswith_spec (n +:+ ".json") ".json")) in Heq
      by (by exists n).
    done. }
  (* the second scan *)
  unfold scan_locale_directory_async in Hscan2.
  destruct (new_semaphore concurrency') as [value'| |]; [|done..].
  revert Hscan2. res_simpl. fold names.
  destruct (for_each (locale_body retry_delay classifier' schedule' pofile'
                        now' fuel' false _) names _)
    as [[[s2 d2] v2]| |] eqn:Hloop2; [|done..].
  res_simpl. intros [= <- <-].
  destruct (locale_loop _ _ _ _ _ _ _ _ _ _ _ _ _ _ _ Hnodup Hloop2)
    as (Hc2 & Hs2 & Hother2 & _ & Ht2).
  simpl in Hc2, Hs2, Ht2.
  rewrite filter_all in Hs2 by done.
  assert (d2 = <["vandalism_report_summary.json" :=
                   JsonFile (mkReport now2 None (length es1) (Some es1))]>
                 (<["vandalism_report_summary.txt" := TextFile text1]> d1))
    as ->.
  { apply map_eq. intros file. apply Hother2.
    intros n Hn Hskip. by rewrite Hskip2 in Hskip. }
  split; [lia|]. split; [lia|]. split.
  { rewrite Ht2. clear -Hskip2. induction names as [|n names IH]; [done|].
    simpl. rewrite Hskip2 by (by left). simpl.
    apply IH. intros m Hm. apply Hskip2. by right. }
  split; [done|].
  (* the second summary *)
  apply write_summary_report_Ok in Hsum2 as (es2 & text2 & Hlen2 & ->).
  eexists _, _. split; [apply lookup_insert_eq|].
  split; [apply lookup_insert_eq|]. simpl.
  rewrite Hlen2, reports_total_insert_new; [|done|].
  - rewrite reports_total_insert_other by done. simpl. lia.
  - by rewrite lookup_insert_ne.
Qed.

Lemma second_run_doubles_summary_witness :
  scanned sample_rescan.1 = 0
  ∧ skipped sample_rescan.1 = scanned sample_scan.1 + skipped sample_scan.1
  ∧ total_spam sample_rescan.1 = 0
  ∧ sample_rescan.2 = sample_run1
  ∧ ∃ first second,
      sample_run1 !! "vandalism_report_summary.json" = Some (JsonFile first)
      ∧ sample_run2 !! "vandalism_report_summary.json"
        = Some (JsonFile second)
      ∧ report_total_spam second = 2 * report_total_spam first.
Proof.
  apply (second_run_doubles_summary tt (λ _, mixed_classifier)
           (λ _, mixed_classifier) starts_first starts_first sample_pofile
           sample_pofile sample_now sample_now 9 9 sample_po_files 2 2 false
           "2026-01-03T00:01:00" "2026-01-03T00:01:01" "2026-01-04T00:01:00"
           "2026-01-04T00:01:01" sample_reports sample_scan.2 sample_run1
           sample_rescan.2 sample_run2 sample_scan.1 sample_rescan.1).
  - vm_compute. reflexivity.
  - intros po_file Hf.
    apply elem_of_cons in Hf as [->|Hf]; [discriminate|].
    apply list_elem_of_singleton in Hf as ->. discriminate.
  - vm_compute. reflexivity.
  - vm_compute. reflexivity.
  - vm_compute. reflexivity.
  - vm_compute. reflexivity.
Defined.

(** ** Retries without end *)

Lemma event_loop_not_Raise {duration : Type} (retry_delay : duration)
    (classifier : nat → nat → Reply)
    (schedule : LoopState duration → list nat) (fuel : nat)
    (σ : LoopState duration) (e : exn) :
  event_loop retry_delay classifier schedule fuel σ ≠ Raise e.
Proof.
  revert σ. induction fuel as [|fuel IH]; intros σ; [done|]. simpl.
  destruct (forallb is_returned (tasks σ)); [done|].
  destruct (first_ready retry_delay classifier σ (schedule σ)); [apply IH|done].
Qed.

(** X18. There is no last attempt: when every reply to the requests of
    one record fails, its task never returns, in no state that a run
    reaches, so [gather] never ends, whatever the schedule and however many
    turns the loop is given; and [call_openai_async] on its own returns for
    no number of attempts. A payload such as Genuine with a full stop is
    such a reply. *)
Theorem failing_classifier_never_returns {duration : Type}
    (retry_delay : duration) (classifier : nat → nat → Reply)
    (K n i : nat) :
  i < n →
  (∀ k, ∃ e, try_body (classifier i k) = Raise e) →
  (∀ σ,
     rtc (step retry_delay classifier) (gather_init K n) σ →
     ∀ c, tasks σ !! i ≠ Some (Returned c))
  ∧ (∀ (schedule : LoopState duration → list nat) (fuel : nat),
       event_loop retry_delay classifier schedule fuel (gather_init K n)
       = OutOfFuel)
  ∧ (∀ fuel k,
       call_openai_async retry_delay (classifier i) fuel k = OutOfFuel).
Proof.
  intros Hi Hfail.
  assert (∀ σ σ' j,
            (∀ c, tasks σ !! i ≠ Some (Returned c)) →
            step_task retry_delay classifier σ j = Some σ' →
            ∀ c, tasks σ' !! i ≠ Some (Returned c)) as Hstep.
  { intros σ1 σ2 j IH Hs c Hc.
    destruct (step_task_summary retry_delay classifier σ1 σ2 j Hs)
      as (x & y & w & es & Hj & Hmove & Hw & Ht & _).
    rewrite Ht in Hc. destruct (decide (j = i)) as [->|Hne].
    - assert (i < length (wake_tasks w (tasks σ1))) as Hlt.
      { apply lookup_lt_Some in Hj. destruct w; simpl;
          by rewrite ?length_insert. }
      rewrite list_lookup_insert_eq in Hc by done. injection Hc as ->.
      inversion Hmove as [| | |k response Hr| |]; subst.
      destruct (Hfail k) as [e He]. congruence.
    - rewrite list_lookup_insert_ne in Hc by done.
      destruct w as [j'|]; simpl in Hc; [|by apply (IH c)].
      destruct (decide (j' = i)) as [->|Hne'].
      + rewrite list_lookup_insert_eq in Hc; [done|].
        destruct (Hw i eq_refl) as [Hwait _]. by eapply lookup_lt_Some.
      + rewrite list_lookup_insert_ne in Hc by done. by apply (IH c). }
  assert (∀ σ σ',
            (∀ c, tasks σ !! i ≠ Some (Returned c)) →
            rtc (step retry_delay classifier) σ σ' →
            ∀ c, tasks σ' !! i ≠ Some (Returned c)) as Hreachable.
  { intros σ σ' Hinv Hreach.
    induction Hreach as [σ|σ σ1 σ2 [j Hs] _ IH]; [done|].
    apply IH. by eapply Hstep. }
  assert (∀ σ, rtc (step retry_delay classifier) (gather_init K n) σ →
               ∀ c, tasks σ !! i ≠ Some (Returned c)) as Hnever.
  { intros σ. apply Hreachable. intros c. simpl.
    by rewrite lookup_replicate_2. }
  split; [done|]. split.
  - intros schedule fuel.
    destruct (event_loop retry_delay classifier schedule fuel
                (gather_init K n)) as [σ|e|] eqn:Hloop; [exfalso| |done].
    + destruct (event_loop_Ok retry_delay classifier schedule fuel _ σ Hloop)
        as [Hreach Hall].
      pose proof (reachable_inv retry_delay classifier K n _ _
                    (gather_init_inv K n) Hreach) as [[Hlen _ _ _ _] _].
      destruct (lookup_lt_is_Some_2 (tasks σ) i ltac:(lia)) as [t Ht].
      destruct (all_returned_lookup _ i t Hall Ht) as [c ->].
      by apply (Hnever σ Hreach c).
    + by apply event_loop_not_Raise in Hloop.
  - intros fuel. induction fuel as [|fuel IH]; intros k; [done|].
    simpl. destruct (Hfail k) as [e ->]. by rewrite IH.
Qed.

Lemma failing_classifier_never_returns_witness :
  event_loop tt (λ _ _, Response 200 (Some "Genuine.")) in_order 100
    (gather_init 1 1)
  = OutOfFuel
  ∧ call_openai_async tt (λ _, Response 200 (Some "Genuine.")) 100 0
    = OutOfFuel.
Proof.
  destruct (failing_classifier_never_returns tt
              (λ _ _, Response 200 (Some "Genuine.")) 1 1 0) as (_ & H1 & H2).
  - lia.
  - intros k. by exists AssertionError.
  - split; [apply H1 | apply H2].
Defined.
